(** * Deployment-validation orchestrator: a shallow embedding

    The Python sources embedded here are
    - [specify_cli/utils/dependency_graph.py]   (module [DepGraph]),
    - [specify_cli/utils/retry_policies.py]     (modules [Backoff], [Breaker]),
    - [specify_cli/validation/fix_orchestrator.py] (module [Fix]),
    - [specify_cli/validation/resource_deployer_simple.py] (module [Deployer]),
    - [specify_cli/validation/validation_session.py] (module [Session]).

    Python exceptions are values of [exn]; a call either returns, raises, or
    (for the fuelled loops of the model only) runs out of fuel. *)

From Stdlib Require Import ZArith QArith Qminmax Qpower Lia Lqa String Ascii Sorted.
From stdpp Require Import gmap strings list fin_maps sets relations pretty.

Local Open Scope Z_scope.
Set Warnings "-clear-no-such-hyp".

(** ** Exceptions and outcomes *)

Inductive exn : Type :=
| CyclicDependencyError (cycle_path : list string)
| KeyError (key : string)
| ValueError (msg : string)
| RuntimeError (msg : string)
| ValidationError (msg : string)
| CircuitBreakerError
| OverflowError (msg : string)
| OtherError (msg : string).

Inductive outcome (A : Type) : Type :=
| Returns (a : A)
| Raises (e : exn)
| OutOfFuel.

Arguments Returns {A} a.
Arguments Raises {A} e.
Arguments OutOfFuel {A}.

Definition bind {A B : Type} (m : outcome A) (k : A -> outcome B) : outcome B :=
  match m with
  | Returns a => k a
  | Raises e => Raises e
  | OutOfFuel => OutOfFuel
  end.

Notation "'do' x <- m ; k" := (bind m (fun x => k))
  (at level 10, x pattern, m at level 100, k at level 200).

(** [d[k]] on a Python dict. *)
Definition dict_get {A : Type} (d : gmap string A) (k : string) : outcome A :=
  match d !! k with
  | Some v => Returns v
  | None => Raises (KeyError k)
  end.

(** [l.index(x)]: first position of [x]. *)
Fixpoint list_index (x : string) (l : list string) : option nat :=
  match l with
  | [] => None
  | y :: l' => if decide (y = x) then Some O else S <$> list_index x l'
  end.

(** ** dependency_graph.py *)

Module DepGraph.

Record DependencyGraph : Type := mkGraph {
  graph : gmap string (list string);          (* node -> [dependent nodes] *)
  reverse_graph : gmap string (list string);  (* node -> [dependency nodes] *)
  nodes : gset string
}.

Definition empty_graph : DependencyGraph := mkGraph ∅ ∅ ∅.

Definition add_node (g : DependencyGraph) (node : string) : DependencyGraph :=
  if decide (node ∈ nodes g) then g
  else mkGraph (<[node := []]> (graph g)) (<[node := []]> (reverse_graph g))
               ({[node]} ∪ nodes g).

Definition add_dependency (g : DependencyGraph) (node depends_on : string)
  : outcome DependencyGraph :=
  let g1 := add_node (add_node g node) depends_on in
  do out <- dict_get (graph g1) depends_on;
  let graph' := if decide (node ∈ out) then graph g1
                else <[depends_on := out ++ [node]]> (graph g1) in
  do inc <- dict_get (reverse_graph g1) node;
  let reverse' := if decide (depends_on ∈ inc) then reverse_graph g1
                  else <[node := inc ++ [depends_on]]> (reverse_graph g1) in
  Returns (mkGraph graph' reverse' (nodes g1)).

(** [self.reverse_graph.get(node, [])] *)
Definition get_dependencies (g : DependencyGraph) (node : string) : list string :=
  default [] (reverse_graph g !! node).

Definition get_dependents (g : DependencyGraph) (node : string) : list string :=
  default [] (graph g !! node).

Section Algorithms.

(** Iterating a Python [set] visits its elements once each, in an order the
    language leaves unspecified; [set_iter] is that enumeration. *)
Variable set_iter : gset string -> list string.

Variable g : DependencyGraph.

(** [{node: len(self.reverse_graph[node]) for node in self.nodes}] *)
Fixpoint in_degree_of (ns : list string) (acc : gmap string Z)
  : outcome (gmap string Z) :=
  match ns with
  | [] => Returns acc
  | node :: ns' =>
      do deps <- dict_get (reverse_graph g) node;
      in_degree_of ns' (<[node := Z.of_nat (length deps)]> acc)
  end.

(** The [for dependent in self.graph[node]] loop of Kahn's algorithm. *)
Fixpoint relax (dependents : list string) (in_degree : gmap string Z)
    (queue : list string) : outcome (gmap string Z * list string) :=
  match dependents with
  | [] => Returns (in_degree, queue)
  | dependent :: rest =>
      do z <- dict_get in_degree dependent;
      let in_degree' := <[dependent := z - 1]> in_degree in
      let queue' := if decide (z - 1 = 0) then queue ++ [dependent] else queue in
      relax rest in_degree' queue'
  end.

(** [while queue: ...] *)
Fixpoint kahn_loop (fuel : nat) (in_degree : gmap string Z)
    (queue ordered : list string) {struct fuel}
  : outcome (gmap string Z * list string) :=
  match queue with
  | [] => Returns (in_degree, ordered)
  | node :: queue' =>
      match fuel with
      | O => OutOfFuel
      | S fuel' =>
          do dependents <- dict_get (graph g) node;
          do st <- relax dependents in_degree queue';
          kahn_loop fuel' (fst st) (snd st) (ordered ++ [node])
      end
  end.

Inductive walk_exit : Type :=
| Found (cycle : list string)
| DeadEnd (path : list string).

(** The [while True] loop of [_find_cycle_path]. *)
Fixpoint cycle_walk (fuel : nat) (nodes_in_cycle path : list string)
    (visited : gset string) (current : string) : outcome walk_exit :=
  match fuel with
  | O => OutOfFuel
  | S fuel' =>
      do deps <- dict_get (reverse_graph g) current;
      match filter (fun dep => dep ∈ nodes_in_cycle) deps with
      | [] => Returns (DeadEnd path)
      | next_node :: _ =>
          if decide (next_node ∈ visited) then
            match list_index next_node path with
            | Some cycle_start => Returns (Found (drop cycle_start path ++ [next_node]))
            | None => Raises (ValueError "is not in list"%string)
            end
          else
            let path' := path ++ [next_node] in
            if decide (length nodes_in_cycle * 2 < length path')%nat
            then Returns (Found (take 10 path'))
            else cycle_walk fuel' nodes_in_cycle path' ({[next_node]} ∪ visited) next_node
      end
  end.

Fixpoint _find_cycle_path (nodes_in_cycle : list string) : outcome (list string) :=
  match nodes_in_cycle with
  | [] => Returns []
  | start :: rest =>
      match cycle_walk (S (length nodes_in_cycle * 2)) nodes_in_cycle
                       [start] {[start]} start with
      | Returns (Found cycle) => Returns cycle
      | Returns (DeadEnd path) =>
          if decide (1 < length nodes_in_cycle)%nat then _find_cycle_path rest
          else Returns path
      | Raises e => Raises e
      | OutOfFuel => OutOfFuel
      end
  end.

Definition positive_degree (in_degree : gmap string Z) (node : string) : bool :=
  match in_degree !! node with
  | Some z => bool_decide (0 < z)
  | None => false
  end.

Definition get_ordered_resources : outcome (list string) :=
  let ns := set_iter (nodes g) in
  do in_degree <- in_degree_of ns ∅;
  let queue := filter (fun node => in_degree !! node = Some 0) ns in
  do st <- kahn_loop (length ns) in_degree queue [];
  let remaining := filter (fun node => positive_degree (fst st) node = true) ns in
  match remaining with
  | [] => Returns (snd st)
  | _ :: _ =>
      do cycle_path <- _find_cycle_path remaining;
      Raises (CyclicDependencyError cycle_path)
  end.

Definition has_cycle : outcome bool :=
  match get_ordered_resources with
  | Returns _ => Returns false
  | Raises (CyclicDependencyError _) => Returns true
  | Raises e => Raises e
  | OutOfFuel => OutOfFuel
  end.

(** [resource not in deployed and all(dep in deployed for dep in dependencies)] *)
Definition ready (deployed : gset string) (resource : string) : Prop :=
  (resource ∉ deployed) ∧
  Forall (fun dep => dep ∈ deployed) (get_dependencies g resource).

Local Instance ready_dec deployed resource : Decision (ready deployed resource).
Proof. unfold ready. apply _. Defined.

(** [while len(deployed) < len(ordered): ...] *)
Fixpoint batch_loop (fuel : nat) (ordered : list string)
    (batches : list (list string)) (deployed : gset string)
  : outcome (list (list string)) :=
  if decide (size deployed < length ordered)%nat then
    match fuel with
    | O => OutOfFuel
    | S fuel' =>
        let batch := filter (ready deployed) ordered in
        match batch with
        | [] => Raises (RuntimeError "Unable to form deployment batch"%string)
        | _ :: _ => batch_loop fuel' ordered (batches ++ [batch])
                               (deployed ∪ list_to_set batch)
        end
    end
  else Returns batches.

Definition get_deployment_batches : outcome (list (list string)) :=
  do ordered <- get_ordered_resources;
  batch_loop (length ordered) ordered [] ∅.

Definition get_cycle_path : outcome (list string) :=
  match get_ordered_resources with
  | Returns _ => Returns []
  | Raises (CyclicDependencyError cycle_path) => Returns cycle_path
  | Raises e => Raises e
  | OutOfFuel => OutOfFuel
  end.

End Algorithms.

(** [self.graph.clear(); self.reverse_graph.clear(); self.nodes.clear()] *)
Definition clear (g : DependencyGraph) : DependencyGraph := empty_graph.

(** [node] depends on [dep]: [dep in self.reverse_graph[node]]. *)
Definition depends_on (g : DependencyGraph) (node dep : string) : Prop :=
  dep ∈ get_dependencies g node.

(** The graph has no dependency cycle. *)
Definition acyclic (g : DependencyGraph) : Prop :=
  ∀ node, ¬ tc (depends_on g) node node.

(** The representation invariant that [add_node] and [add_dependency]
    maintain: both adjacency dicts are keyed by exactly the nodes, they mirror
    each other, and no adjacency list repeats an entry. *)
Record wf (g : DependencyGraph) : Prop := mkWf {
  wf_graph_dom : ∀ n, is_Some (graph g !! n) ↔ n ∈ nodes g;
  wf_reverse_dom : ∀ n, is_Some (reverse_graph g !! n) ↔ n ∈ nodes g;
  wf_mirror : ∀ n d, n ∈ get_dependents g d ↔ d ∈ get_dependencies g n;
  wf_graph_nodup : ∀ n, NoDup (get_dependents g n);
  wf_reverse_nodup : ∀ n, NoDup (get_dependencies g n)
}.

(** [deps] come before their dependents in [l]. *)
Definition topological (g : DependencyGraph) (l : list string) : Prop :=
  ∀ i node dep, l !! i = Some node → depends_on g node dep →
    ∃ j, (j < i)%nat ∧ l !! j = Some dep.

End DepGraph.

(** ** retry_policies.py: exponential backoff *)

Module Backoff.
Local Open Scope Q_scope.

Record ExponentialBackoff : Type := mkBackoff {
  base_delay : Q;
  max_delay : Q;
  max_attempts : Z;
  jitter : bool
}.

(** [random.uniform(a, b)] is [a + (b - a) * random()], where the draw
    [random()] lies in [0, 1); the draw is an argument of the model. *)
Definition uniform (a b draw : Q) : Q := a + (b - a) * draw.

(** [base_delay * (2 ** attempt)] for the float [base_delay] that the
    constructor declares: [2 ** attempt] is an exact integer for
    [attempt >= 0], and Python converts it to a float before it multiplies;
    from [2 ** 1024] on the integer does not fit a float and the conversion
    raises [OverflowError].  A negative [attempt] gives a float power. *)
Definition float_times_power (x : Q) (attempt : Z) : Q + exn :=
  if decide (1024 ≤ attempt)%Z
  then inr (OverflowError "int too large to convert to float")
  else inl (x * 2 ^ attempt).

(** Python floats are idealised as exact rationals: rounding is left out, the
    overflow of the conversion above is not. *)
Definition get_delay (p : ExponentialBackoff) (attempt : Z) (draw : Q)
  : Q + exn :=
  match float_times_power (base_delay p) attempt with
  | inr e => inr e
  | inl delay =>
      let delay := Qmin delay (max_delay p) in
      let delay :=
        if jitter p then
          let jitter_amount := delay * (1 # 4) in
          delay + uniform (- jitter_amount) jitter_amount draw
        else delay in
      inl (Qmax 0 delay)
  end.

(** The capped exponential [min(base_delay * 2^attempt, max_delay)]. *)
Definition capped (p : ExponentialBackoff) (attempt : Z) : Q :=
  Qmin (base_delay p * 2 ^ attempt) (max_delay p).

(** What [execute_sync] and [execute_async] raise: once the attempts are
    used up [RetryExhaustedError(attempts, last_error)], or the [RuntimeError]
    for a loop that never ran; and an exception that [get_delay] raises inside
    the [except] block, which leaves the method as it is. *)
Inductive retry_error : Type :=
| RetryExhaustedError (attempts : Z) (last_error : exn)
| NoErrorCaptured
| RaisedInHandler (e : exn).

Section Execute.

Variable World : Type.
Variable T : Type.
(** [draw attempt] is the random draw of the sleep that follows [attempt]. *)
Variable draw : Z → Q.

(** [for attempt in range(self.max_attempts)]: [remaining] rounds are left,
    [slept] lists the delays passed to [sleep] so far. *)
Fixpoint retry_loop (p : ExponentialBackoff) (func : World → (T + exn) * World)
    (remaining : nat) (attempt : Z) (last_error : option exn) (slept : list Q)
    (w : World) : (T + retry_error) * list Q * World :=
  match remaining with
  | O =>
      match last_error with
      | None => (inr NoErrorCaptured, slept, w)
      | Some e => (inr (RetryExhaustedError (max_attempts p) e), slept, w)
      end
  | S remaining' =>
      match func w with
      | (inl result, w') => (inl result, slept, w')
      | (inr e, w') =>
          if decide (attempt < max_attempts p - 1)%Z then
            match get_delay p attempt (draw attempt) with
            | inl delay =>
                retry_loop p func remaining' (attempt + 1)%Z (Some e)
                           (slept ++ [delay]) w'
            | inr e' => (inr (RaisedInHandler e'), slept, w')
            end
          else retry_loop p func remaining' (attempt + 1)%Z (Some e) slept w'
      end
  end.

Definition execute_sync (p : ExponentialBackoff)
    (func : World → (T + exn) * World) (w : World)
  : (T + retry_error) * list Q * World :=
  retry_loop p func (Z.to_nat (max_attempts p)) 0%Z None [] w.

(** The world after [i] invocations of [func]. *)
Definition world_after (func : World → (T + exn) * World) (w : World) (i : nat)
  : World :=
  Nat.iter i (λ w, snd (func w)) w.

End Execute.

End Backoff.

(** ** retry_policies.py: circuit breaker *)

Module Breaker.

Inductive CircuitState : Type := CLOSED | OPEN | HALF_OPEN.

Record CircuitBreaker : Type := mkBreaker {
  failure_threshold : Z;
  recovery_timeout : Q;
  success_threshold : Z;
  state : CircuitState;
  failure_count : Z;
  success_count : Z;
  last_failure_time : option Q
}.

(** [CircuitBreaker(failure_threshold, recovery_timeout, success_threshold)] *)
Definition new (failure_threshold : Z) (recovery_timeout : Q)
    (success_threshold : Z) : CircuitBreaker :=
  mkBreaker failure_threshold recovery_timeout success_threshold CLOSED 0 0 None.

Definition set_state (b : CircuitBreaker) (s : CircuitState) : CircuitBreaker :=
  mkBreaker (failure_threshold b) (recovery_timeout b) (success_threshold b)
            s (failure_count b) (success_count b) (last_failure_time b).

Definition set_failure_count (b : CircuitBreaker) (n : Z) : CircuitBreaker :=
  mkBreaker (failure_threshold b) (recovery_timeout b) (success_threshold b)
            (state b) n (success_count b) (last_failure_time b).

Definition set_success_count (b : CircuitBreaker) (n : Z) : CircuitBreaker :=
  mkBreaker (failure_threshold b) (recovery_timeout b) (success_threshold b)
            (state b) (failure_count b) n (last_failure_time b).

Definition set_last_failure_time (b : CircuitBreaker) (t : option Q)
  : CircuitBreaker :=
  mkBreaker (failure_threshold b) (recovery_timeout b) (success_threshold b)
            (state b) (failure_count b) (success_count b) t.

Definition _on_success (b : CircuitBreaker) : CircuitBreaker :=
  match state b with
  | HALF_OPEN =>
      let b := set_success_count b (success_count b + 1) in
      if decide (success_threshold b ≤ success_count b) then
        set_success_count (set_failure_count (set_state b CLOSED) 0) 0
      else b
  | CLOSED => set_failure_count b 0
  | OPEN => b
  end.

(** [now] is the value [time.time()] returns inside the handler. *)
Definition _on_failure (b : CircuitBreaker) (now : Q) : CircuitBreaker :=
  let b := set_failure_count b (failure_count b + 1) in
  let b := set_last_failure_time b (Some now) in
  match state b with
  | HALF_OPEN => set_success_count (set_state b OPEN) 0
  | CLOSED =>
      if decide (failure_threshold b ≤ failure_count b) then set_state b OPEN
      else b
  | OPEN => b
  end.

Definition reset (b : CircuitBreaker) : CircuitBreaker :=
  mkBreaker (failure_threshold b) (recovery_timeout b) (success_threshold b)
            CLOSED 0 0 None.

Section Call.

(** The world outside the breaker: the guarded function may change it, and
    [time.time()] reads its clock. *)
Variable World : Type.
Variable clock : World → Q.
Variable T : Type.

(** The guarded function applied to its arguments: returns a value or raises. *)
Definition guarded : Type := World → (T + exn) * World.

(** The [try: ... except Exception: ...] block of [call]. *)
Definition execute (b : CircuitBreaker) (func : guarded) (w : World)
  : (T + exn) * CircuitBreaker * World :=
  match func w with
  | (inl result, w') => (inl result, _on_success b, w')
  | (inr e, w') => (inr e, _on_failure b (clock w'), w')
  end.

(** A Python float is falsy exactly when it is zero. *)
Definition truthy (t : option Q) : bool :=
  match t with
  | Some t => negb (Qeq_bool t 0)
  | None => false
  end.

Definition call (b : CircuitBreaker) (func : guarded) (w : World)
  : (T + exn) * CircuitBreaker * World :=
  match state b with
  | OPEN =>
      if truthy (last_failure_time b) then
        let elapsed := (clock w - default 0%Q (last_failure_time b))%Q in
        if Qle_bool (recovery_timeout b) elapsed then
          execute (set_success_count (set_state b HALF_OPEN) 0) func w
        else (inr CircuitBreakerError, b, w)
      else execute b func w
  | _ => execute b func w
  end.

(** A sequence of calls, one after the other. *)
Fixpoint calls (b : CircuitBreaker) (funcs : list guarded) (w : World)
  : CircuitBreaker * World :=
  match funcs with
  | [] => (b, w)
  | func :: rest =>
      let '(_, b', w') := call b func w in calls b' rest w'
  end.

Definition fails (func : guarded) : Prop :=
  ∀ w, ∃ e w', func w = (inr e, w').

Definition succeeds (func : guarded) : Prop :=
  ∀ w, ∃ v w', func w = (inl v, w').

End Call.

End Breaker.

(** ** endpoint_tester.py (data only) and fix_orchestrator.py *)

Module TestStatus.
Inductive t : Type := SUCCESS | FAILURE | TIMEOUT | AUTH_ERROR | SERVER_ERROR | SKIPPED.
#[global] Instance eq_dec : EqDecision t.
Proof. solve_decision. Defined.
End TestStatus.

Module ErrorCategory.
Inductive t : Type :=
| TIMEOUT | AUTH_ERROR | SERVER_ERROR | TEMPLATE_ISSUE
| DEPENDENCY_ISSUE | CONFIGURATION_ISSUE | NETWORK_ISSUE | UNKNOWN.
#[global] Instance eq_dec : EqDecision t.
Proof. solve_decision. Defined.
Definition value (c : t) : string :=
  match c with
  | TIMEOUT => "timeout" | AUTH_ERROR => "auth_error"
  | SERVER_ERROR => "server_error" | TEMPLATE_ISSUE => "template_issue"
  | DEPENDENCY_ISSUE => "dependency_issue"
  | CONFIGURATION_ISSUE => "configuration_issue"
  | NETWORK_ISSUE => "network_issue" | UNKNOWN => "unknown"
  end.
End ErrorCategory.

Module FixStrategy.
Inductive t : Type :=
| RETRY | UPDATE_TEMPLATE | UPDATE_DEPENDENCIES | RECONFIGURE | MANUAL_INTERVENTION.
#[global] Instance eq_dec : EqDecision t.
Proof. solve_decision. Defined.
End FixStrategy.

Module Fix.

Record Endpoint : Type := mkEndpoint { method : string; path : string }.

Record TestResult : Type := mkTestResult {
  endpoint : Endpoint;
  status : TestStatus.t;
  status_code : option Z;
  result_error_message : option string
}.

Record FixAttempt : Type := mkFixAttempt {
  error_category : ErrorCategory.t;
  fix_strategy : FixStrategy.t;
  description : string;
  success : bool;
  error_message : option string
}.

Record FixOrchestrator : Type := mkOrchestrator {
  max_fix_attempts : Z;
  enable_template_fixes : bool;
  fix_attempts : list FixAttempt;
  circuit_breaker_open : bool
}.

(** [FixOrchestrator(project_root, max_fix_attempts, enable_template_fixes)] *)
Definition new (max_fix_attempts : Z) (enable_template_fixes : bool)
  : FixOrchestrator :=
  mkOrchestrator max_fix_attempts enable_template_fixes [] false.

(** *** Strings *)

(** [str.lower()].  A character of a message is a code point below 256:
    there the upper-case letters are A to Z and the Latin-1 letters U+00C0 to
    U+00DE without the multiplication sign U+00D7, each 32 below its
    lower-case form.  Text with other characters is not represented. *)
Definition lower_ascii (c : ascii) : ascii :=
  let n := nat_of_ascii c in
  if ((65 <=? n)%nat && (n <=? 90)%nat)
     || ((192 <=? n)%nat && (n <=? 222)%nat && negb (n =? 215)%nat)
  then ascii_of_nat (n + 32) else c.

Fixpoint lower (s : string) : string :=
  match s with
  | EmptyString => EmptyString
  | String c s' => String (lower_ascii c) (lower s')
  end.

(** [needle in hay] *)
Fixpoint contains (needle hay : string) : bool :=
  String.prefix needle hay ||
  match hay with
  | EmptyString => false
  | String _ hay' => contains needle hay'
  end.

(** How an f-string prints an [Optional] value. *)
Definition str_opt_int (o : option Z) : string :=
  match o with Some z => pretty z | None => "None" end.

Definition str_opt (o : option string) : string :=
  match o with Some s => s | None => "None" end.

(** *** Classification *)

(** [classifications.setdefault(category, []).append(message)] on a dict,
    which keeps its keys in insertion order. *)
Fixpoint setdefault_append (d : list (ErrorCategory.t * list string))
    (category : ErrorCategory.t) (message : string)
  : list (ErrorCategory.t * list string) :=
  match d with
  | [] => [(category, [message])]
  | (c, ms) :: d' =>
      if decide (c = category) then (c, ms ++ [message]) :: d'
      else (c, ms) :: setdefault_append d' category message
  end.

Definition any_keyword (keywords : list string) (error_lower : string) : bool :=
  existsb (λ keyword, contains keyword error_lower) keywords.

Definition _classify_deployment_error (error_message : string) : ErrorCategory.t :=
  let error_lower := lower error_message in
  if any_keyword ["template"; "bicep"; "syntax"; "validation"; "schema"] error_lower
  then ErrorCategory.TEMPLATE_ISSUE
  else if any_keyword ["dependency"; "resource not found"; "does not exist"] error_lower
  then ErrorCategory.DEPENDENCY_ISSUE
  else if any_keyword ["configuration"; "setting"; "parameter"; "invalid value"] error_lower
  then ErrorCategory.CONFIGURATION_ISSUE
  else if any_keyword ["network"; "timeout"; "connection"; "unreachable"] error_lower
  then ErrorCategory.NETWORK_ISSUE
  else if any_keyword ["auth"; "permission"; "forbidden"; "unauthorized"] error_lower
  then ErrorCategory.AUTH_ERROR
  else ErrorCategory.UNKNOWN.

Definition where_ (result : TestResult) : string :=
  method (endpoint result) +:+ " " +:+ path (endpoint result).

(** One round of the [for result in test_results] loop. *)
Definition classify_result (d : list (ErrorCategory.t * list string))
    (result : TestResult) : list (ErrorCategory.t * list string) :=
  match status result with
  | TestStatus.TIMEOUT =>
      setdefault_append d ErrorCategory.TIMEOUT
        ("Endpoint timeout: " +:+ where_ result)
  | TestStatus.AUTH_ERROR =>
      setdefault_append d ErrorCategory.AUTH_ERROR
        ("Authentication error: " +:+ where_ result)
  | TestStatus.SERVER_ERROR =>
      setdefault_append d ErrorCategory.SERVER_ERROR
        ("Server error (" +:+ str_opt_int (status_code result) +:+ "): "
         +:+ where_ result)
  | TestStatus.FAILURE =>
      setdefault_append d ErrorCategory.UNKNOWN
        ("Test failure: " +:+ where_ result +:+ " - "
         +:+ str_opt (result_error_message result))
  | TestStatus.SUCCESS | TestStatus.SKIPPED => d
  end.

Definition _classify_errors (test_results : list TestResult)
    (deployment_errors : option (list string))
  : list (ErrorCategory.t * list string) :=
  let classifications := foldl classify_result [] test_results in
  match deployment_errors with
  | Some (e :: es) =>
      foldl (λ d error, setdefault_append d (_classify_deployment_error error) error)
            classifications (e :: es)
  | Some [] | None => classifications
  end.

Definition _select_fix_strategy (category : ErrorCategory.t) : FixStrategy.t :=
  match category with
  | ErrorCategory.TIMEOUT => FixStrategy.RETRY
  | ErrorCategory.AUTH_ERROR => FixStrategy.RECONFIGURE
  | ErrorCategory.SERVER_ERROR => FixStrategy.UPDATE_TEMPLATE
  | ErrorCategory.TEMPLATE_ISSUE => FixStrategy.UPDATE_TEMPLATE
  | ErrorCategory.DEPENDENCY_ISSUE => FixStrategy.UPDATE_DEPENDENCIES
  | ErrorCategory.CONFIGURATION_ISSUE => FixStrategy.RECONFIGURE
  | ErrorCategory.NETWORK_ISSUE => FixStrategy.RETRY
  | ErrorCategory.UNKNOWN => FixStrategy.MANUAL_INTERVENTION
  end.

(** *** Strategies *)

(** What [subprocess.run(["specify", "bicep", "--issue", ...], timeout=300)]
    can do. *)
Inductive subprocess_result : Type :=
| Completed (returncode : Z)
| TimeoutExpired
| FileNotFoundError
| OtherException.

Section Dispatch.

(** The world outside the orchestrator, changed by running the external
    template-fix tool. *)
Variable World : Type.
Variable subprocess_run : string → World → subprocess_result * World.

Definition fix_template_issue (issue_description : string) (w : World)
  : bool * World :=
  match subprocess_run issue_description w with
  | (Completed returncode, w') => (bool_decide (returncode = 0), w')
  | (TimeoutExpired, w') => (false, w')
  | (FileNotFoundError, w') => (true, w')
  | (OtherException, w') => (false, w')
  end.

Definition _fix_template_issues (o : FixOrchestrator)
    (error_messages : list string) (w : World) : bool * World :=
  if enable_template_fixes o
  then fix_template_issue (String.concat " | " error_messages) w
  else (false, w).

Definition _fix_dependency_issues (error_messages : list string) : bool := false.

Definition _fix_configuration_issues (error_messages : list string) : bool := false.

(** One round of the [for category, messages in ...items()] loop. *)
Definition dispatch_one (acc : bool * FixOrchestrator * World)
    (entry : ErrorCategory.t * list string) : bool * FixOrchestrator * World :=
  let '(all_fixes_successful, o, w) := acc in
  let '(category, messages) := entry in
  let strategy := _select_fix_strategy category in
  let '(success, w') :=
    match strategy with
    | FixStrategy.UPDATE_TEMPLATE => _fix_template_issues o messages w
    | FixStrategy.UPDATE_DEPENDENCIES => (_fix_dependency_issues messages, w)
    | FixStrategy.RECONFIGURE => (_fix_configuration_issues messages, w)
    | FixStrategy.RETRY => (true, w)
    | FixStrategy.MANUAL_INTERVENTION => (false, w)
    end in
  let fix_attempt :=
    mkFixAttempt category strategy
      ("Fixed " +:+ pretty (Z.of_nat (length messages)) +:+ " "
       +:+ ErrorCategory.value category +:+ " error(s)")
      success (if success then None else Some "Fix failed") in
  (all_fixes_successful && success,
   mkOrchestrator (max_fix_attempts o) (enable_template_fixes o)
                  (fix_attempts o ++ [fix_attempt]) (circuit_breaker_open o),
   w').

Definition _dispatch_fixes (o : FixOrchestrator)
    (error_classifications : list (ErrorCategory.t * list string)) (w : World)
  : bool * FixOrchestrator * World :=
  foldl dispatch_one (true, o, w) error_classifications.

Definition attempt_fix (o : FixOrchestrator) (test_results : list TestResult)
    (deployment_errors : option (list string)) (w : World)
  : bool * FixOrchestrator * World :=
  if circuit_breaker_open o then (false, o, w)
  else if decide (max_fix_attempts o ≤ Z.of_nat (length (fix_attempts o))) then
    (false,
     mkOrchestrator (max_fix_attempts o) (enable_template_fixes o)
                    (fix_attempts o) true,
     w)
  else
    let error_classifications := _classify_errors test_results deployment_errors in
    match error_classifications with
    | [] => (true, o, w)
    | _ :: _ => _dispatch_fixes o error_classifications w
    end.

(** Calls of [attempt_fix] one after the other; the results come in call
    order. *)
Fixpoint attempt_fixes (o : FixOrchestrator)
    (inputs : list (list TestResult * option (list string))) (w : World)
  : list bool * FixOrchestrator * World :=
  match inputs with
  | [] => ([], o, w)
  | (test_results, deployment_errors) :: rest =>
      let '(r, o', w') := attempt_fix o test_results deployment_errors w in
      let '(rs, o'', w'') := attempt_fixes o' rest w' in
      (r :: rs, o'', w'')
  end.

End Dispatch.

Definition reset_circuit_breaker (o : FixOrchestrator) : FixOrchestrator :=
  mkOrchestrator (max_fix_attempts o) (enable_template_fixes o) [] false.

(** The summary fields the session reads. *)
Definition total_attempts (o : FixOrchestrator) : Z :=
  Z.of_nat (length (fix_attempts o)).

Definition successful_fixes (o : FixOrchestrator) : Z :=
  Z.of_nat (length (filter (λ a, success a = true) (fix_attempts o))).

(** [sum(1 for a in self.fix_attempts if not a.success)] of
    [get_fix_summary]. *)
Definition failed_fixes (o : FixOrchestrator) : Z :=
  Z.of_nat (length (filter (λ a, success a = false) (fix_attempts o))).

(** Both tests under the source's [# Check circuit breaker] comment pass. *)
Definition breaker_closed (o : FixOrchestrator) : Prop :=
  circuit_breaker_open o = false ∧
  Z.of_nat (length (fix_attempts o)) < max_fix_attempts o.

End Fix.

(** ** resource_deployer_simple.py *)

Module Deployer.
Import DepGraph.

Inductive DeploymentState : Type :=
| PENDING | VALIDATING | DEPLOYING | DEPLOYED | FAILED.

Record ResourceDeployment : Type := mkDeployment {
  resource_id : string;
  resource_type : string;
  resource_name : string;
  deployment_order : Z;
  deployment_status : DeploymentState;
  bicep_template_path : string;
  output_values : list (string * string)
}.

(** The uuid, timestamp and duration fields come from the clock and the random
    generator and are left out. *)
Record DeploymentResult : Type := mkResult {
  success : bool;
  deployed_resources : list ResourceDeployment;
  resource_group : string;
  subscription_id : string;
  deployment_outputs : list (string * string);
  error_messages : list string
}.

(** Calls made through [self.cli], tagged with the resource id of the
    deployment they are made for. *)
Inductive cli_call : Type :=
| GetResource (resource_id : string)
| ValidateTemplate (resource_id : string)
| DeployTemplate (resource_id : string)
| DeleteResource (resource_id : string).

#[global] Instance cli_call_eq_dec : EqDecision cli_call.
Proof. solve_decision. Defined.

Record validation_reply : Type := mkValidation {
  valid : bool;
  error : option string
}.

(** [dict[key] = value] on a dict that keeps insertion order. *)
Fixpoint dict_set (d : list (string * string)) (key value : string)
  : list (string * string) :=
  match d with
  | [] => [(key, value)]
  | (k, v) :: d' =>
      if decide (k = key) then (k, value) :: d'
      else (k, v) :: dict_set d' key value
  end.

(** [d.update(other)] *)
Definition dict_update (d other : list (string * string)) : list (string * string) :=
  foldl (λ d kv, dict_set d kv.1 kv.2) d other.

(** A stable sort by key, as [sorted(..., key=...)] is. *)
Fixpoint insert_by {A} (key : A → nat) (x : A) (l : list A) : list A :=
  match l with
  | [] => [x]
  | y :: l' => if (key x <=? key y)%nat then x :: y :: l' else y :: insert_by key x l'
  end.

Definition sorted {A} (key : A → nat) (l : list A) : list A :=
  foldr (insert_by key) [] l.

Record Config : Type := mkConfig {
  cfg_resource_group : string;
  cfg_subscription_id : option string;
  force_redeploy : bool;
  enable_rollback : bool;
  (** [self._retry_policy.max_attempts], 3 in the source *)
  max_attempts : nat
}.

Section Deploy.

(** The provisioning backend behind [AzureCLIWrapper]: each call changes the
    outside world and returns a reply or raises. *)
Variable World : Type.
Variable get_resource : string → World → (option string + exn) * World.
Variable validate_template :
  ResourceDeployment → World → (validation_reply + exn) * World.
Variable deploy_template :
  ResourceDeployment → World → (option (list (string * string)) + exn) * World.
Variable delete_resource : string → World → (unit + exn) * World.

Variable set_iter : gset string → list string.
Variable cfg : Config.

Record State : Type := mkState {
  world : World;
  trace : list cli_call;
  _deployed_resources : list ResourceDeployment
}.

Definition cli {R} (call : cli_call) (op : World → (R + exn) * World) (st : State)
  : (R + exn) * State :=
  let '(r, w') := op (world st) in
  (r, mkState w' (trace st ++ [call]) (_deployed_resources st)).

Definition _check_resource_exists (deployment : ResourceDeployment) (st : State)
  : bool * State :=
  match cli (GetResource (resource_id deployment))
            (get_resource (resource_id deployment)) st with
  | (inl result, st') => (bool_decide (result ≠ None), st')
  | (inr _, st') => (false, st')
  end.

(** [for attempt in range(max_attempts)] around template validation;
    [remaining] counts the attempts left, the sleeps between attempts are not
    modelled.  [inl tt]: the loop was left normally; [inr e]: it raised. *)
Fixpoint validate_loop (remaining : nat) (deployment : ResourceDeployment)
    (st : State) : (unit + exn) * State :=
  match remaining with
  | O => (inl tt, st)
  | S remaining' =>
      let '(r, st') := cli (ValidateTemplate (resource_id deployment))
                           (validate_template deployment) st in
      let failure :=
        match r with
        | inl reply =>
            if valid reply then None
            else Some (ValidationError "Template validation failed")
        | inr e => Some e
        end in
      match failure with
      | None => (inl tt, st')
      | Some e =>
          match remaining' with
          | O => (inr e, st')
          | S _ => validate_loop remaining' deployment st'
          end
      end
  end.

Definition set_output_values (deployment : ResourceDeployment)
    (outputs : list (string * string)) : ResourceDeployment :=
  mkDeployment (resource_id deployment) (resource_type deployment)
               (resource_name deployment) (deployment_order deployment)
               (deployment_status deployment) (bicep_template_path deployment)
               outputs.

(** The deployment loop.  [Some (inl d')]: returned [True] with the updated
    deployment; [Some (inr e)]: raised; [None]: the range was empty. *)
Fixpoint deploy_loop (remaining : nat) (deployment : ResourceDeployment)
    (st : State) : option (ResourceDeployment + exn) * State :=
  match remaining with
  | O => (None, st)
  | S remaining' =>
      match cli (DeployTemplate (resource_id deployment))
                (deploy_template deployment) st with
      | (inl deploy_result, st') =>
          let deployment' :=
            match deploy_result with
            | Some outputs =>
                set_output_values deployment
                  (dict_update (output_values deployment) outputs)
            | None => deployment
            end in
          (Some (inl deployment'),
           mkState (world st') (trace st')
                   (_deployed_resources st' ++ [deployment']))
      | (inr e, st') =>
          match remaining' with
          | O => (Some (inr e), st')
          | S _ => deploy_loop remaining' deployment st'
          end
      end
  end.

(** Returns the result and the deployment as the call left it. *)
Definition _deploy_single (deployment : ResourceDeployment) (st : State)
  : bool * ResourceDeployment * State :=
  let '(exists_, st1) :=
    if force_redeploy cfg then (false, st)
    else _check_resource_exists deployment st in
  if exists_ then
    (true, deployment,
     mkState (world st1) (trace st1) (_deployed_resources st1 ++ [deployment]))
  else
    match validate_loop (max_attempts cfg) deployment st1 with
    | (inr _, st2) => (false, deployment, st2)
    | (inl _, st2) =>
        match deploy_loop (max_attempts cfg) deployment st2 with
        | (Some (inl deployment'), st3) => (true, deployment', st3)
        | (Some (inr _), st3) => (false, deployment, st3)
        | (None, st3) => (false, deployment, st3)
        end
    end.

(** [_deploy_with_progress] and [_deploy_without_progress] differ only in
    what they print. *)
Fixpoint deploy_all (deployments : list ResourceDeployment)
    (deployed : list ResourceDeployment) (outputs : list (string * string))
    (errors : list string) (st : State)
  : list ResourceDeployment * list (string * string) * list string * State :=
  match deployments with
  | [] => (deployed, outputs, errors, st)
  | deployment :: rest =>
      let '(result, deployment', st') := _deploy_single deployment st in
      if result then
        let outputs' :=
          foldl (λ o kv, dict_set o (resource_id deployment' +:+ "/" +:+ kv.1) kv.2)
                outputs (output_values deployment') in
        deploy_all rest (deployed ++ [deployment']) outputs' errors st'
      else
        deploy_all rest deployed outputs
          (errors ++ ["Deployment failed for " +:+ resource_name deployment]) st'
  end.

Definition _rollback_deployments (deployed : list ResourceDeployment) (st : State)
  : State :=
  foldl (λ st deployment,
           snd (cli (DeleteResource (resource_id deployment))
                    (delete_resource (resource_id deployment)) st))
        st (reverse deployed).

(** [ordered_ids.index(d.resource_id) if d.resource_id in ordered_ids else 999] *)
Definition order_key (ordered_ids : list string) (d : ResourceDeployment) : nat :=
  default 999%nat (list_index (resource_id d) ordered_ids).

(** The cycle check and the ordering at the head of [deploy_resources]. *)
Definition order_deployments (deployments : list ResourceDeployment)
    (dependency_graph : option DependencyGraph)
  : outcome (list ResourceDeployment) :=
  match dependency_graph with
  | None => Returns deployments
  | Some g =>
      match has_cycle set_iter g with
      | Returns true =>
          Raises (ValidationError "Circular dependency detected in resource graph")
      | Returns false =>
          match get_ordered_resources set_iter g with
          | Returns ordered_ids => Returns (sorted (order_key ordered_ids) deployments)
          | Raises _ => Returns deployments
          | OutOfFuel => OutOfFuel
          end
      | Raises e => Raises e
      | OutOfFuel => OutOfFuel
      end
  end.

Definition deploy_resources (deployments : list ResourceDeployment)
    (dependency_graph : option DependencyGraph) (st : State)
  : outcome DeploymentResult * State :=
  match order_deployments deployments dependency_graph with
  | Returns deployments =>
      let '(deployed, outputs, errors, st1) := deploy_all deployments [] [] [] st in
      let success :=
        bool_decide (length errors = 0%nat) && bool_decide (0 < length deployed)%nat in
      let st2 :=
        if negb success && enable_rollback cfg && bool_decide (deployed ≠ [])
        then _rollback_deployments deployed st1 else st1 in
      (Returns (mkResult success deployed (cfg_resource_group cfg)
                         (default "default" (cfg_subscription_id cfg))
                         outputs errors),
       st2)
  | Raises e => (Raises e, st)
  | OutOfFuel => (OutOfFuel, st)
  end.

End Deploy.

Arguments mkState {World} _ _ _.
Arguments world {World} _.
Arguments trace {World} _.
Arguments _deployed_resources {World} _.

End Deployer.

(** ** validation_session.py *)

Module ValidationStage.
Inductive t : Type :=
| INITIALIZING | DISCOVERING | ANALYZING | DEPLOYING
| TESTING | FIXING | COMPLETED | FAILED.
#[global] Instance eq_dec : EqDecision t.
Proof. solve_decision. Defined.
End ValidationStage.

Module Session.
Import Fix.

(** The session id and the time stamps come from the random generator and the
    clock and are left out. *)
Record ValidationSummary : Type := mkSummary {
  current_stage : ValidationStage.t;
  stages_completed : list ValidationStage.t;
  projects_discovered : Z;
  projects_analyzed : Z;
  resources_deployed : Z;
  deployment_errors : Z;
  secrets_stored : Z;
  endpoints_discovered : Z;
  endpoints_tested : Z;
  tests_passed : Z;
  tests_failed : Z;
  tests_skipped : Z;
  fix_attempts : Z;
  fixes_successful : Z;
  success : bool;
  error_message : option string
}.

Definition new_summary : ValidationSummary :=
  mkSummary ValidationStage.INITIALIZING [] 0 0 0 0 0 0 0 0 0 0 0 0 false None.

(** [str(e)] *)
Definition str_exn (e : exn) : string :=
  match e with
  | CyclicDependencyError p =>
      "Circular dependency detected: " +:+ String.concat " → " p
  | KeyError k => "'" +:+ k +:+ "'"
  | ValueError m | RuntimeError m | ValidationError m | OverflowError m
  | OtherError m => m
  | CircuitBreakerError => ""
  end.

Section Run.

(** The collaborators of the session; each call changes the outside world and
    returns or raises. *)
Variable World : Type.
Variable Project : Type.
Variable discover_projects : World → (list Project + exn) * World.
(** [analyze_project] gives the application settings it found. *)
Variable analyze_project : Project → World → (list string + exn) * World.
(** [ResourceDeployer(resource_group)] checks that the Azure CLI is there. *)
Variable create_deployer : World → (unit + exn) * World.
Variable store_app_settings : list string → World → (Z + exn) * World.
Variable discover_endpoints : World → (list Endpoint + exn) * World.
Variable test_multiple_endpoints :
  list Endpoint → World → (list TestResult + exn) * World.
Variable subprocess_run : string → World → subprocess_result * World.

(** Constructor arguments. *)
Variable keyvault_url : option string.
Variable enable_fixes : bool.
Variable max_fix_attempts : Z.

Record Session : Type := mkSession {
  summary : ValidationSummary;
  discovered_projects : list Project;
  analyzer : bool;                       (* [self.analyzer is not None] *)
  test_results : list TestResult;
  fix_orchestrator : FixOrchestrator;
  world : World
}.

Definition new_session (w : World) : Session :=
  mkSession new_summary [] false [] (Fix.new max_fix_attempts enable_fixes) w.

(** Code that reads and writes the session and may raise. *)
Definition M (A : Type) : Type := Session → (A + exn) * Session.

Definition ret {A} (a : A) : M A := λ s, (inl a, s).

Definition raise {A} (e : exn) : M A := λ s, (inr e, s).

Definition then_ {A B} (m : M A) (k : A → M B) : M B :=
  λ s, match m s with
       | (inl a, s') => k a s'
       | (inr e, s') => (inr e, s')
       end.

Notation "'step' x <- m ; k" := (then_ m (fun x => k))
  (at level 10, x pattern, m at level 100, k at level 200).
Notation "m >>> k" := (then_ m (fun _ => k))
  (at level 62, right associativity).

Definition get : M Session := λ s, (inl s, s).

Definition set_summary (f : ValidationSummary → ValidationSummary) : M unit :=
  λ s, (inl tt, mkSession (f (summary s)) (discovered_projects s) (analyzer s)
                          (test_results s) (fix_orchestrator s) (world s)).

(** A call to a collaborator. *)
Definition external {A} (op : World → (A + exn) * World) : M A :=
  λ s, let '(r, w') := op (world s) in
       (r, mkSession (summary s) (discovered_projects s) (analyzer s)
                     (test_results s) (fix_orchestrator s) w').

Definition with_stage (stage : ValidationStage.t) (sm : ValidationSummary)
  : ValidationSummary :=
  mkSummary stage (stages_completed sm) (projects_discovered sm)
    (projects_analyzed sm) (resources_deployed sm) (deployment_errors sm)
    (secrets_stored sm) (endpoints_discovered sm) (endpoints_tested sm)
    (tests_passed sm) (tests_failed sm) (tests_skipped sm) (fix_attempts sm)
    (fixes_successful sm) (success sm) (error_message sm).

Definition with_completed (stage : ValidationStage.t) (sm : ValidationSummary)
  : ValidationSummary :=
  mkSummary (current_stage sm) (stages_completed sm ++ [stage])
    (projects_discovered sm) (projects_analyzed sm) (resources_deployed sm)
    (deployment_errors sm) (secrets_stored sm) (endpoints_discovered sm)
    (endpoints_tested sm) (tests_passed sm) (tests_failed sm) (tests_skipped sm)
    (fix_attempts sm) (fixes_successful sm) (success sm) (error_message sm).

Definition _transition_to_stage (stage : ValidationStage.t) : M unit :=
  set_summary (with_stage stage).

Definition _complete_stage (stage : ValidationStage.t) : M unit :=
  set_summary (with_completed stage).

Definition _run_discovery_stage : M unit :=
  _transition_to_stage ValidationStage.DISCOVERING >>>
  step projects <- external discover_projects ;
  (λ s, (inl tt,
         mkSession
           (let sm := summary s in
            mkSummary (current_stage sm) (stages_completed sm)
              (Z.of_nat (length projects)) (projects_analyzed sm)
              (resources_deployed sm) (deployment_errors sm) (secrets_stored sm)
              (endpoints_discovered sm) (endpoints_tested sm) (tests_passed sm)
              (tests_failed sm) (tests_skipped sm) (fix_attempts sm)
              (fixes_successful sm) (success sm) (error_message sm))
           projects (analyzer s) (test_results s) (fix_orchestrator s)
           (world s))) >>>
  match projects with
  | [] => raise (ValueError "No projects discovered in the directory")
  | _ :: _ => _complete_stage ValidationStage.DISCOVERING
  end.

Definition count_analyzed (sm : ValidationSummary) : ValidationSummary :=
  mkSummary (current_stage sm) (stages_completed sm) (projects_discovered sm)
    (projects_analyzed sm + 1) (resources_deployed sm) (deployment_errors sm)
    (secrets_stored sm) (endpoints_discovered sm) (endpoints_tested sm)
    (tests_passed sm) (tests_failed sm) (tests_skipped sm) (fix_attempts sm)
    (fixes_successful sm) (success sm) (error_message sm).

Fixpoint analyze_all (projects : list Project) : M unit :=
  match projects with
  | [] => ret tt
  | project :: rest =>
      (λ s, (inl tt, mkSession (summary s) (discovered_projects s) true
                               (test_results s) (fix_orchestrator s) (world s))) >>>
      external (analyze_project project) >>>
      set_summary count_analyzed >>>
      analyze_all rest
  end.

Definition _run_analysis_stage : M unit :=
  _transition_to_stage ValidationStage.ANALYZING >>>
  step s <- get ;
  analyze_all (discovered_projects s) >>>
  _complete_stage ValidationStage.ANALYZING.

Definition add_secrets (n : Z) (sm : ValidationSummary) : ValidationSummary :=
  mkSummary (current_stage sm) (stages_completed sm) (projects_discovered sm)
    (projects_analyzed sm) (resources_deployed sm) (deployment_errors sm)
    (secrets_stored sm + n) (endpoints_discovered sm) (endpoints_tested sm)
    (tests_passed sm) (tests_failed sm) (tests_skipped sm) (fix_attempts sm)
    (fixes_successful sm) (success sm) (error_message sm).

Fixpoint _store_secrets (projects : list Project) : M unit :=
  match projects with
  | [] => ret tt
  | project :: rest =>
      step app_settings <- external (analyze_project project) ;
      match app_settings with
      | [] => ret tt
      | _ :: _ =>
          step stored_count <- external (store_app_settings app_settings) ;
          set_summary (add_secrets stored_count)
      end >>>
      _store_secrets rest
  end.

Definition truthy_str (o : option string) : bool :=
  match o with
  | Some (String _ _) => true
  | _ => false
  end.

(** The deployment list is the empty placeholder of the source, so nothing is
    deployed. *)
Definition _run_deployment_stage : M unit :=
  _transition_to_stage ValidationStage.DEPLOYING >>>
  external create_deployer >>>
  step s <- get ;
  (if truthy_str keyvault_url && analyzer s
   then _store_secrets (discovered_projects s) else ret tt) >>>
  _complete_stage ValidationStage.DEPLOYING.

(** [r.status not in [SUCCESS, SKIPPED]] *)
Definition failing (r : TestResult) : bool :=
  match status r with
  | TestStatus.SUCCESS | TestStatus.SKIPPED => false
  | _ => true
  end.

Definition count_status (st : TestStatus.t) (rs : list TestResult) : Z :=
  Z.of_nat (length (filter (λ r, status r = st) rs)).

Definition _run_testing_stage : M unit :=
  _transition_to_stage ValidationStage.TESTING >>>
  step endpoints <- external discover_endpoints ;
  set_summary (λ sm,
    mkSummary (current_stage sm) (stages_completed sm) (projects_discovered sm)
      (projects_analyzed sm) (resources_deployed sm) (deployment_errors sm)
      (secrets_stored sm) (Z.of_nat (length endpoints)) (endpoints_tested sm)
      (tests_passed sm) (tests_failed sm) (tests_skipped sm) (fix_attempts sm)
      (fixes_successful sm) (success sm) (error_message sm)) >>>
  match endpoints with
  | [] => _complete_stage ValidationStage.TESTING
  | _ :: _ =>
      step results <- external (test_multiple_endpoints endpoints) ;
      (λ s, (inl tt,
             mkSession
               (let sm := summary s in
                mkSummary (current_stage sm) (stages_completed sm)
                  (projects_discovered sm) (projects_analyzed sm)
                  (resources_deployed sm) (deployment_errors sm)
                  (secrets_stored sm) (endpoints_discovered sm)
                  (Z.of_nat (length results))
                  (count_status TestStatus.SUCCESS results)
                  (Z.of_nat (length (filter (λ r, failing r = true) results)))
                  (count_status TestStatus.SKIPPED results)
                  (fix_attempts sm) (fixes_successful sm) (success sm)
                  (error_message sm))
               (discovered_projects s) (analyzer s) results
               (fix_orchestrator s) (world s))) >>>
      _complete_stage ValidationStage.TESTING
  end.

Definition _run_fixing_stage (failed_tests : list TestResult) : M unit :=
  _transition_to_stage ValidationStage.FIXING >>>
  (λ s, let '(_, o', w') :=
          attempt_fix World subprocess_run (fix_orchestrator s) failed_tests
                      None (world s) in
        (inl tt,
         mkSession
           (let sm := summary s in
            mkSummary (current_stage sm) (stages_completed sm)
              (projects_discovered sm) (projects_analyzed sm)
              (resources_deployed sm) (deployment_errors sm) (secrets_stored sm)
              (endpoints_discovered sm) (endpoints_tested sm) (tests_passed sm)
              (tests_failed sm) (tests_skipped sm)
              (total_attempts o') (successful_fixes o')
              (success sm) (error_message sm))
           (discovered_projects s) (analyzer s) (test_results s) o' w')) >>>
  _complete_stage ValidationStage.FIXING.

(** [for attempt in range(self.max_fix_attempts + 1)]: [remaining] rounds are
    left and the current one has index [attempt]. *)
Fixpoint fix_loop (remaining : nat) (attempt : Z) : M unit :=
  match remaining with
  | O => ret tt
  | S remaining' =>
      _run_testing_stage >>>
      step s <- get ;
      match filter (λ r, failing r = true) (test_results s) with
      | [] => ret tt
      | failed_tests =>
          if decide (attempt < max_fix_attempts) then
            _run_fixing_stage failed_tests >>>
            step s <- get ;
            if circuit_breaker_open (fix_orchestrator s) then ret tt
            else fix_loop remaining' (attempt + 1)
          else fix_loop remaining' (attempt + 1)
      end
  end.

Definition _run_testing_and_fixing_stages : M unit :=
  (λ s, (inl tt, mkSession (summary s) (discovered_projects s) (analyzer s)
                           (test_results s)
                           (Fix.new max_fix_attempts enable_fixes) (world s))) >>>
  fix_loop (Z.to_nat (max_fix_attempts + 1)) 0.

Definition mark (stage : ValidationStage.t) (ok : bool) (msg : option string)
    (sm : ValidationSummary) : ValidationSummary :=
  mkSummary stage (stages_completed sm) (projects_discovered sm)
    (projects_analyzed sm) (resources_deployed sm) (deployment_errors sm)
    (secrets_stored sm) (endpoints_discovered sm) (endpoints_tested sm)
    (tests_passed sm) (tests_failed sm) (tests_skipped sm) (fix_attempts sm)
    (fixes_successful sm) ok msg.

(** The stages that come before endpoint testing. *)
Definition stages_before_testing : M unit :=
  _run_discovery_stage >>> _run_analysis_stage >>> _run_deployment_stage.

Definition run (s : Session) : ValidationSummary * Session :=
  match (stages_before_testing >>> _run_testing_and_fixing_stages) s with
  | (inl _, s') =>
      let sm := mark ValidationStage.COMPLETED true (error_message (summary s'))
                     (summary s') in
      (sm, mkSession sm (discovered_projects s') (analyzer s') (test_results s')
                     (fix_orchestrator s') (world s'))
  | (inr e, s') =>
      let sm := mark ValidationStage.FAILED false (Some (str_exn e)) (summary s') in
      (sm, mkSession sm (discovered_projects s') (analyzer s') (test_results s')
                     (fix_orchestrator s') (world s'))
  end.

End Run.

End Session.

(** * Proofs *)

(** ** dependency_graph.py *)

Module DepGraphProofs.
Import DepGraph.

Lemma get_dependencies_lookup g n l :
  reverse_graph g !! n = Some l → get_dependencies g n = l.
Proof. unfold get_dependencies. by intros ->. Qed.

Lemma get_dependents_lookup g n l :
  graph g !! n = Some l → get_dependents g n = l.
Proof. unfold get_dependents. by intros ->. Qed.

(** *** The API keeps graphs well formed *)

Lemma wf_empty : wf empty_graph.
Proof.
  split; unfold get_dependents, get_dependencies; simpl; intros.
  - rewrite lookup_empty. split; [by intros [? ?] | set_solver].
  - rewrite lookup_empty. split; [by intros [? ?] | set_solver].
  - rewrite !lookup_empty. simpl. set_solver.
  - rewrite lookup_empty. constructor.
  - rewrite lookup_empty. constructor.
Qed.

Lemma wf_add_node g node : wf g → wf (add_node g node).
Proof.
  intros Hg. unfold add_node. case_decide as Hin; [done|].
  assert (Hgn : graph g !! node = None).
  { destruct (graph g !! node) eqn:E; [|done].
    exfalso. apply Hin, (wf_graph_dom g Hg). eauto. }
  assert (Hrn : reverse_graph g !! node = None).
  { destruct (reverse_graph g !! node) eqn:E; [|done].
    exfalso. apply Hin, (wf_reverse_dom g Hg). eauto. }
  split; unfold get_dependents, get_dependencies; simpl.
  - intros n. rewrite lookup_insert. destruct (decide (node = n)) as [->|Hne].
    + split; [intros _; set_solver | eauto].
    + rewrite (wf_graph_dom g Hg). set_solver.
  - intros n. rewrite lookup_insert. destruct (decide (node = n)) as [->|Hne].
    + split; [intros _; set_solver | eauto].
    + rewrite (wf_reverse_dom g Hg). set_solver.
  - intros n d. rewrite !lookup_insert.
    pose proof (wf_mirror g Hg n d) as Hm.
    unfold get_dependents, get_dependencies in Hm.
    destruct (decide (node = d)) as [Hd|Hd], (decide (node = n)) as [Hn|Hn];
      subst; simpl; rewrite ?Hgn, ?Hrn in Hm; simpl in Hm; set_solver.
  - intros n. rewrite lookup_insert. destruct (decide (node = n)); simpl; [constructor|].
    apply (wf_graph_nodup g Hg n).
  - intros n. rewrite lookup_insert. destruct (decide (node = n)); simpl; [constructor|].
    apply (wf_reverse_nodup g Hg n).
Qed.


Lemma is_Some_insert_present {A} (m : gmap string A) k v n :
  is_Some (m !! k) → is_Some (<[k := v]> m !! n) ↔ is_Some (m !! n).
Proof.
  intros Hk. rewrite lookup_insert. destruct (decide (k = n)) as [<-|]; [|done].
  split; eauto.
Qed.

Lemma wf_add_dependency g node dep :
  wf g → ∃ g', add_dependency g node dep = Returns g' ∧ wf g'.
Proof.
  intros Hg. unfold add_dependency.
  set (g1 := add_node (add_node g node) dep).
  assert (Hg1 : wf g1) by (by do 2 apply wf_add_node).
  assert (Hnode : node ∈ nodes g1).
  { unfold g1, add_node. repeat case_decide; simpl; set_solver. }
  assert (Hdep : dep ∈ nodes g1).
  { unfold g1, add_node. repeat case_decide; simpl; set_solver. }
  pose proof Hdep as Hout. apply (wf_graph_dom g1 Hg1) in Hout as [out Hout].
  pose proof Hnode as Hinc. apply (wf_reverse_dom g1 Hg1) in Hinc as [inc Hinc].
  unfold dict_get. rewrite Hout, Hinc. cbn [bind].
  eexists. split; [done|].
  pose proof (get_dependents_lookup _ _ _ Hout) as Eout.
  pose proof (get_dependencies_lookup _ _ _ Hinc) as Einc.
  pose proof (wf_mirror g1 Hg1 node dep) as Hm. rewrite Eout, Einc in Hm.
  destruct (decide (node ∈ out)) as [Hin|Hin];
    destruct (decide (dep ∈ inc)) as [Hin'|Hin']; try tauto.
  { by destruct g1. }
  split; unfold get_dependents, get_dependencies; simpl.
  - intros n. rewrite is_Some_insert_present by eauto. apply (wf_graph_dom g1 Hg1).
  - intros n. rewrite is_Some_insert_present by eauto. apply (wf_reverse_dom g1 Hg1).
  - intros n d. rewrite !lookup_insert.
    pose proof (wf_mirror g1 Hg1 n d) as Hnd.
    pose proof (wf_mirror g1 Hg1 n dep) as Hnd1.
    pose proof (wf_mirror g1 Hg1 node d) as Hnd2.
    unfold get_dependents, get_dependencies in Hnd, Hnd1, Hnd2.
    rewrite ?Hout, ?Hinc in Hnd1, Hnd2. simpl in Hnd1, Hnd2.
    destruct (decide (dep = d)) as [Hd|Hd], (decide (node = n)) as [Hn|Hn];
      subst; simpl; rewrite ?elem_of_app, ?list_elem_of_singleton;
      rewrite ?Hout, ?Hinc in Hnd; simpl in Hnd; try tauto;
      intuition congruence.
  - intros n. rewrite lookup_insert. destruct (decide (dep = n)) as [<-|]; simpl.
    + apply NoDup_app. split; [|split; [|apply NoDup_singleton]].
      * pose proof (wf_graph_nodup g1 Hg1 dep) as H. by rewrite Eout in H.
      * intros x Hx ->%list_elem_of_singleton. done.
    + apply (wf_graph_nodup g1 Hg1 n).
  - intros n. rewrite lookup_insert. destruct (decide (node = n)) as [<-|]; simpl.
    + apply NoDup_app. split; [|split; [|apply NoDup_singleton]].
      * pose proof (wf_reverse_nodup g1 Hg1 node) as H. by rewrite Einc in H.
      * intros x Hx ->%list_elem_of_singleton. done.
    + apply (wf_reverse_nodup g1 Hg1 n).
Qed.

(** *** Kahn's algorithm *)

Section Kahn.

Variable set_iter : gset string → list string.
Hypothesis set_iter_perm : ∀ s, set_iter s ≡ₚ elements s.

Variable g : DependencyGraph.
Hypothesis Hwf : wf g.

Lemma set_iter_elem s n : n ∈ set_iter s ↔ n ∈ s.
Proof. rewrite (set_iter_perm s). apply elem_of_elements. Qed.

Lemma set_iter_nodup s : NoDup (set_iter s).
Proof. rewrite (set_iter_perm s). apply NoDup_elements. Qed.

Lemma depends_on_nodes n d : depends_on g n d → n ∈ nodes g ∧ d ∈ nodes g.
Proof.
  intros Hd. pose proof Hd as Hd'. apply (wf_mirror g Hwf) in Hd'.
  unfold depends_on, get_dependencies in Hd. unfold get_dependents in Hd'.
  split.
  - apply (wf_reverse_dom g Hwf). destruct (reverse_graph g !! n); [eauto|].
    simpl in Hd. by apply elem_of_nil in Hd.
  - apply (wf_graph_dom g Hwf). destruct (graph g !! d); [eauto|].
    simpl in Hd'. by apply elem_of_nil in Hd'.
Qed.

Lemma reverse_lookup_nodes n :
  n ∈ nodes g → reverse_graph g !! n = Some (get_dependencies g n).
Proof.
  intros Hn. apply (wf_reverse_dom g Hwf) in Hn as [l Hl].
  by rewrite (get_dependencies_lookup _ _ _ Hl).
Qed.

Lemma graph_lookup_nodes n :
  n ∈ nodes g → graph g !! n = Some (get_dependents g n).
Proof.
  intros Hn. apply (wf_graph_dom g Hwf) in Hn as [l Hl].
  by rewrite (get_dependents_lookup _ _ _ Hl).
Qed.

(** Number of dependencies of [n] not yet emitted in [ordered]. *)
Definition pending (ordered : list string) (n : string) : Z :=
  Z.of_nat (length (filter (λ d, d ∉ ordered) (get_dependencies g n))).

Lemma pending_nonneg ordered n : 0 ≤ pending ordered n.
Proof. unfold pending. lia. Qed.

Lemma pending_nil n : pending [] n = Z.of_nat (length (get_dependencies g n)).
Proof.
  unfold pending. f_equal. f_equal.
  induction (get_dependencies g n) as [|d l IH]; [done|].
  rewrite filter_cons_True; [by rewrite IH | apply not_elem_of_nil].
Qed.

Lemma pending_zero ordered n d :
  pending ordered n = 0 → depends_on g n d → d ∈ ordered.
Proof.
  unfold pending, depends_on. intros Hz Hd.
  destruct (decide (d ∈ ordered)) as [|Hnot]; [done|].
  assert (Hin : d ∈ filter (λ d, d ∉ ordered) (get_dependencies g n))
    by (apply list_elem_of_filter; done).
  destruct (filter _ _); [by apply elem_of_nil in Hin | simpl in Hz; lia].
Qed.

Lemma pending_pos ordered n :
  0 < pending ordered n → ∃ d, depends_on g n d ∧ d ∉ ordered.
Proof.
  unfold pending, depends_on. intros Hp.
  destruct (filter (λ d, d ∉ ordered) (get_dependencies g n)) as [|d l] eqn:E.
  - simpl in Hp. lia.
  - assert (Hin : d ∈ filter (λ d, d ∉ ordered) (get_dependencies g n))
      by (rewrite E; left).
    apply list_elem_of_filter in Hin as [? ?]. eauto.
Qed.

Lemma filter_snoc_count (l ordered : list string) v :
  NoDup l → v ∉ ordered →
  length (filter (λ d, d ∉ ordered) l) =
  (length (filter (λ d, d ∉ ordered ++ [v]) l) + (if decide (v ∈ l) then 1 else 0))%nat.
Proof.
  intros Hnd Hv. induction Hnd as [|x l Hx Hnd IH]; [done|].
  destruct (decide (x ∈ ordered)) as [Hxo|Hxo].
  - rewrite filter_cons_False by tauto.
    rewrite filter_cons_False by (rewrite elem_of_app; tauto).
    rewrite IH. assert (x ≠ v) by congruence.
    destruct (decide (v ∈ l)), (decide (v ∈ x :: l)); set_solver.
  - rewrite filter_cons_True by done.
    destruct (decide (x = v)) as [->|Hne].
    + rewrite filter_cons_False by (rewrite elem_of_app; set_solver).
      simpl. rewrite IH.
      destruct (decide (v ∈ l)); [done|].
      destruct (decide (v ∈ v :: l)); [lia | set_solver].
    + rewrite filter_cons_True by (rewrite elem_of_app; set_solver).
      simpl. rewrite IH.
      destruct (decide (v ∈ l)), (decide (v ∈ x :: l)); set_solver.
Qed.

Lemma pending_snoc ordered v n :
  v ∉ ordered →
  pending ordered n =
  pending (ordered ++ [v]) n + (if decide (n ∈ get_dependents g v) then 1 else 0).
Proof.
  intros Hv. unfold pending.
  rewrite (filter_snoc_count _ ordered v (wf_reverse_nodup g Hwf n) Hv).
  destruct (decide (v ∈ get_dependencies g n)) as [Hin|Hin];
    destruct (decide (n ∈ get_dependents g v)) as [Hin'|Hin'];
    try lia; exfalso.
  - apply Hin', (wf_mirror g Hwf). done.
  - apply Hin, (wf_mirror g Hwf). done.
Qed.

(** Loop invariant.  [todo] is the part of [self.graph[node]] that the inner
    [for] loop still has to visit; it is empty at the head of the [while]. *)
Record kahn_inv (todo : list string) (ind : gmap string Z)
    (queue ordered : list string) : Prop := mkInv {
  ki_degree : ∀ n, n ∈ nodes g →
    ind !! n = Some (pending ordered n + (if decide (n ∈ todo) then 1 else 0));
  ki_nodup : NoDup (ordered ++ queue);
  ki_zero : ∀ n, n ∈ nodes g →
    (n ∈ ordered ++ queue ↔ pending ordered n = 0 ∧ n ∉ todo);
  ki_nodes : ∀ n, n ∈ ordered ++ queue → n ∈ nodes g
}.

Lemma relax_spec ordered todo : ∀ ind queue,
  NoDup todo → (∀ n, n ∈ todo → n ∈ nodes g) →
  kahn_inv todo ind queue ordered →
  ∃ ind' queue', relax todo ind queue = Returns (ind', queue') ∧
                 kahn_inv [] ind' queue' ordered.
Proof.
  induction todo as [|d ds IH]; intros ind queue Hnd Hsub Hinv.
  { simpl. eauto. }
  apply NoDup_cons in Hnd as [Hd Hnd].
  assert (Hdn : d ∈ nodes g) by (apply Hsub; left).
  destruct Hinv as [Hdeg Hnodup Hzero Hnodes].
  simpl. unfold dict_get. rewrite (Hdeg d Hdn).
  rewrite decide_True by left. simpl.
  replace (pending ordered d + 1 - 1) with (pending ordered d) by lia.
  apply IH; [done | intros; apply Hsub; by right |].
  assert (Hdq : d ∉ ordered ++ queue).
  { intros Hin. apply (Hzero d Hdn) in Hin as [_ Hin]. apply Hin. left. }
  split.
  - intros n Hn. rewrite lookup_insert. destruct (decide (d = n)) as [<-|Hne].
    + rewrite decide_False by done. f_equal. lia.
    + rewrite (Hdeg n Hn). do 2 f_equal.
      destruct (decide (n ∈ d :: ds)), (decide (n ∈ ds)); set_solver.
  - destruct (decide (pending ordered d = 0)); [|done].
    rewrite app_assoc. apply NoDup_app. split; [done|]. split.
    + intros x Hx. rewrite list_elem_of_singleton. intros ->. done.
    + apply NoDup_singleton.
  - intros n Hn. specialize (Hzero n Hn).
    destruct (decide (d = n)) as [<-|Hne].
    + destruct (decide (pending ordered d = 0)).
      * rewrite app_assoc. set_solver.
      * split; [intros; done | intros [? _]; done].
    + assert (n ∈ d :: ds ↔ n ∈ ds) by set_solver.
      destruct (decide (pending ordered d = 0)); [|tauto].
      rewrite app_assoc, elem_of_app, list_elem_of_singleton. split.
      * intros [Hin| ->]; [tauto | done].
      * intros. left. tauto.
  - intros n. destruct (decide (pending ordered d = 0)); [|apply Hnodes].
    rewrite app_assoc, elem_of_app, list_elem_of_singleton.
    intros [Hin| ->]; [by apply Hnodes | done].
Qed.

Lemma kahn_inv_length ind queue ordered :
  kahn_inv [] ind queue ordered →
  (length ordered + length queue ≤ length (set_iter (nodes g)))%nat.
Proof.
  intros [_ Hnodup _ Hnodes]. rewrite <- length_app.
  apply submseteq_length, NoDup_submseteq; [done|].
  intros x Hx. apply set_iter_elem. by apply Hnodes.
Qed.

Lemma kahn_inv_pop ind v queue ordered :
  kahn_inv [] ind (v :: queue) ordered →
  kahn_inv (get_dependents g v) ind queue (ordered ++ [v]) ∧
  (∀ d, depends_on g v d → d ∈ ordered).
Proof.
  intros [Hdeg Hnodup Hzero Hnodes].
  assert (Hvn : v ∈ nodes g) by (apply Hnodes; set_solver).
  assert (Hvo : v ∉ ordered).
  { apply NoDup_app in Hnodup as (_ & Hdisj & _). intros Hin.
    apply (Hdisj v Hin). left. }
  assert (Hvz : pending ordered v = 0).
  { apply (Hzero v Hvn). set_solver. }
  split; [split|].
  - intros n Hn. rewrite (Hdeg n Hn), decide_False by apply not_elem_of_nil.
    rewrite (pending_snoc ordered v n Hvo). f_equal. lia.
  - by rewrite <- app_assoc.
  - intros n Hn. rewrite <- app_assoc. simpl. rewrite (Hzero n Hn).
    rewrite (pending_snoc ordered v n Hvo).
    pose proof (pending_nonneg (ordered ++ [v]) n).
    destruct (decide (n ∈ get_dependents g v)); split; intros [? ?];
      first [lia | done | split; [lia | first [done | apply not_elem_of_nil]]].
  - intros n. rewrite <- app_assoc. simpl. apply Hnodes.
  - intros d Hd. by apply (pending_zero ordered v d).
Qed.

Lemma topological_snoc ordered v :
  topological g ordered → (∀ d, depends_on g v d → d ∈ ordered) →
  topological g (ordered ++ [v]).
Proof.
  intros Htop Hv i n d Hi Hd.
  apply lookup_snoc_Some in Hi as [[Hlt Hi] | [-> ->]].
  - destruct (Htop i n d Hi Hd) as (j & Hj & Hjd).
    exists j. split; [done|]. by apply lookup_app_l_Some.
  - apply Hv, list_elem_of_lookup in Hd as [j Hj].
    exists j. split; [by apply lookup_lt_Some in Hj|].
    by apply lookup_app_l_Some.
Qed.

Lemma kahn_loop_spec fuel : ∀ ind queue ordered,
  kahn_inv [] ind queue ordered → topological g ordered →
  (length (set_iter (nodes g)) ≤ fuel + length ordered)%nat →
  ∃ ind' ordered',
    kahn_loop g fuel ind queue ordered = Returns (ind', ordered') ∧
    kahn_inv [] ind' [] ordered' ∧ topological g ordered'.
Proof.
  induction fuel as [|fuel IH]; intros ind queue ordered Hinv Htop Hfuel.
  - destruct queue as [|v queue]; [simpl; eauto|].
    apply kahn_inv_length in Hinv. simpl in *. lia.
  - destruct queue as [|v queue]; [simpl; eauto|].
    pose proof (kahn_inv_pop _ _ _ _ Hinv) as [Hinv' Hdeps].
    assert (Hvn : v ∈ nodes g) by (apply (ki_nodes _ _ _ _ Hinv); set_solver).
    simpl. unfold dict_get. rewrite (graph_lookup_nodes v Hvn). simpl.
    destruct (relax_spec (ordered ++ [v]) (get_dependents g v) ind queue)
      as (ind1 & queue1 & -> & Hinv1).
    + apply (wf_graph_nodup g Hwf).
    + intros n Hn. apply (wf_mirror g Hwf) in Hn.
      by apply depends_on_nodes in Hn as [? ?].
    + done.
    + simpl. apply IH; [done | by apply topological_snoc |].
      rewrite length_app. simpl. lia.
Qed.

Lemma in_degree_of_spec ns : ∀ acc,
  (∀ n, n ∈ ns → n ∈ nodes g) →
  ∃ m, in_degree_of g ns acc = Returns m ∧
       ∀ n, m !! n = if decide (n ∈ ns) then Some (pending [] n) else acc !! n.
Proof.
  induction ns as [|a ns IH]; intros acc Hsub.
  { exists acc. split; [done|]. intros n. by rewrite decide_False by apply not_elem_of_nil. }
  simpl. unfold dict_get.
  rewrite (reverse_lookup_nodes a) by (apply Hsub; left). simpl.
  destruct (IH (<[a := Z.of_nat (length (get_dependencies g a))]> acc))
    as (m & -> & Hm); [intros; apply Hsub; by right|].
  exists m. split; [done|]. intros n. rewrite Hm.
  destruct (decide (n ∈ ns)) as [Hin|Hin].
  - by rewrite decide_True by (by right).
  - rewrite lookup_insert. destruct (decide (a = n)) as [<-|Hne].
    + rewrite decide_True by left. by rewrite pending_nil.
    + rewrite decide_False; [done|]. set_solver.
Qed.

Lemma kahn_inv_init m :
  (∀ n, m !! n = if decide (n ∈ set_iter (nodes g)) then Some (pending [] n)
                 else (∅ : gmap string Z) !! n) →
  kahn_inv [] m (filter (λ n, m !! n = Some 0) (set_iter (nodes g))) [].
Proof.
  intros Hm.
  assert (Hlook : ∀ n, n ∈ nodes g → m !! n = Some (pending [] n)).
  { intros n Hn. rewrite Hm, decide_True; [done|]. by apply set_iter_elem. }
  split; rewrite ?app_nil_l.
  - intros n Hn. rewrite (Hlook n Hn). rewrite decide_False by apply not_elem_of_nil.
    f_equal. lia.
  - apply NoDup_filter, set_iter_nodup.
  - intros n Hn. rewrite list_elem_of_filter, (Hlook n Hn), set_iter_elem.
    split.
    + intros [[= ->] _]. split; [done | apply not_elem_of_nil].
    + intros [-> _]. done.
  - intros n Hn. apply list_elem_of_filter in Hn as [_ Hn]. by apply set_iter_elem.
Qed.

(** What the loop leaves behind: the emitted nodes are exactly those without
    pending dependencies, and every other node still waits for a node that was
    not emitted either. *)
Lemma kahn_inv_final ind ordered :
  kahn_inv [] ind [] ordered →
  NoDup ordered ∧
  (∀ n, n ∈ ordered → n ∈ nodes g) ∧
  (∀ n, n ∈ nodes g →
     positive_degree ind n = true ↔ n ∉ ordered) ∧
  (∀ n, n ∈ nodes g → n ∉ ordered →
     ∃ d, depends_on g n d ∧ d ∈ nodes g ∧ d ∉ ordered).
Proof.
  intros [Hdeg Hnodup Hzero Hnodes]. rewrite app_nil_r in Hnodup.
  assert (Hz : ∀ n, n ∈ nodes g → n ∈ ordered ↔ pending ordered n = 0).
  { intros n Hn. specialize (Hzero n Hn). rewrite app_nil_r in Hzero.
    rewrite Hzero. split; [tauto|]. split; [done | apply not_elem_of_nil]. }
  split; [done|]. split.
  { intros n Hn. apply Hnodes. by rewrite app_nil_r. }
  split.
  - intros n Hn. unfold positive_degree. rewrite (Hdeg n Hn).
    rewrite decide_False by apply not_elem_of_nil.
    rewrite bool_decide_eq_true, (Hz n Hn).
    pose proof (pending_nonneg ordered n). lia.
  - intros n Hn Hno.
    destruct (pending_pos ordered n) as (d & Hd & Hdo).
    + pose proof (pending_nonneg ordered n).
      assert (pending ordered n ≠ 0) by (rewrite <- (Hz n Hn); done). lia.
    + exists d. split; [done|]. split; [|done].
      by apply depends_on_nodes in Hd as [_ ?].
Qed.

(** *** Reconstructing a cycle *)

(** Consecutive entries of [l] are linked by a dependency. *)
Definition chain (l : list string) : Prop :=
  ∀ i x y, l !! i = Some x → l !! S i = Some y → depends_on g x y.

Lemma chain_rtc l : chain l →
  ∀ k i x y, l !! i = Some x → l !! (i + k)%nat = Some y → rtc (depends_on g) x y.
Proof.
  intros Hc k. induction k as [|k IH]; intros i x y Hx Hy.
  - rewrite Nat.add_0_r in Hy. assert (x = y) by congruence. by subst.
  - replace (i + S k)%nat with (S (i + k)) in Hy by lia.
    destruct (l !! (i + k)%nat) as [z|] eqn:Hz.
    + eapply rtc_r; [by eapply IH | by eapply Hc].
    + apply lookup_ge_None in Hz. apply lookup_lt_Some in Hy. lia.
Qed.

Lemma chain_snoc l current next :
  chain l → last l = Some current → depends_on g current next →
  chain (l ++ [next]).
Proof.
  intros Hc Hlast Hd i x y Hx Hy.
  rewrite last_lookup in Hlast.
  apply lookup_snoc_Some in Hy as [[Hlt Hy] | [Hlen ->]].
  - apply (Hc i x y); [|done].
    rewrite lookup_app_l in Hx by lia. done.
  - rewrite lookup_app_l in Hx by lia.
    replace (pred (length l)) with i in Hlast by lia.
    assert (x = current) by congruence. by subst.
Qed.

Lemma list_index_elem x l : x ∈ l → ∃ i, list_index x l = Some i ∧ l !! i = Some x.
Proof.
  induction l as [|y l IH]; [by intros ?%elem_of_nil|].
  intros Hin. simpl. destruct (decide (y = x)) as [->|Hne]; [by exists O|].
  apply elem_of_cons in Hin as [->|Hin]; [done|].
  destruct (IH Hin) as (i & -> & Hi). by exists (S i).
Qed.

(** Every two entries of [c] reach each other through dependencies; in
    particular each entry lies on a cycle. *)
Definition mutually_reachable (c : list string) : Prop :=
  ∀ x y, x ∈ c → y ∈ c → tc (depends_on g) x y.

Record walk_inv (nic path : list string) (visited : gset string)
    (current : string) : Prop := mkWalk {
  wi_chain : chain path;
  wi_last : last path = Some current;
  wi_visited : ∀ x, x ∈ visited ↔ x ∈ path;
  wi_nodup : NoDup path;
  wi_sub : ∀ x, x ∈ path → x ∈ nic
}.

(** Every stuck node waits for another stuck node. *)
Definition closed (nic : list string) : Prop :=
  ∀ n, n ∈ nic → n ∈ nodes g ∧ ∃ d, depends_on g n d ∧ d ∈ nic.

Lemma cycle_walk_spec nic (Hclosed : closed nic) fuel :
  ∀ path visited current,
  walk_inv nic path visited current →
  (length nic < fuel + length path)%nat →
  ∃ c, cycle_walk g fuel nic path visited current = Returns (Found c) ∧
       c ≠ [] ∧ mutually_reachable c.
Proof.
  induction fuel as [|fuel IH]; intros path visited current Hinv Hfuel.
  { destruct Hinv as [_ _ _ Hnd Hsub].
    assert (length path ≤ length nic)%nat
      by (apply submseteq_length, NoDup_submseteq; done). lia. }
  pose proof Hinv as [Hchain Hlast Hvis Hnd Hsub].
  assert (Hcur : current ∈ path).
  { rewrite last_lookup in Hlast. by apply list_elem_of_lookup_2 in Hlast. }
  destruct (Hclosed current (Hsub _ Hcur)) as (Hcn & d & Hd & Hdn).
  simpl. unfold dict_get. rewrite (reverse_lookup_nodes current Hcn). simpl.
  destruct (filter (λ dep, dep ∈ nic) (get_dependencies g current))
    as [|next rest] eqn:Hf.
  { assert (d ∈ filter (λ dep, dep ∈ nic) (get_dependencies g current))
      by (apply list_elem_of_filter; done).
    rewrite Hf in *. by apply elem_of_nil in H. }
  assert (Hnext : next ∈ nic ∧ depends_on g current next).
  { assert (Hin : next ∈ filter (λ dep, dep ∈ nic) (get_dependencies g current))
      by (rewrite Hf; left).
    by apply list_elem_of_filter in Hin. }
  destruct Hnext as [Hnn Hnd'].
  destruct (decide (next ∈ visited)) as [Hv|Hv].
  - apply Hvis in Hv. destruct (list_index_elem next path Hv) as (j & -> & Hj).
    eexists. split; [done|]. split; [by destruct (drop j path)|].
    assert (Hlen : (j < length path)%nat) by (by apply lookup_lt_Some in Hj).
    rewrite last_lookup in Hlast.
    assert (Hboth : ∀ x, x ∈ drop j path ++ [next] →
              rtc (depends_on g) x current ∧ rtc (depends_on g) next x).
    { intros x. rewrite elem_of_app, list_elem_of_singleton.
      intros [Hx| ->].
      - apply list_elem_of_lookup in Hx as [a Ha]. rewrite lookup_drop in Ha.
        assert ((j + a) < length path)%nat by (by apply lookup_lt_Some in Ha).
        split.
        + apply (chain_rtc path Hchain (pred (length path) - (j + a)) (j + a));
            [done|].
          by replace (j + a + (pred (length path) - (j + a)))%nat
            with (pred (length path)) by lia.
        + by apply (chain_rtc path Hchain a j).
      - split; [|done].
        apply (chain_rtc path Hchain (pred (length path) - j) j); [done|].
        by replace (j + (pred (length path) - j))%nat
          with (pred (length path)) by lia. }
    intros x y Hx Hy.
    destruct (Hboth x Hx) as [Hxc _], (Hboth y Hy) as [_ Hny].
    eapply tc_rtc_r; [|exact Hny].
    eapply tc_rtc_l; [exact Hxc|]. by apply tc_once.
  - assert (Hnp : next ∉ path) by (by rewrite <- Hvis).
    assert (Hinv' : walk_inv nic (path ++ [next]) ({[next]} ∪ visited) next).
    { split.
      - by apply (chain_snoc path current).
      - by rewrite last_snoc.
      - intros x. rewrite elem_of_union, elem_of_singleton, elem_of_app,
          list_elem_of_singleton, Hvis. tauto.
      - apply NoDup_app. split; [done|]. split; [|apply NoDup_singleton].
        intros x Hx. rewrite list_elem_of_singleton. by intros ->.
      - intros x. rewrite elem_of_app, list_elem_of_singleton.
        intros [?| ->]; [by apply Hsub | done]. }
    assert (length (path ++ [next]) ≤ length nic)%nat.
    { apply submseteq_length, NoDup_submseteq;
        [apply (wi_nodup _ _ _ _ Hinv') | apply (wi_sub _ _ _ _ Hinv')]. }
    rewrite decide_False by lia.
    apply IH; [done|]. rewrite length_app. simpl. lia.
Qed.

Lemma find_cycle_path_spec nic :
  nic ≠ [] → closed nic →
  ∃ c, _find_cycle_path g nic = Returns c ∧ c ≠ [] ∧ mutually_reachable c.
Proof.
  intros Hne Hclosed. destruct nic as [|start rest]; [done|].
  destruct (cycle_walk_spec (start :: rest) Hclosed
              (S (length (start :: rest) * 2)) [start] {[start]} start)
    as (c & Hc & Hc1 & Hc2).
  - split.
    + intros i x y Hx Hy. destruct i; simpl in Hy; done.
    + done.
    + intros x. rewrite elem_of_singleton, list_elem_of_singleton. done.
    + apply NoDup_singleton.
    + intros x ->%list_elem_of_singleton. left.
  - simpl. lia.
  - exists c. split; [|done]. cbn [_find_cycle_path]. by rewrite Hc.
Qed.

(** *** [get_ordered_resources]: the two possible results *)

Lemma get_ordered_resources_cases :
  (∃ ordered, get_ordered_resources set_iter g = Returns ordered ∧
     NoDup ordered ∧ (∀ n, n ∈ ordered ↔ n ∈ nodes g) ∧ topological g ordered)
  ∨
  (∃ c, get_ordered_resources set_iter g = Raises (CyclicDependencyError c) ∧
     c ≠ [] ∧ mutually_reachable c).
Proof.
  unfold get_ordered_resources.
  destruct (in_degree_of_spec (set_iter (nodes g)) ∅) as (m & -> & Hm).
  { intros n. apply set_iter_elem. }
  cbn [bind].
  destruct (kahn_loop_spec (length (set_iter (nodes g))) m
              (filter (λ n, m !! n = Some 0) (set_iter (nodes g))) [])
    as (ind & ordered & -> & Hinv & Htop).
  { by apply kahn_inv_init. }
  { intros i n d Hi. by rewrite lookup_nil in Hi. }
  { simpl. lia. }
  cbn [bind fst snd].
  destruct (kahn_inv_final ind ordered Hinv) as (Hnd & Hsub & Hpos & Hstuck).
  set (remaining := filter (λ node, positive_degree ind node = true)
                           (set_iter (nodes g))).
  assert (Hrem : ∀ n, n ∈ remaining ↔ n ∈ nodes g ∧ n ∉ ordered).
  { intros n. unfold remaining. rewrite list_elem_of_filter, set_iter_elem.
    split.
    - intros [Hp Hn]. split; [done|]. by apply (Hpos n Hn).
    - intros [Hn Hno]. split; [|done]. by apply (Hpos n Hn). }
  destruct remaining as [|r rem] eqn:Hr.
  - left. exists ordered. split; [done|]. split; [done|]. split; [|done].
    intros n. split; [apply Hsub|]. intros Hn.
    destruct (decide (n ∈ ordered)) as [|Hno]; [done|].
    exfalso. eapply not_elem_of_nil, Hrem. eauto.
  - right. destruct (find_cycle_path_spec (r :: rem)) as (c & -> & Hc1 & Hc2).
    + done.
    + intros n [Hn Hno]%Hrem. split; [done|].
      destruct (Hstuck n Hn Hno) as (d & Hd & Hdn & Hdo).
      exists d. split; [done|]. apply Hrem. done.
    + exists c. done.
Qed.

(** A complete duplicate-free topological order rules out cycles. *)
Lemma topological_tc ordered :
  topological g ordered →
  ∀ x y, tc (depends_on g) x y →
  ∀ i, ordered !! i = Some x → ∃ j, (j < i)%nat ∧ ordered !! j = Some y.
Proof.
  intros Htop x y Hxy. induction Hxy as [x y Hd | x y z Hd Hyz IH]; intros i Hi.
  - by apply (Htop i x y).
  - destruct (Htop i x y Hi Hd) as (j & Hj & Hy).
    destruct (IH j Hy) as (k & Hk & Hz). exists k. split; [lia | done].
Qed.

Lemma topological_acyclic ordered :
  topological g ordered → (∀ n, n ∈ nodes g → n ∈ ordered) → acyclic g.
Proof.
  intros Htop Hall x Hx.
  assert (Hxn : x ∈ nodes g).
  { inversion Hx as [? ? Hd | ? y ? Hd _]; subst;
      by apply depends_on_nodes in Hd as [? _]. }
  apply Hall, list_elem_of_lookup in Hxn as [i Hi].
  revert Hi. induction (lt_wf i) as [i _ IH]. intros Hi.
  destruct (topological_tc ordered Htop x x Hx i Hi) as (j & Hj & Hj').
  by apply (IH j).
Qed.

(** *** Deployment batches *)

(** Dependencies sit in strictly earlier batches. *)
Definition layered (batches : list (list string)) : Prop :=
  ∀ j b n d, batches !! j = Some b → n ∈ b → depends_on g n d →
    ∃ i b', (i < j)%nat ∧ batches !! i = Some b' ∧ d ∈ b'.

Lemma topological_app l l' :
  topological g l → (∀ n d, n ∈ l' → depends_on g n d → d ∈ l) →
  topological g (l ++ l').
Proof.
  intros Htop Hl' i n d Hi Hd.
  destruct (decide (i < length l)%nat) as [Hlt|Hge].
  - rewrite lookup_app_l in Hi by done.
    destruct (Htop i n d Hi Hd) as (j & Hj & Hjd).
    exists j. split; [done|]. by apply lookup_app_l_Some.
  - rewrite lookup_app_r in Hi by lia.
    apply list_elem_of_lookup_2 in Hi.
    apply (Hl' n d Hi), list_elem_of_lookup in Hd as [j Hj].
    exists j. split; [apply lookup_lt_Some in Hj; lia|].
    by apply lookup_app_l_Some.
Qed.

Lemma elem_of_concat (x : string) (ls : list (list string)) :
  x ∈ concat ls ↔ ∃ l, l ∈ ls ∧ x ∈ l.
Proof.
  induction ls as [|l ls IH]; simpl.
  - split; [by intros ?%elem_of_nil | by intros (? & ?%elem_of_nil & _)].
  - rewrite elem_of_app, IH. split.
    + intros [?|(l' & ? & ?)]; [exists l | exists l']; split;
        first [done | by left | by right].
    + intros (l' & [->|?]%elem_of_cons & ?); [by left | right; eauto].
Qed.

Lemma size_union_list (X : gset string) (l : list string) :
  NoDup l → (∀ x, x ∈ l → x ∉ X) →
  size (X ∪ list_to_set l) = (size X + length l)%nat.
Proof.
  intros Hnd Hdisj. rewrite size_union.
  - by rewrite size_list_to_set.
  - apply elem_of_disjoint. intros x Hx Hl.
    apply elem_of_list_to_set in Hl. by apply (Hdisj x).
Qed.

Record batch_inv (ordered : list string) (batches : list (list string))
    (deployed : gset string) : Prop := mkBatch {
  bi_deployed : ∀ x, x ∈ deployed ↔ x ∈ concat batches;
  bi_size : size deployed = length (concat batches);
  bi_nodup : NoDup (concat batches);
  bi_sub : ∀ x, x ∈ concat batches → x ∈ ordered;
  bi_nonempty : Forall (λ b, b ≠ []) batches;
  bi_layered : layered batches;
  bi_topological : topological g (concat batches)
}.

(** While something is left to deploy, the next batch is not empty: the
    earliest undeployed resource of [ordered] is ready. *)
Lemma batch_progress ordered deployed :
  topological g ordered →
  filter (ready g deployed) ordered = [] →
  ∀ i x, ordered !! i = Some x → x ∈ deployed.
Proof.
  intros Htop Hnil i. induction (lt_wf i) as [i _ IH]. intros x Hi.
  destruct (decide (x ∈ deployed)) as [|Hx]; [done|]. exfalso.
  destruct (decide (Forall (λ dep, dep ∈ deployed) (get_dependencies g x)))
    as [Hall|Hnot].
  - assert (Hin : x ∈ filter (ready g deployed) ordered).
    { apply list_elem_of_filter. split; [by split|].
      by apply list_elem_of_lookup_2 in Hi. }
    rewrite Hnil in Hin. by apply elem_of_nil in Hin.
  - apply not_Forall_Exists in Hnot; [|apply _].
    apply Exists_exists in Hnot as (d & Hd & Hdd). simpl in Hdd.
    destruct (Htop i x d Hi Hd) as (j & Hj & Hjd).
    apply Hdd. by apply (IH j Hj d).
Qed.

Lemma batch_loop_spec ordered (Hnd : NoDup ordered)
    (Htop : topological g ordered) fuel :
  ∀ batches deployed,
  batch_inv ordered batches deployed →
  (length ordered ≤ fuel + size deployed)%nat →
  ∃ batches', batch_loop g fuel ordered batches deployed = Returns batches' ∧
              batch_inv ordered batches' (list_to_set (concat batches')) ∧
              concat batches' ≡ₚ ordered.
Proof.
  induction fuel as [|fuel IH]; intros batches deployed Hinv Hfuel.
  - exists batches. destruct Hinv as [Hdep Hsize Hnodup Hsub Hne Hlay Htopb].
    assert (Hperm : concat batches ≡ₚ ordered).
    { apply submseteq_length_Permutation; [by apply NoDup_submseteq | lia]. }
    simpl. rewrite decide_False by (simpl in Hfuel; lia).
    split; [done|]. split; [|done].
    split; try done.
    + intros x. by rewrite elem_of_list_to_set.
    + by rewrite size_list_to_set.
  - cbn [batch_loop].
    destruct (decide (size deployed < length ordered)%nat) as [Hlt|Hge].
    + pose proof Hinv as [Hdep Hsize Hnodup Hsub Hne Hlay Htopb].
      destruct (filter (ready g deployed) ordered) as [|r batch] eqn:Hb.
      { exfalso.
        assert (Hall : ∀ x, x ∈ ordered → x ∈ concat batches).
        { intros x [i Hi]%list_elem_of_lookup. apply Hdep.
          by apply (batch_progress ordered deployed Htop Hb i). }
        assert (length ordered ≤ length (concat batches))%nat
          by (by apply submseteq_length, NoDup_submseteq).
        lia. }
      assert (Hbatch : ∀ x, x ∈ r :: batch ↔ ready g deployed x ∧ x ∈ ordered).
      { intros x. rewrite <- Hb. apply list_elem_of_filter. }
      assert (Hbnd : NoDup (r :: batch)).
      { rewrite <- Hb. by apply NoDup_filter. }
      assert (Hdisj : ∀ x, x ∈ concat batches → x ∉ r :: batch).
      { intros x Hx [[Hnot _] _]%Hbatch. by apply Hnot, Hdep. }
      apply IH.
      * split.
        -- intros x. rewrite concat_app, elem_of_union, elem_of_list_to_set,
             elem_of_app, Hdep. cbn [concat]. by rewrite app_nil_r.
        -- rewrite concat_app, length_app. cbn [concat]. rewrite app_nil_r.
           rewrite (size_union_list deployed (r :: batch)), Hsize; [done..|].
           intros x Hx Hxd. by apply (Hdisj x); [apply Hdep|].
        -- rewrite concat_app. cbn [concat]. rewrite app_nil_r.
           apply NoDup_app. done.
        -- intros x. rewrite concat_app. cbn [concat]. rewrite app_nil_r, elem_of_app.
           intros [?|[_ ?]%Hbatch]; [by apply Hsub | done].
        -- apply Forall_app. split; [done|]. by repeat constructor.
        -- intros j b n d Hj Hn Hd.
           apply lookup_snoc_Some in Hj as [[Hjlt Hj] | [-> <-]].
           ++ destruct (Hlay j b n d Hj Hn Hd) as (i & b' & Hi & Hib & Hdb).
              exists i, b'. split; [done|]. split; [|done].
              by apply lookup_app_l_Some.
           ++ apply Hbatch in Hn as [[_ Hall] _].
              rewrite Forall_forall in Hall.
              apply Hall, Hdep, elem_of_concat in Hd as (b' & Hb' & Hdb).
              apply list_elem_of_lookup in Hb' as [i Hi].
              exists i, b'. split; [by apply lookup_lt_Some in Hi|].
              split; [by apply lookup_app_l_Some | done].
        -- rewrite concat_app. cbn [concat]. rewrite app_nil_r.
           apply topological_app; [done|].
           intros n d [[_ Hall] _]%Hbatch Hd.
           rewrite Forall_forall in Hall. by apply Hdep, Hall.
      * rewrite (size_union_list deployed (r :: batch)); [simpl; lia | done |].
        intros x Hx Hxd. by apply (Hdisj x); [apply Hdep|].
    + exists batches. destruct Hinv as [Hdep Hsize Hnodup Hsub Hne Hlay Htopb].
      assert (Hperm : concat batches ≡ₚ ordered).
      { apply submseteq_length_Permutation; [by apply NoDup_submseteq | lia]. }
      split; [done|]. split; [|done].
      split; try done.
      * intros x. by rewrite elem_of_list_to_set.
      * by rewrite size_list_to_set.
Qed.

(** *** The claims about the dependency graph *)

(** C1.  For every acyclic dependency graph, [get_ordered_resources] returns a
    sequence that contains every node of the graph exactly once, and for every
    edge the dependency sits at a strictly smaller index than the dependent. *)
Theorem get_ordered_resources_topological_order :
  acyclic g →
  ∃ ordered,
    get_ordered_resources set_iter g = Returns ordered ∧
    NoDup ordered ∧
    (∀ n, n ∈ ordered ↔ n ∈ nodes g) ∧
    (∀ node dep, depends_on g node dep →
       ∃ i j, ordered !! i = Some dep ∧ ordered !! j = Some node ∧ (i < j)%nat).
Proof.
  intros Hacyc.
  destruct get_ordered_resources_cases
    as [(ordered & Hret & Hnd & Hall & Htop) | (c & _ & Hc & Hreach)].
  - exists ordered. split; [done|]. split; [done|]. split; [done|].
    intros node dep Hd.
    assert (Hn : node ∈ ordered).
    { apply Hall. by apply depends_on_nodes in Hd as [? _]. }
    apply list_elem_of_lookup in Hn as [j Hj].
    destruct (Htop j node dep Hj Hd) as (i & Hi & Hid). by exists i, j.
  - exfalso. destruct c as [|x c]; [done|].
    apply (Hacyc x), Hreach; left.
Qed.

(** C2.  For every acyclic dependency graph, [get_deployment_batches] returns
    non-empty, pairwise disjoint batches that together hold every node once;
    their concatenation is a topological order, and each dependency of a node
    lies in a strictly earlier batch than the node. *)
Theorem get_deployment_batches_partition :
  acyclic g →
  ∃ batches,
    get_deployment_batches set_iter g = Returns batches ∧
    Forall (λ b, b ≠ []) batches ∧
    NoDup (concat batches) ∧
    (∀ n, n ∈ concat batches ↔ n ∈ nodes g) ∧
    topological g (concat batches) ∧
    (∀ j b node dep, batches !! j = Some b → node ∈ b → depends_on g node dep →
       ∃ i b', (i < j)%nat ∧ batches !! i = Some b' ∧ dep ∈ b').
Proof.
  intros Hacyc.
  destruct get_ordered_resources_cases
    as [(ordered & Hret & Hnd & Hall & Htop) | (c & _ & Hc & Hreach)].
  - unfold get_deployment_batches. rewrite Hret. cbn [bind].
    destruct (batch_loop_spec ordered Hnd Htop (length ordered) [] ∅)
      as (batches & -> & Hinv & Hperm).
    + split; simpl; try done.
      * intros x. rewrite elem_of_empty. split; [done | by intros ?%elem_of_nil].
      * constructor.
      * by intros x ?%elem_of_nil.
    + rewrite size_empty. lia.
    + exists batches. destruct Hinv as [_ _ Hnodup _ Hne Hlay Htopb].
      split; [done|]. split; [done|]. split; [done|].
      split; [|by split].
      intros n. by rewrite Hperm.
  - exfalso. destruct c as [|x c]; [done|].
    apply (Hacyc x), Hreach; left.
Qed.

(** C3.  If the graph contains a cycle, [get_ordered_resources] raises
    [CyclicDependencyError] and every two nodes of the reported path reach each
    other along dependencies (so each lies on a cycle); and for every graph
    [has_cycle] returns a boolean, which is [true] exactly when
    [get_ordered_resources] does not return. *)
Theorem cyclic_graph_is_reported :
  ((∃ n, tc (depends_on g) n n) →
     ∃ cycle_path,
       get_ordered_resources set_iter g = Raises (CyclicDependencyError cycle_path) ∧
       cycle_path ≠ [] ∧
       (∀ x y, x ∈ cycle_path → y ∈ cycle_path → tc (depends_on g) x y)) ∧
  (∃ b, has_cycle set_iter g = Returns b ∧
        (b = true ↔ ∀ ordered, get_ordered_resources set_iter g ≠ Returns ordered)).
Proof.
  unfold has_cycle.
  destruct get_ordered_resources_cases
    as [(ordered & Hret & Hnd & Hall & Htop) | (c & Hret & Hc & Hreach)];
    rewrite Hret.
  - split.
    + intros [n Hn]. exfalso.
      apply (topological_acyclic ordered Htop) in Hn; [done|]. intros. by apply Hall.
    + exists false. split; [done|]. split; [done|].
      intros H. by destruct (H ordered).
  - split.
    + intros _. by exists c.
    + exists true. split; [done|]. split; [|done]. intros _ ordered. done.
Qed.

(** *** Further facts about the graph operations *)

Lemma cycle_walk_closed nic (Hclosed : closed nic) fuel :
  ∀ path visited current,
  walk_inv nic path visited current →
  (length nic < fuel + length path)%nat →
  ∃ c, cycle_walk g fuel nic path visited current = Returns (Found c) ∧
       chain c ∧ head c = last c ∧ (2 ≤ length c)%nat.
Proof.
  induction fuel as [|fuel IH]; intros path visited current Hinv Hfuel.
  { destruct Hinv as [_ _ _ Hnd Hsub].
    assert (length path ≤ length nic)%nat
      by (apply submseteq_length, NoDup_submseteq; done). lia. }
  pose proof Hinv as [Hchain Hlast Hvis Hnd Hsub].
  assert (Hcur : current ∈ path).
  { rewrite last_lookup in Hlast. by apply list_elem_of_lookup_2 in Hlast. }
  destruct (Hclosed current (Hsub _ Hcur)) as (Hcn & d & Hd & Hdn).
  simpl. unfold dict_get. rewrite (reverse_lookup_nodes current Hcn). simpl.
  destruct (filter (λ dep, dep ∈ nic) (get_dependencies g current))
    as [|next rest] eqn:Hf.
  { assert (d ∈ filter (λ dep, dep ∈ nic) (get_dependencies g current))
      by (apply list_elem_of_filter; done).
    rewrite Hf in *. by apply elem_of_nil in H. }
  assert (Hnext : next ∈ nic ∧ depends_on g current next).
  { assert (Hin : next ∈ filter (λ dep, dep ∈ nic) (get_dependencies g current))
      by (rewrite Hf; left).
    by apply list_elem_of_filter in Hin. }
  destruct Hnext as [Hnn Hnd'].
  destruct (decide (next ∈ visited)) as [Hv|Hv].
  - apply Hvis in Hv. destruct (list_index_elem next path Hv) as (j & -> & Hj).
    eexists. split; [done|].
    assert (Hlen : (j < length path)%nat) by (by apply lookup_lt_Some in Hj).
    assert (Hdrop0 : drop j path !! 0%nat = Some next)
      by (by rewrite lookup_drop, Nat.add_0_r).
    assert (Hdlast : last (drop j path) = Some current).
    { rewrite last_lookup, lookup_drop, length_drop.
      rewrite last_lookup in Hlast.
      by replace (j + pred (length path - j))%nat with (pred (length path)) by lia. }
    split; [|split].
    + apply (chain_snoc _ current); [|done|done].
      intros i x y Hx Hy. rewrite lookup_drop in Hx, Hy.
      apply (Hchain (j + i)%nat x y); [done|].
      by replace (S (j + i)) with (j + S i)%nat by lia.
    + rewrite last_snoc. destruct (drop j path); [done|].
      simpl in *. congruence.
    + rewrite length_app, length_drop. simpl. lia.
  - assert (Hnp : next ∉ path) by (by rewrite <- Hvis).
    assert (Hinv' : walk_inv nic (path ++ [next]) ({[next]} ∪ visited) next).
    { split.
      - by apply (chain_snoc path current).
      - by rewrite last_snoc.
      - intros x. rewrite elem_of_union, elem_of_singleton, elem_of_app,
          list_elem_of_singleton, Hvis. tauto.
      - apply NoDup_app. split; [done|]. split; [|apply NoDup_singleton].
        intros x Hx. rewrite list_elem_of_singleton. by intros ->.
      - intros x. rewrite elem_of_app, list_elem_of_singleton.
        intros [?| ->]; [by apply Hsub | done]. }
    assert (length (path ++ [next]) ≤ length nic)%nat.
    { apply submseteq_length, NoDup_submseteq;
        [apply (wi_nodup _ _ _ _ Hinv') | apply (wi_sub _ _ _ _ Hinv')]. }
    rewrite decide_False by lia.
    apply IH; [done|]. rewrite length_app. simpl. lia.
Qed.

Lemma find_cycle_path_closed nic :
  nic ≠ [] → closed nic →
  ∃ c, _find_cycle_path g nic = Returns c ∧
       chain c ∧ head c = last c ∧ (2 ≤ length c)%nat.
Proof.
  intros Hne Hclosed. destruct nic as [|start rest]; [done|].
  destruct (cycle_walk_closed (start :: rest) Hclosed
              (S (length (start :: rest) * 2)) [start] {[start]} start)
    as (c & Hc & Hc1).
  - split.
    + intros i x y Hx Hy. destruct i; simpl in Hy; done.
    + done.
    + intros x. rewrite elem_of_singleton, list_elem_of_singleton. done.
    + apply NoDup_singleton.
    + intros x ->%list_elem_of_singleton. left.
  - simpl. lia.
  - exists c. split; [|done]. cbn [_find_cycle_path]. by rewrite Hc.
Qed.

(** The two results of the topological sort, with the shape of the reported
    path. *)
Lemma get_ordered_resources_shape :
  (∃ ordered, get_ordered_resources set_iter g = Returns ordered ∧ acyclic g)
  ∨
  (∃ c, get_ordered_resources set_iter g = Raises (CyclicDependencyError c) ∧
     (∃ n, tc (depends_on g) n n) ∧
     chain c ∧ head c = last c ∧ (2 ≤ length c)%nat).
Proof.
  destruct get_ordered_resources_cases
    as [(ordered & Hret & Hnd & Hall & Htop) | (c & Hret & Hc & Hreach)].
  { left. exists ordered. split; [done|].
    apply (topological_acyclic ordered Htop). intros n. apply Hall. }
  right. exists c. split; [done|]. split.
  { destruct c as [|x c]; [done|]. exists x. apply Hreach; left. }
  revert Hret. unfold get_ordered_resources.
  destruct (in_degree_of_spec (set_iter (nodes g)) ∅) as (m & -> & Hm).
  { intros n. apply set_iter_elem. }
  cbn [bind].
  destruct (kahn_loop_spec (length (set_iter (nodes g))) m
              (filter (λ n, m !! n = Some 0) (set_iter (nodes g))) [])
    as (ind & ordered & -> & Hinv & Htop).
  { by apply kahn_inv_init. }
  { intros i n d Hi. by rewrite lookup_nil in Hi. }
  { simpl. lia. }
  cbn [bind fst snd].
  destruct (kahn_inv_final ind ordered Hinv) as (Hnd & Hsub & Hpos & Hstuck).
  set (remaining := filter (λ node, positive_degree ind node = true)
                           (set_iter (nodes g))).
  assert (Hrem : ∀ n, n ∈ remaining ↔ n ∈ nodes g ∧ n ∉ ordered).
  { intros n. unfold remaining. rewrite list_elem_of_filter, set_iter_elem.
    split.
    - intros [Hp Hn]. split; [done|]. by apply (Hpos n Hn).
    - intros [Hn Hno]. split; [|done]. by apply (Hpos n Hn). }
  destruct remaining as [|r rem] eqn:Hr; [done|].
  destruct (find_cycle_path_closed (r :: rem)) as (c' & -> & Hshape).
  - done.
  - intros n [Hn Hno]%Hrem. split; [done|].
    destruct (Hstuck n Hn Hno) as (d & Hd & Hdn & Hdo).
    exists d. split; [done|]. apply Hrem. done.
  - cbn [bind]. by intros [= <-].
Qed.

(** [has_cycle] decides whether the graph has a dependency cycle. *)
Theorem has_cycle_decides :
  (has_cycle set_iter g = Returns true ↔ ∃ n, tc (depends_on g) n n) ∧
  (has_cycle set_iter g = Returns false ↔ acyclic g).
Proof.
  unfold has_cycle.
  destruct get_ordered_resources_shape
    as [(ordered & -> & Hacyc) | (c & -> & [n Hn] & _)].
  - split; split; try done. intros [n Hn]. by destruct (Hacyc n).
  - split; split; try done; [by exists n|]. intros Hacyc. by destruct (Hacyc n).
Qed.

(** [get_cycle_path] returns the empty list exactly on acyclic graphs; any
    other path it returns is a closed walk: its consecutive entries are linked
    by a dependency and it ends at the node it starts from. *)
Theorem get_cycle_path_closed_walk :
  ∃ cycle_path,
    get_cycle_path set_iter g = Returns cycle_path ∧
    (cycle_path = [] ↔ acyclic g) ∧
    (cycle_path ≠ [] →
       (∀ i x y, cycle_path !! i = Some x → cycle_path !! S i = Some y →
          depends_on g x y) ∧
       head cycle_path = last cycle_path ∧ (2 ≤ length cycle_path)%nat).
Proof.
  unfold get_cycle_path.
  destruct get_ordered_resources_shape
    as [(ordered & -> & Hacyc) | (c & -> & [n Hn] & Hchain & Hends & Hlen)].
  - exists []. split; [done|]. split; [done | done].
  - exists c. split; [done|]. split; [|done].
    split.
    + intros ->. simpl in Hlen. lia.
    + intros Hacyc. by destruct (Hacyc n).
Qed.

Lemma batch_loop_prefix ordered fuel : ∀ batches deployed result,
  batch_loop g fuel ordered batches deployed = Returns result →
  ∃ rest, result = batches ++ rest.
Proof.
  induction fuel as [|fuel IH]; intros batches deployed result; cbn [batch_loop];
    case_decide; try done; try (intros [= <-]; exists []; by rewrite app_nil_r).
  destruct (filter (ready g deployed) ordered) as [|r batch]; [done|].
  intros (rest & ->)%IH. exists ((r :: batch) :: rest). by rewrite <- app_assoc.
Qed.

(** The first deployment batch holds exactly the nodes without dependencies
    (and there is no batch at all only when the graph has no node). *)
Theorem first_batch_is_the_roots batches :
  get_deployment_batches set_iter g = Returns batches →
  ∀ n, n ∈ default [] (head batches) ↔ n ∈ nodes g ∧ get_dependencies g n = [].
Proof.
  unfold get_deployment_batches.
  destruct get_ordered_resources_cases
    as [(ordered & -> & Hnd & Hall & Htop) | (c & -> & _)]; [|done].
  cbn [bind]. destruct ordered as [|o ordered].
  { simpl. intros [= <-] n. simpl. split; [by intros ?%elem_of_nil|].
    intros [Hn _]. by apply Hall in Hn. }
  cbn [length batch_loop]. rewrite decide_True by (rewrite size_empty; simpl; lia).
  destruct (filter (ready g ∅) (o :: ordered)) as [|r batch] eqn:Hb; [done|].
  intros (rest & ->)%batch_loop_prefix n. simpl. rewrite <- Hb.
  rewrite list_elem_of_filter, Hall. unfold ready. split.
  - intros [[_ Hdeps] Hn]. split; [done|].
    destruct (get_dependencies g n) as [|d ds]; [done|].
    apply Forall_cons in Hdeps as [Hd _]. by apply elem_of_empty in Hd.
  - intros [Hn ->]. split; [|done]. split; [apply not_elem_of_empty | constructor].
Qed.

End Kahn.

(** *** Adding nodes and dependencies *)

Lemma get_dependencies_add_node g x n :
  wf g → get_dependencies (add_node g x) n = get_dependencies g n.
Proof.
  intros Hg. unfold add_node. case_decide as Hin; [done|].
  unfold get_dependencies. simpl. rewrite lookup_insert.
  destruct (decide (x = n)) as [<-|]; [|done].
  destruct (reverse_graph g !! x) eqn:E; [|done].
  exfalso. apply Hin, (wf_reverse_dom g Hg). eauto.
Qed.

Lemma nodes_add_node g x : nodes (add_node g x) = {[x]} ∪ nodes g.
Proof. unfold add_node. case_decide; simpl; set_solver. Qed.

Lemma add_dependency_spec g node dep :
  wf g →
  ∃ g', add_dependency g node dep = Returns g' ∧ wf g' ∧
        nodes g' = {[node; dep]} ∪ nodes g ∧
        (∀ n d, depends_on g' n d ↔ depends_on g n d ∨ (n = node ∧ d = dep)).
Proof.
  intros Hg. destruct (wf_add_dependency g node dep Hg) as (g' & Hret & Hg').
  exists g'. split; [done|]. split; [done|].
  revert Hret. unfold add_dependency.
  set (g1 := add_node (add_node g node) dep).
  assert (Hg1 : wf g1) by (by do 2 apply wf_add_node).
  assert (Hn1 : nodes g1 = {[node; dep]} ∪ nodes g).
  { unfold g1. rewrite !nodes_add_node. set_solver. }
  assert (Hd1 : ∀ n, get_dependencies g1 n = get_dependencies g n).
  { intros n. unfold g1.
    rewrite get_dependencies_add_node by (by apply wf_add_node).
    by apply get_dependencies_add_node. }
  assert (Hnode : node ∈ nodes g1) by (rewrite Hn1; set_solver).
  assert (Hdep : dep ∈ nodes g1) by (rewrite Hn1; set_solver).
  pose proof Hdep as Hout. apply (wf_graph_dom g1 Hg1) in Hout as [out Hout].
  pose proof Hnode as Hinc. apply (wf_reverse_dom g1 Hg1) in Hinc as [inc Hinc].
  unfold dict_get. rewrite Hout, Hinc. cbn [bind].
  pose proof (get_dependents_lookup _ _ _ Hout) as Eout.
  pose proof (get_dependencies_lookup _ _ _ Hinc) as Einc.
  pose proof (wf_mirror g1 Hg1 node dep) as Hm. rewrite Eout, Einc in Hm.
  intros [= <-]. split; [done|]. intros n d. unfold depends_on at 1 2.
  rewrite <- Hd1. unfold get_dependencies at 1. simpl.
  destruct (decide (dep ∈ inc)) as [Hin|Hin].
  - fold (get_dependencies g1 n). split; [by left|].
    intros [?|[-> ->]]; [done | by rewrite Einc].
  - rewrite lookup_insert. destruct (decide (node = n)) as [<-|Hne]; simpl.
    + rewrite elem_of_app, list_elem_of_singleton, Einc. naive_solver.
    + fold (get_dependencies g1 n). naive_solver.
Qed.

(** A call of the building interface, and a sequence of them applied to a
    graph. *)
Inductive graph_call : Type :=
| AddNode (node : string)
| AddDependency (node dep : string).

Fixpoint build (g : DependencyGraph) (calls : list graph_call)
  : outcome DependencyGraph :=
  match calls with
  | [] => Returns g
  | AddNode node :: rest => build (add_node g node) rest
  | AddDependency node dep :: rest =>
      do g' <- add_dependency g node dep; build g' rest
  end.

Lemma build_spec calls : ∀ g,
  wf g →
  ∃ g', build g calls = Returns g' ∧ wf g' ∧
        (∀ n d, depends_on g' n d
                ↔ depends_on g n d ∨ AddDependency n d ∈ calls) ∧
        (∀ n, n ∈ nodes g'
              ↔ n ∈ nodes g ∨ AddNode n ∈ calls ∨
                ∃ m, AddDependency n m ∈ calls ∨ AddDependency m n ∈ calls).
Proof.
  induction calls as [|[x|x y] rest IH]; intros g Hg.
  - exists g. split; [done|]. split; [done|]. split.
    + intros n d. rewrite elem_of_nil. tauto.
    + intros n. rewrite elem_of_nil.
      split; [tauto|]. intros [?|[[]|[m [H|H]]]]; [done|..];
        by apply elem_of_nil in H.
  - cbn [build].
    destruct (IH (add_node g x) (wf_add_node g x Hg)) as (g' & -> & Hg' & Hd & Hn).
    exists g'. split; [done|]. split; [done|]. split.
    + intros n d. rewrite Hd. unfold depends_on.
      rewrite get_dependencies_add_node by done. rewrite elem_of_cons.
      naive_solver.
    + intros n. rewrite Hn, nodes_add_node.
      setoid_rewrite elem_of_cons. set_solver.
  - cbn [build].
    destruct (add_dependency_spec g x y Hg) as (g1 & -> & Hg1 & Hn1 & Hd1).
    cbn [bind].
    destruct (IH g1 Hg1) as (g' & -> & Hg' & Hd & Hn).
    exists g'. split; [done|]. split; [done|]. split.
    + intros n d. rewrite Hd, Hd1, elem_of_cons. naive_solver.
    + intros n. rewrite Hn, Hn1. setoid_rewrite elem_of_cons.
      rewrite elem_of_union, elem_of_union, !elem_of_singleton.
      naive_solver.
Qed.

(** A graph built from the empty one through [add_node] and [add_dependency]
    alone is always built without an error and is exactly what was asked for:
    it satisfies the representation invariant that the other results assume,
    its dependencies are the pairs added, its nodes the names mentioned, and
    [get_dependents] mirrors [get_dependencies]. *)
Theorem graph_built_through_the_interface calls :
  ∃ g, build empty_graph calls = Returns g ∧ wf g ∧
       (∀ n d, depends_on g n d ↔ AddDependency n d ∈ calls) ∧
       (∀ n, n ∈ nodes g
             ↔ AddNode n ∈ calls ∨
               ∃ m, AddDependency n m ∈ calls ∨ AddDependency m n ∈ calls) ∧
       (∀ n d, n ∈ get_dependents g d ↔ d ∈ get_dependencies g n).
Proof.
  destruct (build_spec calls empty_graph wf_empty) as (g & Hb & Hg & Hd & Hn).
  exists g. split; [done|]. split; [done|]. split; [|split].
  - intros n d. rewrite Hd. unfold depends_on, get_dependencies. simpl.
    rewrite lookup_empty. simpl. rewrite elem_of_nil. tauto.
  - intros n. rewrite Hn. simpl. set_solver.
  - apply (wf_mirror g Hg).
Qed.

(** [add_dependency] on a graph built through the API never raises: it keeps
    the representation invariant, adds the two nodes, adds exactly the one
    dependency, and repeating the call changes nothing. *)
Theorem add_dependency_records_edge g node dep :
  wf g →
  ∃ g', add_dependency g node dep = Returns g' ∧ wf g' ∧
        nodes g' = {[node; dep]} ∪ nodes g ∧
        (∀ n d, depends_on g' n d ↔ depends_on g n d ∨ (n = node ∧ d = dep)) ∧
        add_dependency g' node dep = Returns g'.
Proof.
  intros Hg. destruct (add_dependency_spec g node dep Hg)
    as (g' & Hret & Hg' & Hnodes & Hedges).
  exists g'. split; [done|]. split; [done|]. split; [done|]. split; [done|].
  assert (Hnode : node ∈ nodes g') by (rewrite Hnodes; set_solver).
  assert (Hdep : dep ∈ nodes g') by (rewrite Hnodes; set_solver).
  assert (Hd : depends_on g' node dep) by (apply Hedges; by right).
  unfold add_dependency, add_node.
  rewrite (decide_True _ _ Hnode), (decide_True _ _ Hdep).
  pose proof Hdep as Hout. apply (wf_graph_dom g' Hg') in Hout as [out Hout].
  pose proof Hnode as Hinc. apply (wf_reverse_dom g' Hg') in Hinc as [inc Hinc].
  unfold dict_get. rewrite Hout, Hinc. cbn [bind].
  pose proof Hd as Hd'. apply (wf_mirror g' Hg') in Hd'.
  rewrite (get_dependents_lookup _ _ _ Hout) in Hd'.
  unfold depends_on in Hd. rewrite (get_dependencies_lookup _ _ _ Hinc) in Hd.
  rewrite (decide_True _ _ Hd'), (decide_True _ _ Hd). by destruct g'.
Qed.

(** A node made to depend on itself is reported as a cycle. *)
Theorem self_dependency_is_a_cycle set_iter g node g' :
  (∀ s, set_iter s ≡ₚ elements s) → wf g →
  add_dependency g node node = Returns g' →
  has_cycle set_iter g' = Returns true.
Proof.
  intros Hperm Hg Hret.
  destruct (add_dependency_spec g node node Hg) as (g2 & Hret2 & Hg2 & _ & Hedges).
  assert (g2 = g') by congruence. subst g2.
  unfold has_cycle.
  destruct (get_ordered_resources_shape set_iter Hperm g' Hg2)
    as [(ordered & _ & Hacyc) | (c & -> & _)]; [|done].
  destruct (Hacyc node). apply tc_once, Hedges. by right.
Qed.

(** *** The graphs of the specification's example *)

Definition add_dependency_or (g : DependencyGraph) (node dep : string)
  : DependencyGraph :=
  match add_dependency g node dep with
  | Returns g' => g'
  | _ => g
  end.

Lemma wf_add_dependency_or g node dep : wf g → wf (add_dependency_or g node dep).
Proof.
  intros Hg. unfold add_dependency_or.
  by destruct (wf_add_dependency g node dep Hg) as (g' & -> & Hg').
Qed.

(** [C] depends on [B], which depends on [A]. *)
Definition chain_graph : DependencyGraph :=
  add_dependency_or (add_dependency_or empty_graph "B" "A") "C" "B".

(** The same with [A] depending on [C]. *)
Definition looped_graph : DependencyGraph :=
  add_dependency_or chain_graph "A" "C".

Lemma wf_chain_graph : wf chain_graph.
Proof. do 2 apply wf_add_dependency_or. apply wf_empty. Qed.

Lemma wf_looped_graph : wf looped_graph.
Proof. apply wf_add_dependency_or, wf_chain_graph. Qed.

Lemma elements_perm (s : gset string) : elements s ≡ₚ elements s.
Proof. done. Qed.

Lemma chain_graph_ordered :
  get_ordered_resources elements chain_graph = Returns ["A"; "B"; "C"]%string.
Proof. vm_compute. reflexivity. Qed.

Lemma chain_graph_batches :
  get_deployment_batches elements chain_graph
  = Returns [["A"]; ["B"]; ["C"]]%string.
Proof. vm_compute. reflexivity. Qed.

Lemma acyclic_chain_graph : acyclic chain_graph.
Proof.
  pose proof (get_ordered_resources_cases elements elements_perm
                chain_graph wf_chain_graph) as Hcases.
  rewrite chain_graph_ordered in Hcases.
  destruct Hcases as [(ordered & [= <-] & _ & Hall & Htop) | (c & [=] & _)].
  apply (topological_acyclic chain_graph wf_chain_graph _ Htop).
  intros n. apply Hall.
Qed.

Lemma looped_graph_has_cycle : ∃ n, tc (depends_on looped_graph) n n.
Proof.
  exists "A"%string.
  apply tc_l with "C"%string; [vm_compute; left|].
  apply tc_l with "B"%string; [vm_compute; left|].
  apply tc_once. vm_compute. left.
Qed.

Lemma get_ordered_resources_topological_order_witness :
  ∃ ordered,
    get_ordered_resources elements chain_graph = Returns ordered ∧
    NoDup ordered ∧
    (∀ n, n ∈ ordered ↔ n ∈ nodes chain_graph) ∧
    (∀ node dep, depends_on chain_graph node dep →
       ∃ i j, ordered !! i = Some dep ∧ ordered !! j = Some node ∧ (i < j)%nat).
Proof.
  exact (get_ordered_resources_topological_order elements elements_perm
           chain_graph wf_chain_graph acyclic_chain_graph).
Defined.

Lemma get_deployment_batches_partition_witness :
  ∃ batches,
    get_deployment_batches elements chain_graph = Returns batches ∧
    Forall (λ b, b ≠ []) batches ∧
    NoDup (concat batches) ∧
    (∀ n, n ∈ concat batches ↔ n ∈ nodes chain_graph) ∧
    topological chain_graph (concat batches) ∧
    (∀ j b node dep, batches !! j = Some b → node ∈ b →
       depends_on chain_graph node dep →
       ∃ i b', (i < j)%nat ∧ batches !! i = Some b' ∧ dep ∈ b').
Proof.
  exact (get_deployment_batches_partition elements elements_perm
           chain_graph wf_chain_graph acyclic_chain_graph).
Defined.

Lemma cyclic_graph_is_reported_witness :
  ∃ cycle_path,
    get_ordered_resources elements looped_graph
    = Raises (CyclicDependencyError cycle_path) ∧
    cycle_path ≠ [] ∧
    (∀ x y, x ∈ cycle_path → y ∈ cycle_path → tc (depends_on looped_graph) x y).
Proof.
  exact (proj1 (cyclic_graph_is_reported elements elements_perm
                  looped_graph wf_looped_graph) looped_graph_has_cycle).
Defined.

Lemma has_cycle_decides_witness :
  (has_cycle elements looped_graph = Returns true
   ↔ ∃ n, tc (depends_on looped_graph) n n) ∧
  (has_cycle elements looped_graph = Returns false ↔ acyclic looped_graph).
Proof.
  exact (has_cycle_decides elements elements_perm looped_graph wf_looped_graph).
Defined.

Lemma get_cycle_path_closed_walk_witness :
  ∃ cycle_path,
    get_cycle_path elements looped_graph = Returns cycle_path ∧
    (cycle_path = [] ↔ acyclic looped_graph) ∧
    (cycle_path ≠ [] →
       (∀ i x y, cycle_path !! i = Some x → cycle_path !! S i = Some y →
          depends_on looped_graph x y) ∧
       head cycle_path = last cycle_path ∧ (2 ≤ length cycle_path)%nat).
Proof.
  exact (get_cycle_path_closed_walk elements elements_perm looped_graph
           wf_looped_graph).
Defined.

Lemma first_batch_is_the_roots_witness :
  get_deployment_batches elements chain_graph
  = Returns [["A"]; ["B"]; ["C"]]%string ∧
  (∀ n, n ∈ default [] (head [["A"]; ["B"]; ["C"]]%string)
        ↔ n ∈ nodes chain_graph ∧ get_dependencies chain_graph n = []).
Proof.
  split; [exact chain_graph_batches|].
  exact (first_batch_is_the_roots elements elements_perm chain_graph
           wf_chain_graph _ chain_graph_batches).
Defined.

Lemma add_dependency_records_edge_witness :
  ∃ g', add_dependency empty_graph "B" "A" = Returns g' ∧ wf g' ∧
        nodes g' = {["B"; "A"]} ∪ nodes empty_graph ∧
        (∀ n d, depends_on g' n d
                ↔ depends_on empty_graph n d ∨ (n = "B" ∧ d = "A")) ∧
        add_dependency g' "B" "A" = Returns g'.
Proof. exact (add_dependency_records_edge empty_graph "B" "A" wf_empty). Defined.

Definition self_loop_graph : DependencyGraph :=
  add_dependency_or chain_graph "A" "A".

Lemma self_dependency_is_a_cycle_witness :
  has_cycle elements self_loop_graph = Returns true.
Proof.
  apply (self_dependency_is_a_cycle elements chain_graph "A" self_loop_graph).
  - apply elements_perm.
  - apply wf_chain_graph.
  - vm_compute. reflexivity.
Defined.

End DepGraphProofs.

(** ** retry_policies.py: exponential backoff *)

Module BackoffProofs.
Import Backoff.
Local Open Scope Q_scope.

(** The delay [get_delay] returns when the power fits a float. *)
Definition delay_value (p : ExponentialBackoff) (attempt : Z) (draw : Q) : Q :=
  let delay := Qmin (base_delay p * 2 ^ attempt) (max_delay p) in
  let delay :=
    if jitter p then
      let jitter_amount := delay * (1 # 4) in
      delay + uniform (- jitter_amount) jitter_amount draw
    else delay in
  Qmax 0 delay.

Lemma get_delay_returns p n draw :
  (n < 1024)%Z → get_delay p n draw = inl (delay_value p n draw).
Proof.
  intros Hn. unfold get_delay, float_times_power. by rewrite decide_False by lia.
Qed.

Lemma get_delay_overflows p n draw :
  (1024 <= n)%Z →
  get_delay p n draw = inr (OverflowError "int too large to convert to float").
Proof.
  intros Hn. unfold get_delay, float_times_power. by rewrite decide_True by lia.
Qed.

Lemma delay_value_nonneg p n draw : 0 <= delay_value p n draw.
Proof. unfold delay_value. apply Q.le_max_l. Qed.

Lemma get_delay_nonneg p n draw d : get_delay p n draw = inl d → 0 <= d.
Proof.
  unfold get_delay. destruct (float_times_power _ _); [|done].
  intros [= <-]. apply Q.le_max_l.
Qed.

Lemma delay_value_no_jitter p n draw :
  jitter p = false → delay_value p n draw = Qmax 0 (capped p n).
Proof. unfold delay_value, capped. by intros ->. Qed.

Lemma capped_mono p n m :
  0 <= base_delay p → (n <= m)%Z → capped p n <= capped p m.
Proof.
  intros Hb Hnm. unfold capped. apply Q.min_le_compat_r.
  rewrite (Qmult_comm _ (2 ^ n)), (Qmult_comm _ (2 ^ m)).
  apply Qmult_le_compat_r; [|done].
  apply Qpower_le_compat_l; [done | discriminate].
Qed.

Lemma capped_neg p n : base_delay p < 0 → capped p n < 0.
Proof.
  intros Hb. unfold capped.
  apply Qle_lt_trans with (base_delay p * 2 ^ n); [apply Q.le_min_l|].
  assert (H2 : 0 < 2 ^ n) by (by apply Qpower_0_lt).
  rewrite <- (Qmult_0_l (2 ^ n)). by apply Qmult_lt_compat_r.
Qed.

(** Without jitter the delay never decreases with the attempt number. *)
Lemma delay_value_no_jitter_mono p n m d1 d2 :
  jitter p = false → (n <= m)%Z → delay_value p n d1 <= delay_value p m d2.
Proof.
  intros Hj Hnm. rewrite !delay_value_no_jitter by done.
  destruct (Qlt_le_dec (base_delay p) 0) as [Hneg|Hpos].
  - pose proof (capped_neg p n Hneg). pose proof (capped_neg p m Hneg).
    rewrite !Q.max_l by (by apply Qlt_le_weak). apply Qle_refl.
  - apply Q.max_le_compat_l. by apply capped_mono.
Qed.

Lemma capped_nonneg p n :
  0 <= base_delay p → 0 <= max_delay p → 0 <= capped p n.
Proof.
  intros Hb Hm. unfold capped. apply Q.min_glb; [|done].
  apply Qmult_le_0_compat; [done|]. apply Qpower_0_le. discriminate.
Qed.

Lemma delay_value_jitter p n draw :
  jitter p = true →
  delay_value p n draw == Qmax 0 (capped p n * ((3 # 4) + (1 # 2) * draw)).
Proof.
  intros Hj. unfold delay_value, uniform. rewrite Hj. fold (capped p n).
  apply Q.max_compat; [reflexivity|]. ring.
Qed.

Lemma power_doubles n m : (0 <= n)%Z → (n < m)%Z → 2 * 2 ^ n <= 2 ^ m.
Proof.
  intros Hn Hnm.
  assert (H1 : 2 ^ (n + 1) == 2 ^ n * 2) by (by apply Qpower_plus).
  assert (H2 : 2 ^ (n + 1) <= 2 ^ m)
    by (apply Qpower_le_compat_l; [lia | discriminate]).
  rewrite H1 in H2. lra.
Qed.

(** With jitter the delay does not decrease either, as long as the later
    attempt is not cut by the cap: doubling outweighs a quarter up or down. *)
Lemma delay_value_below_cap p n m d d' :
  jitter p = true → 0 <= d < 1 → 0 <= d' < 1 → (0 <= n)%Z → (n < m)%Z →
  base_delay p * 2 ^ m <= max_delay p →
  delay_value p n d <= delay_value p m d'.
Proof.
  intros Hj [Hd0 Hd1] [Hd0' Hd1'] Hn Hnm Hcap.
  rewrite !delay_value_jitter by done.
  apply Q.max_lub; [apply Q.le_max_l|].
  destruct (Qlt_le_dec (base_delay p) 0) as [Hneg|Hpos].
  - apply Qle_trans with 0; [|apply Q.le_max_l].
    pose proof (capped_neg p n Hneg) as Hc.
    assert (0 <= (- capped p n) * ((3 # 4) + (1 # 2) * d))
      by (apply Qmult_le_0_compat; lra).
    lra.
  - apply Qle_trans with (capped p m * ((3 # 4) + (1 # 2) * d'));
      [|apply Q.le_max_r].
    pose proof (power_doubles n m Hn Hnm) as Hpow.
    assert (H2n : 0 < 2 ^ n) by (by apply Qpower_0_lt).
    set (A := base_delay p * 2 ^ n). set (B := base_delay p * 2 ^ m).
    assert (HA : 0 <= A) by (apply Qmult_le_0_compat; lra).
    assert (HAB : 2 * A <= B).
    { unfold A, B.
      assert (0 <= base_delay p * (2 ^ m - 2 * 2 ^ n))
        by (apply Qmult_le_0_compat; lra).
      lra. }
    assert (Hcm : capped p m == B) by (unfold capped; by apply Q.min_l).
    assert (Hcn : capped p n <= A) by (unfold capped; apply Q.le_min_l).
    assert (Hcn0 : 0 <= capped p n).
    { unfold capped. apply Q.min_glb; [done|]. fold B in Hcap. lra. }
    rewrite Hcm.
    assert (H1 : 0 <= (A - capped p n) * ((3 # 4) + (1 # 2) * d))
      by (apply Qmult_le_0_compat; lra).
    assert (H2 : 0 <= A * ((1 # 2) - (1 # 2) * d))
      by (apply Qmult_le_0_compat; lra).
    assert (H3 : 0 <= B * ((1 # 2) * d'))
      by (apply Qmult_le_0_compat; lra).
    lra.
Qed.




(** *** [execute_sync] *)

Section Retry.

Variable World : Type.
Variable T : Type.
Variable draw : Z → Q.
Variable p : ExponentialBackoff.
Variable func : World → (T + exn) * World.

Local Abbreviation retry_loop := (retry_loop World T draw p func).
Local Abbreviation after := (world_after World T func).

(** The delays slept after the attempts [first], ..., [first + count - 1]. *)
Definition delays (first count : nat) : list Q :=
  map (λ i, delay_value p (Z.of_nat i) (draw (Z.of_nat i))) (seq first count).

Lemma world_after_S w i : after (snd (func w)) i = after w (S i).
Proof.
  unfold world_after. induction i as [|i IH]; [done|].
  simpl in *. by rewrite IH.
Qed.

(** [k] failing attempts, each followed by a sleep. *)
Lemma retry_loop_skip k : ∀ remaining j last slept w,
  (∀ i, (i < k)%nat → ∃ e, fst (func (after w i)) = inr e) →
  (Z.of_nat (j + k) ≤ max_attempts p - 1)%Z →
  (j + k ≤ 1024)%nat →
  ∃ last',
    retry_loop (k + remaining) (Z.of_nat j) last slept w
    = retry_loop remaining (Z.of_nat (j + k)) last' (slept ++ delays j k)
                 (after w k).
Proof.
  induction k as [|k IH]; intros remaining j last slept w Hfail Hle Hfit.
  { exists last. unfold delays. simpl. by rewrite Nat.add_0_r, app_nil_r. }
  cbn [Nat.add Backoff.retry_loop].
  destruct (Hfail 0%nat ltac:(lia)) as [e He]. simpl in He.
  destruct (func w) as [[v|e'] w'] eqn:Hw; [done|]. simpl in He.
  rewrite decide_True by lia. rewrite get_delay_returns by lia.
  destruct (IH remaining (S j) (Some e')
              (slept ++ [delay_value p (Z.of_nat j) (draw (Z.of_nat j))]) w')
    as [last' Heq].
  - intros i Hi. replace w' with (snd (func w)) by (by rewrite Hw).
    rewrite world_after_S. apply Hfail. lia.
  - lia.
  - lia.
  - exists last'. replace (Z.of_nat j + 1)%Z with (Z.of_nat (S j)) by lia.
    rewrite Heq. replace w' with (snd (func w)) by (by rewrite Hw).
    rewrite world_after_S. replace (S j + k)%nat with (j + S k)%nat by lia.
    unfold delays. simpl. by rewrite <- app_assoc.
Qed.

(** After 1024 failing attempts the next failure makes the handler ask for
    [get_delay(1024)], whose [OverflowError] ends the method. *)
Lemma retry_loop_overflows remaining w :
  (∀ i, (i < 1025)%nat → ∃ e, fst (func (after w i)) = inr e) →
  (1025 < max_attempts p)%Z →
  retry_loop (1025 + remaining) 0 None [] w
  = (inr (RaisedInHandler (OverflowError "int too large to convert to float")),
     delays 0 1024, after w 1025).
Proof.
  intros Hfail Hmax.
  destruct (retry_loop_skip 1024 (S remaining) 0 None [] w) as [last' Heq].
  { intros i Hi. apply Hfail. lia. }
  { lia. }
  { lia. }
  replace (1025 + remaining)%nat with (1024 + S remaining)%nat by lia.
  change 0%Z with (Z.of_nat 0). rewrite Heq.
  cbn [Backoff.retry_loop app].
  destruct (Hfail 1024%nat ltac:(lia)) as [e He].
  destruct (func (after w 1024)) as [[v|e'] w'] eqn:Hw; [done|].
  rewrite decide_True by lia. rewrite get_delay_overflows by lia.
  do 2 f_equal.
  change (after w 1025) with (snd (func (after w 1024))). by rewrite Hw.
Qed.



Lemma retry_loop_sleeps remaining : ∀ attempt last slept w,
  (0 ≤ attempt)%Z →
  let slept' := snd (fst (retry_loop remaining attempt last slept w)) in
  (length slept' ≤ length slept
                   + Z.to_nat (Z.max 0 (max_attempts p - 1 - attempt)))%nat ∧
  (Forall (λ d, 0 <= d) slept → Forall (λ d, 0 <= d) slept').
Proof.
  induction remaining as [|r IH]; intros attempt last slept w Ha; simpl.
  { destruct last; simpl; split; (lia || done). }
  destruct (func w) as [[v|e] w']; simpl; [split; (lia || done)|].
  case_decide as Hlt.
  - destruct (get_delay p attempt (draw attempt)) as [delay|e'] eqn:Hd; simpl;
      [|split; (lia || done)].
    specialize (IH (attempt + 1)%Z (Some e) (slept ++ [delay]) w' ltac:(lia)).
    simpl in IH. destruct IH as [Hlen Hpos]. split.
    + etransitivity; [exact Hlen|]. rewrite length_app. simpl. lia.
    + intros Hall. apply Hpos. apply Forall_app. split; [done|].
      repeat constructor. by eapply get_delay_nonneg.
  - specialize (IH (attempt + 1)%Z (Some e) slept w' ltac:(lia)).
    simpl in IH. destruct IH as [Hlen Hpos]. split; [|done].
    etransitivity; [exact Hlen|]. lia.
Qed.

(** Whatever the function does, [execute_sync] sleeps at most
    [max_attempts - 1] times and never for a negative time; with no attempt
    allowed it raises without invoking the function. *)
Theorem execute_sync_sleeps w :
  let slept := snd (fst (execute_sync World T draw p func w)) in
  (Z.of_nat (length slept) ≤ Z.max 0 (max_attempts p - 1))%Z ∧
  Forall (λ d, 0 <= d) slept ∧
  ((max_attempts p ≤ 0)%Z →
     execute_sync World T draw p func w = (inr NoErrorCaptured, [], w)).
Proof.
  unfold execute_sync.
  destruct (retry_loop_sleeps (Z.to_nat (max_attempts p)) 0 None [] w ltac:(lia))
    as [Hlen Hpos].
  split; [simpl in *; lia|]. split; [by apply Hpos|].
  intros Hle. by replace (Z.to_nat (max_attempts p)) with 0%nat by lia.
Qed.

End Retry.

(** A function over a counter world that fails on its first two invocations. *)
Definition third_time_lucky (w : nat) : (string + exn) * nat :=
  if (w <? 2)%nat then (inr (OtherError "busy"), S w) else (inl "done"%string, S w).

Definition never_lucky (w : nat) : (string + exn) * nat :=
  (inr (OtherError "busy"), S w).



End BackoffProofs.

(** ** retry_policies.py: circuit breaker *)

Module BreakerProofs.
Import Breaker.

Section Facts.

Variable World : Type.
Variable clock : World → Q.
Variable T : Type.

Local Abbreviation guarded := (guarded World T).
Local Abbreviation call := (call World clock T).
Local Abbreviation calls := (calls World clock T).
Local Abbreviation execute := (execute World clock T).

Lemma call_fails_state b func w :
  fails World T func →
  let b' := snd (fst (call b func w)) in
  failure_threshold b' = failure_threshold b ∧
  (state b = OPEN → state b' = OPEN) ∧
  (state b = HALF_OPEN → state b' = OPEN) ∧
  (state b = CLOSED →
     failure_count b' = failure_count b + 1 ∧
     (failure_threshold b ≤ failure_count b + 1 → state b' = OPEN) ∧
     (failure_count b + 1 < failure_threshold b → state b' = CLOSED)).
Proof.
  intros Hf. unfold call, execute.
  destruct (state b) eqn:Hs; simpl.
  - destruct (Hf w) as (e & w' & ->). simpl. unfold _on_failure. simpl.
    rewrite Hs. case_decide; simpl; repeat split; try done; lia.
  - destruct (truthy (last_failure_time b)); [destruct (Qle_bool _ _)|]; simpl;
      try destruct (Hf w) as (e & w' & ->); simpl; unfold _on_failure; simpl;
      rewrite ?Hs; repeat split; done.
  - destruct (Hf w) as (e & w' & ->). simpl. unfold _on_failure. simpl.
    rewrite Hs. repeat split; done.
Qed.

Lemma call_succeeds_state b func w :
  succeeds World T func →
  let b' := snd (fst (call b func w)) in
  success_threshold b' = success_threshold b ∧
  (state b = CLOSED →
     state b' = CLOSED ∧ failure_count b' = 0 ∧ success_count b' = success_count b) ∧
  (state b = HALF_OPEN →
     (success_threshold b ≤ success_count b + 1 →
        state b' = CLOSED ∧ failure_count b' = 0 ∧ success_count b' = 0) ∧
     (success_count b + 1 < success_threshold b →
        state b' = HALF_OPEN ∧ success_count b' = success_count b + 1)).
Proof.
  intros Hf. unfold call, execute.
  destruct (state b) eqn:Hs; simpl.
  - destruct (Hf w) as (v & w' & ->). simpl. unfold _on_success. rewrite Hs.
    simpl. repeat split; done.
  - destruct (truthy (last_failure_time b)); [destruct (Qle_bool _ _)|]; simpl;
      try destruct (Hf w) as (v & w' & ->); simpl; unfold _on_success; simpl;
      rewrite ?Hs; try case_decide; simpl; repeat split; done.
  - destruct (Hf w) as (v & w' & ->). simpl. unfold _on_success. rewrite Hs.
    simpl. case_decide; simpl; repeat split; try done; lia.
Qed.

Lemma call_fails_or_succeeds_threshold b func w :
  failure_threshold (snd (fst (call b func w))) = failure_threshold b ∧
  success_threshold (snd (fst (call b func w))) = success_threshold b.
Proof.
  assert (Hexec : ∀ b,
    failure_threshold (snd (fst (execute b func w))) = failure_threshold b ∧
    success_threshold (snd (fst (execute b func w))) = success_threshold b).
  { intros b0. unfold execute, _on_success, _on_failure.
    destruct (func w) as [[v|e] w']; destruct (state b0) eqn:Hs; simpl;
      rewrite ?Hs; try case_decide; done. }
  unfold call. destruct (state b); [apply Hexec | | apply Hexec].
  destruct (truthy (last_failure_time b)); [|apply Hexec].
  destruct (Qle_bool _ _); [|done].
  by destruct (Hexec (set_success_count (set_state b HALF_OPEN) 0)).
Qed.

Lemma calls_cons b func rest w :
  calls b (func :: rest) w
  = calls (snd (fst (call b func w))) rest (snd (call b func w)).
Proof. simpl. by destruct (call b func w) as [[r b'] w']. Qed.

Lemma calls_fail_open funcs : ∀ b w,
  Forall (fails World T) funcs →
  state b = OPEN ∨
  (state b = CLOSED ∧
   failure_threshold b ≤ failure_count b + Z.of_nat (length funcs) ∧
   (failure_count b < failure_threshold b ∨ funcs ≠ [])) →
  state (fst (calls b funcs w)) = OPEN.
Proof.
  induction funcs as [|func rest IH]; intros b w Hall Hb.
  - simpl. destruct Hb as [?|(? & ? & [?|?])]; [done | simpl in *; lia | done].
  - apply Forall_cons in Hall as [Hf Hall]. rewrite calls_cons.
    destruct (call_fails_state b func w Hf) as (Hth & Hopen & _ & Hclosed).
    apply IH; [done|].
    destruct Hb as [Hs|(Hs & Hle & _)]; [left; by apply Hopen|].
    destruct (Hclosed Hs) as (Hcount & Hge & Hlt).
    destruct (decide (failure_threshold b ≤ failure_count b + 1)) as [Hd|Hd].
    + left. by apply Hge.
    + right. split; [apply Hlt; lia|]. rewrite Hth, Hcount.
      split; [|left; lia]. simpl length in Hle. lia.
Qed.

Lemma calls_succeed_closed funcs : ∀ b w,
  Forall (succeeds World T) funcs →
  (state b = CLOSED ∧ failure_count b = 0 ∧ success_count b = 0) ∨
  (state b = HALF_OPEN ∧
   success_threshold b ≤ success_count b + Z.of_nat (length funcs) ∧
   (success_count b < success_threshold b ∨ funcs ≠ [])) →
  let b' := fst (calls b funcs w) in
  state b' = CLOSED ∧ failure_count b' = 0 ∧ success_count b' = 0.
Proof.
  induction funcs as [|func rest IH]; intros b w Hall Hb.
  - simpl. destruct Hb as [?|(? & ? & [?|?])]; [done | simpl in *; lia | done].
  - apply Forall_cons in Hall as [Hf Hall]. rewrite calls_cons.
    destruct (call_succeeds_state b func w Hf) as (Hth & Hclosed & Hhalf).
    apply IH; [done|].
    destruct Hb as [(Hs & Hfc & Hsc)|(Hs & Hle & _)].
    { left. destruct (Hclosed Hs) as (? & ? & ?). repeat split; congruence. }
    destruct (Hhalf Hs) as (Hge & Hlt).
    destruct (decide (success_threshold b ≤ success_count b + 1)) as [Hd|Hd].
    + left. by apply Hge.
    + right. destruct Hlt as [Hst Hsc]; [lia|]. split; [done|].
      rewrite Hth, Hsc. split; [|left; lia]. simpl length in Hle. lia.
Qed.

Lemma truthy_nonzero t : ¬ (t == 0)%Q → truthy (Some t) = true.
Proof.
  intros Ht. simpl. destruct (Qeq_bool t 0) eqn:E; [|done].
  by apply Qeq_bool_eq in E.
Qed.

(** C4.  The circuit breaker's state machine: (1) from Closed,
    [failure_threshold] consecutive failed calls leave it Open; (2) while
    Open, a call made before [recovery_timeout] has elapsed since the last
    failure raises [CircuitBreakerError] and leaves breaker and world
    untouched, so the guarded function is not invoked; (3) once the timeout
    has elapsed the next call first moves to Half-Open with a zero success
    count and then executes; (4) in Half-Open, [success_threshold]
    consecutive successes leave it Closed with both counters zero; (5) a
    failure in Half-Open leaves it Open.  The last failure time is a clock
    reading other than zero, as [time.time()] gives. *)
Theorem circuit_breaker_state_machine :
  (∀ b funcs w,
     state b = CLOSED → 0 ≤ failure_count b → 1 ≤ failure_threshold b →
     Forall (fails World T) funcs →
     Z.of_nat (length funcs) = failure_threshold b →
     state (fst (calls b funcs w)) = OPEN) ∧
  (∀ b t func w,
     state b = OPEN → last_failure_time b = Some t → ¬ (t == 0)%Q →
     (clock w - t < recovery_timeout b)%Q →
     call b func w = (inr CircuitBreakerError, b, w)) ∧
  (∀ b t func w,
     state b = OPEN → last_failure_time b = Some t → ¬ (t == 0)%Q →
     (recovery_timeout b <= clock w - t)%Q →
     call b func w
     = execute (set_success_count (set_state b HALF_OPEN) 0) func w) ∧
  (∀ b funcs w,
     state b = HALF_OPEN → 0 ≤ success_count b → 1 ≤ success_threshold b →
     Forall (succeeds World T) funcs →
     Z.of_nat (length funcs) = success_threshold b →
     let b' := fst (calls b funcs w) in
     state b' = CLOSED ∧ failure_count b' = 0 ∧ success_count b' = 0) ∧
  (∀ b func w,
     state b = HALF_OPEN → fails World T func →
     state (snd (fst (call b func w))) = OPEN).
Proof.
  split; [|split; [|split; [|split]]].
  - intros b funcs w Hs Hc Ht Hall Hlen. apply calls_fail_open; [done|].
    right. split; [done|]. split; [lia|]. right. intros ->. simpl in Hlen. lia.
  - intros b t func w Hs Hl Ht Hlt. unfold call. rewrite Hs, Hl.
    rewrite truthy_nonzero by done. simpl.
    destruct (Qle_bool (recovery_timeout b) (clock w - t)) eqn:E; [|done].
    apply Qle_bool_iff in E. exfalso. by apply (Qlt_not_le _ _ Hlt).
  - intros b t func w Hs Hl Ht Hle. unfold call. rewrite Hs, Hl.
    rewrite truthy_nonzero by done. simpl.
    by rewrite (proj2 (Qle_bool_iff _ _) Hle).
  - intros b funcs w Hs Hc Ht Hall Hlen. apply calls_succeed_closed; [done|].
    right. split; [done|]. split; [lia|]. right. intros ->. simpl in Hlen. lia.
  - intros b func w Hs Hf.
    by destruct (call_fails_state b func w Hf) as (_ & _ & Hhalf & _); apply Hhalf.
Qed.

(** *** Invariant of a breaker used through [call] *)

(** What holds of a breaker between two calls: Closed with fewer failures
    than the threshold, Open with the time of a failure on record, Half-Open
    with fewer successes than the threshold. *)
Definition breaker_ok (b : CircuitBreaker) : Prop :=
  match state b with
  | CLOSED => 0 ≤ failure_count b < failure_threshold b ∧ success_count b = 0
  | OPEN => success_count b = 0 ∧ ∃ t, last_failure_time b = Some t ∧ (0 < t)%Q
  | HALF_OPEN => 0 ≤ success_count b < success_threshold b
  end.

Lemma truthy_positive t : (0 < t)%Q → truthy (Some t) = true.
Proof.
  intros Ht. apply truthy_nonzero. intros Heq. rewrite Heq in Ht.
  by apply Qlt_irrefl in Ht.
Qed.

Lemma execute_preserves_ok b func w :
  (∀ w, (0 < clock w)%Q) → 1 ≤ failure_threshold b →
  (state b = OPEN → False) →
  (state b = CLOSED → 0 ≤ failure_count b < failure_threshold b
                      ∧ success_count b = 0) →
  (state b = HALF_OPEN → 0 ≤ success_count b
                         ∧ (success_count b < success_threshold b
                            ∨ success_count b = 0)) →
  let b' := snd (fst (execute b func w)) in
  breaker_ok b' ∧ failure_threshold b' = failure_threshold b ∧
  recovery_timeout b' = recovery_timeout b ∧
  success_threshold b' = success_threshold b.
Proof.
  intros Hclock Hft Hopen Hclosed Hhalf. unfold execute.
  destruct (func w) as [[v|e] w']; simpl.
  - unfold _on_success, breaker_ok. destruct (state b) eqn:Hs; simpl.
    + rewrite Hs. destruct (Hclosed eq_refl). repeat split; (done || lia).
    + by destruct Hopen.
    + destruct (Hhalf eq_refl) as [H0 Hlt].
      case_decide; simpl; rewrite ?Hs; repeat split; (done || lia).
  - unfold _on_failure, breaker_ok. destruct (state b) eqn:Hs; simpl; rewrite ?Hs.
    + destruct (Hclosed eq_refl) as [Hfc Hsc]. case_decide; simpl; rewrite ?Hs.
      * repeat split; try done. by exists (clock w').
      * repeat split; (done || lia).
    + by destruct Hopen.
    + repeat split; try done. by exists (clock w').
Qed.

Lemma call_preserves_ok b func w :
  (∀ w, (0 < clock w)%Q) → 1 ≤ failure_threshold b → breaker_ok b →
  let b' := snd (fst (call b func w)) in
  breaker_ok b' ∧ failure_threshold b' = failure_threshold b ∧
  recovery_timeout b' = recovery_timeout b ∧
  success_threshold b' = success_threshold b.
Proof.
  intros Hclock Hft Hok. unfold call. unfold breaker_ok in Hok.
  destruct (state b) eqn:Hs.
  - apply execute_preserves_ok; try done; rewrite Hs; done.
  - destruct Hok as (Hsc & t & Ht & Hpos). rewrite Ht, truthy_positive by done.
    destruct (Qle_bool _ _).
    + apply (execute_preserves_ok (set_success_count (set_state b HALF_OPEN) 0));
        simpl; try done. intros _. split; [lia | by right].
    + simpl. unfold breaker_ok. rewrite Hs. repeat split; try done. by exists t.
  - apply execute_preserves_ok; try done; rewrite Hs; try done.
    intros _. split; [lia | left; lia].
Qed.

Lemma calls_preserve_ok funcs : ∀ b w,
  (∀ w, (0 < clock w)%Q) → 1 ≤ failure_threshold b → breaker_ok b →
  let b' := fst (calls b funcs w) in
  breaker_ok b' ∧ failure_threshold b' = failure_threshold b ∧
  recovery_timeout b' = recovery_timeout b ∧
  success_threshold b' = success_threshold b.
Proof.
  induction funcs as [|func rest IH]; intros b w Hclock Hft Hok; [done|].
  rewrite calls_cons.
  destruct (call_preserves_ok b func w Hclock Hft Hok) as (Hok' & Hf & Hr & Hsu).
  destruct (IH (snd (fst (call b func w))) (snd (call b func w)) Hclock
               ltac:(lia) Hok') as (? & ? & ? & ?).
  repeat split; [done | congruence..].
Qed.

(** Over a clock that reads positive times, a breaker built with a positive
    failure threshold and used through [call] alone keeps its invariant
    whatever the guarded functions do: Closed means fewer failures than the
    threshold, Half-Open fewer successes than the threshold, and Open means a
    failure time is on record, so that a call made within [recovery_timeout]
    of it raises [CircuitBreakerError] and invokes nothing. *)
Theorem breaker_invariant ft rt st funcs w :
  (∀ w, (0 < clock w)%Q) → 1 ≤ ft →
  let b := fst (calls (new ft rt st) funcs w) in
  let w' := snd (calls (new ft rt st) funcs w) in
  breaker_ok b ∧
  (state b = OPEN →
     ∃ t, last_failure_time b = Some t ∧
          ∀ func, (clock w' - t < rt)%Q →
                  call b func w' = (inr CircuitBreakerError, b, w')).
Proof.
  intros Hclock Hft.
  destruct (calls_preserve_ok funcs (new ft rt st) w Hclock Hft)
    as (Hok & _ & Hrt & _).
  { unfold breaker_ok. simpl. lia. }
  simpl in *. split; [done|]. intros Hs. unfold breaker_ok in Hok.
  rewrite Hs in Hok. destruct Hok as (_ & t & Ht & Hpos). exists t.
  split; [done|]. intros func Hlt. unfold call.
  rewrite Hs, Ht, truthy_positive by done. simpl. rewrite Hrt. simpl.
  destruct (Qle_bool rt (clock _ - t)) eqn:E; [|done].
  apply Qle_bool_iff in E. exfalso. by apply (Qlt_not_le _ _ Hlt).
Qed.

(** [runs_below limit run outcomes]: starting with [run] failures in a row,
    no run of failures ([false]) in [outcomes] reaches [limit]. *)
Fixpoint runs_below (limit run : Z) (outcomes : list bool) : bool :=
  match outcomes with
  | [] => true
  | true :: rest => runs_below limit 0 rest
  | false :: rest => (run + 1 <? limit) && runs_below limit (run + 1) rest
  end.

Definition behaves (func : guarded) (ok : bool) : Prop :=
  if ok then succeeds World T func else fails World T func.

(** Only consecutive failures count: a Closed breaker stays Closed through
    any number of failed calls as long as no run of failures in a row reaches
    the threshold, since every success sets the failure count back to zero. *)
Theorem interleaved_failures_keep_closed funcs : ∀ outcomes b w,
  state b = CLOSED →
  Forall2 behaves funcs outcomes →
  runs_below (failure_threshold b) (failure_count b) outcomes = true →
  state (fst (calls b funcs w)) = CLOSED.
Proof.
  induction funcs as [|func rest IH]; intros outcomes b w Hs Hall Hruns.
  { done. }
  apply Forall2_cons_inv_l in Hall as (ok & outcomes' & Hok & Hall & ->).
  rewrite calls_cons. destruct ok; simpl in Hok, Hruns.
  - destruct (call_succeeds_state b func w Hok) as (_ & Hclosed & _).
    destruct (Hclosed Hs) as (Hs' & Hfc & _).
    apply (IH outcomes'); [done | done |].
    rewrite Hfc.
    by destruct (call_fails_or_succeeds_threshold b func w) as [-> _].
  - apply andb_prop in Hruns as [Hlt Hruns]. apply Z.ltb_lt in Hlt.
    destruct (call_fails_state b func w Hok) as (Hth & _ & _ & Hclosed).
    destruct (Hclosed Hs) as (Hfc & _ & Hstay).
    apply (IH outcomes'); [by apply Hstay | done |].
    by rewrite Hth, Hfc.
Qed.

End Facts.

(** A guarded function that always raises, over a world that is just the
    clock reading. *)
Definition always_raises : guarded Q unit :=
  λ w, (inr (OtherError "boom"), w).

Lemma always_raises_fails : fails Q unit always_raises.
Proof. intros w. by exists (OtherError "boom"), w. Qed.

Lemma circuit_breaker_state_machine_witness :
  state (fst (calls Q (λ w, w) unit (new 2 60 2)
                    [always_raises; always_raises] 100%Q)) = OPEN.
Proof.
  apply (proj1 (circuit_breaker_state_machine Q (λ w, w) unit)).
  - reflexivity.
  - simpl. lia.
  - simpl. lia.
  - repeat constructor; apply always_raises_fails.
  - reflexivity.
Defined.

(** A world that is a clock reading positive times; each call takes a
    second. *)
Definition seconds (w : positive) : Q := inject_Z (Z.pos w).

Definition raises_later : guarded positive unit :=
  λ w, (inr (OtherError "boom"), Pos.succ w).

Definition returns_later : guarded positive unit :=
  λ w, (inl (), Pos.succ w).

Lemma seconds_positive w : (0 < seconds w)%Q.
Proof. unfold seconds, Qlt. simpl. lia. Qed.

Lemma breaker_invariant_witness :
  breaker_ok (fst (calls positive seconds unit (new 2 60 2)
                         [raises_later; raises_later] 100%positive)) ∧
  (state (fst (calls positive seconds unit (new 2 60 2)
                     [raises_later; raises_later] 100%positive)) = OPEN →
   ∃ t, last_failure_time (fst (calls positive seconds unit (new 2 60 2)
                                      [raises_later; raises_later] 100%positive))
        = Some t ∧
        ∀ func,
          (seconds (snd (calls positive seconds unit (new 2 60 2)
                               [raises_later; raises_later] 100%positive)) - t
           < 60)%Q →
          call positive seconds unit
               (fst (calls positive seconds unit (new 2 60 2)
                           [raises_later; raises_later] 100%positive))
               func
               (snd (calls positive seconds unit (new 2 60 2)
                           [raises_later; raises_later] 100%positive))
          = (inr CircuitBreakerError,
             fst (calls positive seconds unit (new 2 60 2)
                        [raises_later; raises_later] 100%positive),
             snd (calls positive seconds unit (new 2 60 2)
                        [raises_later; raises_later] 100%positive))).
Proof.
  apply (breaker_invariant positive seconds unit 2 60 2
           [raises_later; raises_later] 100%positive).
  - apply seconds_positive.
  - lia.
Defined.

Lemma interleaved_failures_keep_closed_witness :
  state (fst (calls positive seconds unit (new 2 60 2)
                    [raises_later; returns_later; raises_later] 100%positive))
  = CLOSED.
Proof.
  apply (interleaved_failures_keep_closed positive seconds unit
           [raises_later; returns_later; raises_later] [false; true; false]
           (new 2 60 2) 100%positive).
  - reflexivity.
  - repeat constructor.
    + intros w. by exists (OtherError "boom"), (Pos.succ w).
    + intros w. by exists (), (Pos.succ w).
    + intros w. by exists (OtherError "boom"), (Pos.succ w).
  - reflexivity.
Defined.

End BreakerProofs.

(** ** fix_orchestrator.py *)

Module FixProofs.
Import Fix.

Section Facts.

Variable World : Type.
Variable subprocess_run : string → World → subprocess_result * World.

Local Abbreviation attempt_fix := (attempt_fix World subprocess_run).
Local Abbreviation attempt_fixes := (attempt_fixes World subprocess_run).
Local Abbreviation dispatch_one := (dispatch_one World subprocess_run).

(** *** The classification dict has one entry per category *)

Lemma setdefault_append_keys d c m :
  map fst (setdefault_append d c m)
  = if decide (c ∈ map fst d) then map fst d else map fst d ++ [c].
Proof.
  induction d as [|[c' ms] d IH]; cbn [setdefault_append map fst].
  - by rewrite decide_False by apply not_elem_of_nil.
  - destruct (decide (c' = c)) as [->|Hne]; cbn [map fst].
    + by rewrite decide_True by left.
    + rewrite IH. destruct (decide (c ∈ map fst d)) as [Hin|Hin].
      * by rewrite decide_True by (by right).
      * rewrite decide_False; [done|]. set_solver.
Qed.

Lemma setdefault_append_nodup d c m :
  NoDup (map fst d) → NoDup (map fst (setdefault_append d c m)).
Proof.
  intros Hd. rewrite setdefault_append_keys. case_decide; [done|].
  apply NoDup_app. split; [done|]. split; [|apply NoDup_singleton].
  intros x Hx ->%list_elem_of_singleton. done.
Qed.

Lemma setdefault_append_nonempty d c m : setdefault_append d c m ≠ [].
Proof. destruct d as [|[c' ms] d]; simpl; [done|]. by case_decide. Qed.

Lemma classify_result_nodup d result :
  NoDup (map fst d) → NoDup (map fst (classify_result d result)).
Proof.
  intros Hd. unfold classify_result.
  destruct (status result); try done; by apply setdefault_append_nodup.
Qed.

Lemma classify_errors_nodup test_results deployment_errors :
  NoDup (map fst (_classify_errors test_results deployment_errors)).
Proof.
  unfold _classify_errors.
  assert (H1 : ∀ d, NoDup (map fst d) →
            NoDup (map fst (foldl classify_result d test_results))).
  { induction test_results as [|r rs IH]; intros d Hd; simpl; [done|].
    by apply IH, classify_result_nodup. }
  assert (H2 : ∀ es d, NoDup (map fst d) →
            NoDup (map fst (foldl (λ d error,
              setdefault_append d (_classify_deployment_error error) error) d es))).
  { induction es as [|e es IH]; intros d Hd; simpl; [done|].
    by apply IH, setdefault_append_nodup. }
  destruct deployment_errors as [[|e es]|];
    [| apply H2 |]; apply H1; constructor.
Qed.

(** Results that are neither Timeout, AuthError, ServerError nor Failure. *)
Definition passing (result : TestResult) : Prop :=
  status result = TestStatus.SUCCESS ∨ status result = TestStatus.SKIPPED.

Lemma classify_passing d test_results :
  Forall passing test_results → foldl classify_result d test_results = d.
Proof.
  induction 1 as [|r rs [Hr|Hr] _ IH]; simpl; [done|..];
    unfold classify_result at 2; by rewrite Hr.
Qed.

(** *** Dispatch *)

Lemma dispatch_spec cls : ∀ ok o w,
  ∃ recs,
    fix_attempts (snd (fst (foldl dispatch_one (ok, o, w) cls)))
    = fix_attempts o ++ recs ∧
    map error_category recs = map fst cls ∧
    Forall (λ a, fix_strategy a = _select_fix_strategy (error_category a)) recs ∧
    fst (fst (foldl dispatch_one (ok, o, w) cls))
    = ok && forallb success recs ∧
    max_fix_attempts (snd (fst (foldl dispatch_one (ok, o, w) cls)))
    = max_fix_attempts o ∧
    circuit_breaker_open (snd (fst (foldl dispatch_one (ok, o, w) cls)))
    = circuit_breaker_open o.
Proof.
  induction cls as [|[category messages] cls IH]; intros ok o w.
  { exists []. simpl. rewrite app_nil_r, andb_true_r. done. }
  cbn [foldl]. unfold dispatch_one at 2 4 6 8.
  destruct (match _select_fix_strategy category with
            | FixStrategy.UPDATE_TEMPLATE => _ | _ => _ end) as [s w'].
  match goal with |- context [foldl _ (?ok', ?o', ?w') cls] =>
    destruct (IH ok' o' w') as (recs & -> & Hcat & Hstrat & -> & -> & ->) end.
  eexists (_ :: recs). cbn [fix_attempts max_fix_attempts circuit_breaker_open].
  rewrite <- app_assoc. split; [done|]. simpl. rewrite Hcat.
  split; [done|]. split; [by constructor|]. by rewrite andb_assoc.
Qed.

Lemma attempt_fix_open o test_results deployment_errors w :
  circuit_breaker_open o = true ∨
  max_fix_attempts o ≤ Z.of_nat (length (fix_attempts o)) →
  ∃ o', attempt_fix o test_results deployment_errors w = (false, o', w) ∧
        circuit_breaker_open o' = true ∧
        fix_attempts o' = fix_attempts o ∧
        max_fix_attempts o' = max_fix_attempts o.
Proof.
  intros Hopen. unfold Fix.attempt_fix.
  destruct (circuit_breaker_open o) eqn:Hflag; [by exists o|].
  destruct Hopen as [?|Hlen]; [done|].
  rewrite decide_True by done. eexists. split; [done|]. done.
Qed.

(** A call made with the breaker closed leaves the flag down. *)
Lemma attempt_fix_closed o test_results deployment_errors w :
  breaker_closed o →
  circuit_breaker_open (snd (fst (attempt_fix o test_results deployment_errors w)))
  = false.
Proof.
  intros [Hflag Hlen]. unfold Fix.attempt_fix.
  rewrite Hflag, decide_False by lia.
  destruct (_classify_errors test_results deployment_errors) as [|e cls]; [done|].
  unfold _dispatch_fixes.
  destruct (dispatch_spec (e :: cls) true o w) as (_ & _ & _ & _ & _ & _ & ->).
  done.
Qed.

Lemma attempt_fixes_flagged o inputs w :
  circuit_breaker_open o = true →
  attempt_fixes o inputs w = (replicate (length inputs) false, o, w).
Proof.
  intros Hflag. induction inputs as [|[test_results deployment_errors] rest IH];
    [done|].
  cbn [Fix.attempt_fixes]. unfold Fix.attempt_fix. by rewrite Hflag, IH.
Qed.


(** C10.  With the breaker closed, a call whose test results are all Success
    or Skipped and whose deployment-error list is absent or empty returns
    [true] and changes neither the orchestrator (no record, same flag) nor the
    world. *)
Theorem attempt_fix_nothing_to_fix o test_results deployment_errors w :
  breaker_closed o →
  Forall passing test_results →
  deployment_errors = None ∨ deployment_errors = Some [] →
  attempt_fix o test_results deployment_errors w = (true, o, w).
Proof.
  intros [Hflag Hlen] Hpass Herr. unfold Fix.attempt_fix.
  rewrite Hflag, decide_False by lia.
  unfold _classify_errors. rewrite classify_passing by done.
  by destruct Herr as [-> | ->].
Qed.

(** *** Categories no strategy can fix *)

(** Categories whose strategy is a placeholder that always fails. *)
Definition unfixable (c : ErrorCategory.t) : Prop :=
  _select_fix_strategy c = FixStrategy.RECONFIGURE ∨
  _select_fix_strategy c = FixStrategy.UPDATE_DEPENDENCIES ∨
  _select_fix_strategy c = FixStrategy.MANUAL_INTERVENTION.

(** The category [_classify_errors] files a test result under. *)
Definition category_of (s : TestStatus.t) : option ErrorCategory.t :=
  match s with
  | TestStatus.TIMEOUT => Some ErrorCategory.TIMEOUT
  | TestStatus.AUTH_ERROR => Some ErrorCategory.AUTH_ERROR
  | TestStatus.SERVER_ERROR => Some ErrorCategory.SERVER_ERROR
  | TestStatus.FAILURE => Some ErrorCategory.UNKNOWN
  | TestStatus.SUCCESS | TestStatus.SKIPPED => None
  end.

Lemma dispatch_one_unfixable ok o w category messages :
  unfixable category →
  fst (fst (dispatch_one (ok, o, w) (category, messages))) = false.
Proof.
  intros Hc. unfold Fix.dispatch_one.
  destruct category; destruct Hc as [Hc|[Hc|Hc]]; try discriminate Hc;
    simpl; apply andb_false_r.
Qed.

Lemma dispatch_false cls o w :
  fst (fst (foldl dispatch_one (false, o, w) cls)) = false.
Proof. by destruct (dispatch_spec cls false o w) as (recs & _ & _ & _ & -> & _). Qed.

Lemma dispatch_unfixable cls : ∀ ok o w c,
  c ∈ map fst cls → unfixable c →
  fst (fst (foldl dispatch_one (ok, o, w) cls)) = false.
Proof.
  induction cls as [|[category messages] cls IH]; intros ok o w c Hin Hc.
  { by apply elem_of_nil in Hin. }
  cbn [foldl]. cbn [map fst] in Hin. apply elem_of_cons in Hin as [Heq|Hin].
  - subst c.
    pose proof (dispatch_one_unfixable ok o w category messages Hc) as H.
    destruct (dispatch_one (ok, o, w) (category, messages)) as [[ok' o'] w'].
    simpl in H. subst ok'. apply dispatch_false.
  - destruct (dispatch_one (ok, o, w) (category, messages)) as [[ok' o'] w'].
    by apply (IH _ _ _ c).
Qed.

Lemma setdefault_append_elem d c m c' :
  c' ∈ map fst (setdefault_append d c m) ↔ c' ∈ map fst d ∨ c' = c.
Proof. rewrite setdefault_append_keys. case_decide; set_solver. Qed.

Lemma classify_result_mono d result c :
  c ∈ map fst d → c ∈ map fst (classify_result d result).
Proof.
  intros Hc. unfold classify_result.
  destruct (status result); try done; apply setdefault_append_elem; by left.
Qed.

Lemma classify_result_category d result c :
  category_of (status result) = Some c → c ∈ map fst (classify_result d result).
Proof.
  unfold classify_result. destruct (status result); simpl; intros Hc;
    try discriminate Hc; injection Hc as <-; apply setdefault_append_elem;
    by right.
Qed.

Lemma classify_results_mono rs : ∀ d c,
  c ∈ map fst d → c ∈ map fst (foldl classify_result d rs).
Proof.
  induction rs as [|r rs IH]; intros d c Hc; simpl; [done|].
  by apply IH, classify_result_mono.
Qed.

Lemma classify_results_category rs : ∀ d r c,
  r ∈ rs → category_of (status r) = Some c →
  c ∈ map fst (foldl classify_result d rs).
Proof.
  induction rs as [|r' rs IH]; intros d r c Hr Hc.
  { by apply elem_of_nil in Hr. }
  simpl. apply elem_of_cons in Hr as [->|Hr].
  - by apply classify_results_mono, classify_result_category.
  - by apply (IH _ r).
Qed.

Lemma classify_deployment_mono es : ∀ d c,
  c ∈ map fst d →
  c ∈ map fst (foldl (λ d error,
         setdefault_append d (_classify_deployment_error error) error) d es).
Proof.
  induction es as [|e es IH]; intros d c Hc; simpl; [done|].
  apply IH, setdefault_append_elem. by left.
Qed.

Lemma classify_errors_category test_results deployment_errors r c :
  r ∈ test_results → category_of (status r) = Some c →
  c ∈ map fst (_classify_errors test_results deployment_errors).
Proof.
  intros Hr Hc. unfold _classify_errors.
  pose proof (classify_results_category test_results [] r c Hr Hc) as Hin.
  destruct deployment_errors as [[|e es]|]; [done | | done].
  by apply classify_deployment_mono.
Qed.

(** A failed or unauthorised test can never be fixed: with the breaker closed,
    [attempt_fix] returns [false] whenever a test result has status Failure
    or AuthError, and more generally whenever a classified category maps to
    the Reconfigure, UpdateDependencies or ManualIntervention strategy, even
    when every other fix succeeds. *)
Theorem unfixable_failures o test_results deployment_errors w :
  breaker_closed o →
  (∃ r, r ∈ test_results ∧
        (status r = TestStatus.FAILURE ∨ status r = TestStatus.AUTH_ERROR)) ∨
  (∃ c, c ∈ map fst (_classify_errors test_results deployment_errors) ∧
        unfixable c) →
  fst (fst (attempt_fix o test_results deployment_errors w)) = false.
Proof.
  intros [Hflag Hlen] Hbad.
  assert (∃ c, c ∈ map fst (_classify_errors test_results deployment_errors) ∧
               unfixable c) as (c & Hin & Hc).
  { destruct Hbad as [(r & Hr & [Hs|Hs])|Hbad]; [| |done].
    - exists ErrorCategory.UNKNOWN. split; [|by right; right].
      apply (classify_errors_category _ _ r); [done|]. by rewrite Hs.
    - exists ErrorCategory.AUTH_ERROR. split; [|by left].
      apply (classify_errors_category _ _ r); [done|]. by rewrite Hs. }
  unfold Fix.attempt_fix. rewrite Hflag, decide_False by lia.
  destruct (_classify_errors test_results deployment_errors) as [|e cls] eqn:E.
  { by apply elem_of_nil in Hin. }
  unfold _dispatch_fixes. by apply (dispatch_unfixable _ _ _ _ c).
Qed.

(** *** Template fixes switched off *)

Lemma dispatch_disabled cls : ∀ ok o w,
  enable_template_fixes o = false →
  snd (foldl dispatch_one (ok, o, w) cls) = w ∧
  enable_template_fixes (snd (fst (foldl dispatch_one (ok, o, w) cls))) = false.
Proof.
  induction cls as [|[category messages] cls IH]; intros ok o w Hoff; [done|].
  cbn [foldl].
  assert (∃ ok' o', dispatch_one (ok, o, w) (category, messages) = (ok', o', w)
                    ∧ enable_template_fixes o' = false)
    as (ok' & o' & -> & Hoff').
  { unfold Fix.dispatch_one, _fix_template_issues. rewrite Hoff.
    destruct (_select_fix_strategy category);
      do 2 eexists; (split; reflexivity). }
  by apply IH.
Qed.

Lemma attempt_fix_disabled o test_results deployment_errors w :
  enable_template_fixes o = false →
  snd (attempt_fix o test_results deployment_errors w) = w ∧
  enable_template_fixes
    (snd (fst (attempt_fix o test_results deployment_errors w))) = false.
Proof.
  intros Hoff. unfold Fix.attempt_fix.
  destruct (circuit_breaker_open o); [done|]. case_decide; [done|].
  destruct (_classify_errors test_results deployment_errors); [done|].
  by apply dispatch_disabled.
Qed.

(** With [enable_template_fixes] off the orchestrator never runs the external
    tool: whatever is passed to any number of [attempt_fix] calls, the world
    of the tool stays as it was. *)
Theorem template_fixes_disabled_no_tool inputs : ∀ o w,
  enable_template_fixes o = false →
  snd (attempt_fixes o inputs w) = w.
Proof.
  induction inputs as [|[test_results deployment_errors] rest IH];
    intros o w Hoff; [done|].
  cbn [Fix.attempt_fixes].
  destruct (attempt_fix_disabled o test_results deployment_errors w Hoff)
    as [Hw Hoff'].
  destruct (attempt_fix o test_results deployment_errors w) as [[r o'] w'].
  simpl in Hw, Hoff'. subst w'. specialize (IH o' w Hoff').
  destruct (attempt_fixes o' rest w) as [[rs o''] w'']. done.
Qed.

(** *** How far the attempts can run past the maximum *)

Lemma categories_at_most_eight (l : list ErrorCategory.t) :
  NoDup l → (length l ≤ 8)%nat.
Proof.
  intros Hnd.
  assert (Hsub : l ⊆+ [ErrorCategory.TIMEOUT; ErrorCategory.AUTH_ERROR;
                       ErrorCategory.SERVER_ERROR; ErrorCategory.TEMPLATE_ISSUE;
                       ErrorCategory.DEPENDENCY_ISSUE;
                       ErrorCategory.CONFIGURATION_ISSUE;
                       ErrorCategory.NETWORK_ISSUE; ErrorCategory.UNKNOWN]).
  { apply NoDup_submseteq; [done|]. intros [] _; set_solver. }
  apply submseteq_length in Hsub. simpl in Hsub. lia.
Qed.

Lemma attempt_fix_bound o test_results deployment_errors w :
  let o' := snd (fst (attempt_fix o test_results deployment_errors w)) in
  Z.of_nat (length (fix_attempts o'))
  ≤ Z.max (Z.of_nat (length (fix_attempts o))) (max_fix_attempts o + 7) ∧
  max_fix_attempts o' = max_fix_attempts o.
Proof.
  cbv zeta. unfold Fix.attempt_fix.
  destruct (circuit_breaker_open o); [simpl; lia|].
  case_decide; [simpl; lia|].
  pose proof (classify_errors_nodup test_results deployment_errors) as Hnd.
  destruct (_classify_errors test_results deployment_errors) as [|e cls];
    [simpl; lia|].
  unfold _dispatch_fixes.
  destruct (dispatch_spec (e :: cls) true o w)
    as (recs & Hatt & Hcat & _ & _ & Hmax & _).
  rewrite Hatt, Hmax, length_app. split; [|done].
  apply categories_at_most_eight in Hnd.
  rewrite <- Hcat, length_map in Hnd. lia.
Qed.

(** [max_fix_attempts] is not a hard bound on the recorded attempts: a call
    that starts below the maximum records one attempt per category.  Over any
    sequence of calls the list never grows beyond [max_fix_attempts + 7]
    entries (or its initial length, if that is larger), and the maximum
    itself never changes. *)
Theorem fix_attempts_overshoot inputs : ∀ o w,
  let o' := snd (fst (attempt_fixes o inputs w)) in
  Z.of_nat (length (fix_attempts o'))
  ≤ Z.max (Z.of_nat (length (fix_attempts o))) (max_fix_attempts o + 7) ∧
  max_fix_attempts o' = max_fix_attempts o.
Proof.
  induction inputs as [|[test_results deployment_errors] rest IH]; intros o w.
  { simpl. lia. }
  cbn [Fix.attempt_fixes].
  destruct (attempt_fix_bound o test_results deployment_errors w) as [Hlen Hmax].
  destruct (attempt_fix o test_results deployment_errors w) as [[r o1] w1].
  simpl in Hlen, Hmax. specialize (IH o1 w1).
  destruct (attempt_fixes o1 rest w1) as [[rs o2] w2]. simpl in *. lia.
Qed.

(** *** The summary *)

Lemma failed_fixes_app (l k : list FixAttempt) :
  length (filter (λ a, success a = false) (l ++ k))
  = (length (filter (λ a, success a = false) l)
     + length (filter (λ a, success a = false) k))%nat.
Proof. by rewrite filter_app, length_app. Qed.

Lemma attempts_partition (l : list FixAttempt) :
  (length (filter (λ a, success a = true) l)
   + length (filter (λ a, success a = false) l))%nat = length l.
Proof.
  induction l as [|a l IH]; [done|].
  rewrite !filter_cons. destruct (success a) eqn:Ha.
  - rewrite decide_True, decide_False by done. simpl. lia.
  - rewrite decide_False, decide_True by done. simpl. lia.
Qed.

Lemma forallb_success (l : list FixAttempt) :
  forallb success l = true ↔ length (filter (λ a, success a = false) l) = 0%nat.
Proof.
  induction l as [|a l IH]; [done|].
  rewrite filter_cons. simpl. destruct (success a) eqn:Ha.
  - by rewrite decide_False by done.
  - rewrite decide_True by done. simpl. split; [done | lia].
Qed.

(** The counts of [get_fix_summary] add up, and they tell how a call went: a
    call made with the breaker closed adds one attempt per classified
    category, and it returns [true] exactly when it adds no failed fix. *)
Theorem fix_summary_accounts o test_results deployment_errors w :
  breaker_closed o →
  let result := fst (fst (attempt_fix o test_results deployment_errors w)) in
  let o' := snd (fst (attempt_fix o test_results deployment_errors w)) in
  total_attempts o' = successful_fixes o' + failed_fixes o' ∧
  total_attempts o'
  = total_attempts o
    + Z.of_nat (length (_classify_errors test_results deployment_errors)) ∧
  (result = true ↔ failed_fixes o' = failed_fixes o).
Proof.
  intros [Hflag Hlen]. cbv zeta.
  unfold total_attempts, successful_fixes, failed_fixes. split.
  { rewrite <- Nat2Z.inj_add. f_equal. symmetry. apply attempts_partition. }
  unfold Fix.attempt_fix. rewrite Hflag, decide_False by lia.
  destruct (_classify_errors test_results deployment_errors) as [|e cls] eqn:E.
  { simpl. split; [lia | done]. }
  unfold _dispatch_fixes.
  destruct (dispatch_spec (e :: cls) true o w)
    as (recs & Hatt & Hcat & _ & Hres & _).
  rewrite Hatt, Hres, length_app, failed_fixes_app. split.
  - apply (f_equal length) in Hcat. rewrite !length_map in Hcat. lia.
  - rewrite andb_true_l, forallb_success. lia.
Qed.

(** *** The breaker opens in the end *)

Lemma attempt_fix_dispatched o test_results deployment_errors w :
  breaker_closed o →
  _classify_errors test_results deployment_errors ≠ [] →
  let o' := snd (fst (attempt_fix o test_results deployment_errors w)) in
  (length (fix_attempts o) < length (fix_attempts o'))%nat ∧
  max_fix_attempts o' = max_fix_attempts o.
Proof.
  intros [Hflag Hlen] Hcls. cbv zeta. unfold Fix.attempt_fix.
  rewrite Hflag, decide_False by lia.
  destruct (_classify_errors test_results deployment_errors) as [|e cls]; [done|].
  unfold _dispatch_fixes.
  destruct (dispatch_spec (e :: cls) true o w)
    as (recs & Hatt & Hcat & _ & _ & Hmax & _).
  rewrite Hatt, Hmax, length_app. split; [|done].
  apply (f_equal length) in Hcat. rewrite !length_map in Hcat. simpl in Hcat. lia.
Qed.

(** At most [max_fix_attempts] calls get as far as dispatching fixes: when
    every call has something to classify, the breaker has opened by the time
    the recorded attempts plus the number of calls exceed the maximum. *)
Theorem breaker_opens_in_the_end inputs : ∀ o w,
  Forall (λ input, _classify_errors input.1 input.2 ≠ []) inputs →
  max_fix_attempts o < Z.of_nat (length (fix_attempts o) + length inputs) →
  inputs ≠ [] →
  circuit_breaker_open (snd (fst (attempt_fixes o inputs w))) = true.
Proof.
  induction inputs as [|[test_results deployment_errors] rest IH];
    intros o w Hall Hmax Hne; [done|].
  apply Forall_cons in Hall as [Hcls Hall]. simpl in Hcls.
  cbn [Fix.attempt_fixes].
  destruct (decide (circuit_breaker_open o = true
                    ∨ max_fix_attempts o ≤ Z.of_nat (length (fix_attempts o))))
    as [Hopen|Hclosed].
  - destruct (attempt_fix_open o test_results deployment_errors w Hopen)
      as (o1 & -> & Hflag & _ & _).
    by rewrite (attempt_fixes_flagged o1 rest w Hflag).
  - assert (Hbc : breaker_closed o).
    { split; [destruct (circuit_breaker_open o); [|done] | lia].
      destruct Hclosed. by left. }
    destruct (attempt_fix_dispatched o test_results deployment_errors w Hbc Hcls)
      as [Hgrow Hsame].
    destruct (attempt_fix o test_results deployment_errors w) as [[r o1] w1].
    simpl in Hgrow, Hsame.
    assert (Hrest : rest ≠ []).
    { intros ->. simpl in Hmax. destruct Hbc. lia. }
    specialize (IH o1 w1 Hall).
    destruct (attempt_fixes o1 rest w1) as [[rs o2] w2]. simpl in *.
    apply IH; [lia | done].
Qed.

End Facts.

(** *** Keywords of deployment errors *)

Lemma lower_app s t : lower (s +:+ t) = lower s +:+ lower t.
Proof. induction s as [|c s IH]; [done|]. simpl. by rewrite IH. Qed.

Lemma prefix_app needle post : String.prefix needle (needle +:+ post) = true.
Proof.
  induction needle as [|c needle IH]; simpl; [by destruct post|].
  by destruct (ascii_dec c c).
Qed.

Lemma contains_prefix needle hay :
  String.prefix needle hay = true → contains needle hay = true.
Proof. intros H. destruct hay; cbn [contains]; by rewrite H. Qed.

Lemma contains_app needle pre rest :
  String.prefix needle rest = true → contains needle (pre +:+ rest) = true.
Proof.
  intros H. induction pre as [|c pre IH].
  - by apply contains_prefix.
  - change (contains needle (String c (pre +:+ rest)) = true).
    cbn [contains]. rewrite IH. apply orb_true_r.
Qed.

(** The template keywords win: a deployment error that contains "template",
    "bicep", "syntax", "validation" or "schema" anywhere, in any mix of ASCII
    upper and lower case, is classified as a template issue whatever else it
    mentions. *)
Theorem template_keywords_take_precedence pre keyword post :
  lower keyword ∈ ["template"; "bicep"; "syntax"; "validation"; "schema"]%string →
  _classify_deployment_error (pre +:+ (keyword +:+ post))
  = ErrorCategory.TEMPLATE_ISSUE.
Proof.
  intros Hk. unfold _classify_deployment_error.
  replace (any_keyword _ (lower (pre +:+ (keyword +:+ post)))) with true;
    [done|].
  symmetry. unfold any_keyword. apply existsb_exists.
  exists (lower keyword). split; [by apply list_elem_of_In|].
  rewrite !lower_app. apply contains_app, prefix_app.
Qed.

(** *** A concrete run *)

(** The external tool is missing: [subprocess.run] raises
    [FileNotFoundError]; the world counts the invocations. *)
Definition tool_missing (issue : string) (w : nat) : subprocess_result * nat :=
  (FileNotFoundError, S w).

Definition timeout_result : TestResult :=
  mkTestResult (mkEndpoint "GET" "/api/timeout") TestStatus.TIMEOUT None
               (Some "Request timeout after 30s").

Definition health_result : TestResult :=
  mkTestResult (mkEndpoint "GET" "/api/health") TestStatus.SUCCESS (Some 200) None.


Lemma attempt_fix_nothing_to_fix_witness :
  attempt_fix nat tool_missing (new 2 true) [health_result] (Some []) O
  = (true, new 2 true, O).
Proof.
  apply attempt_fix_nothing_to_fix.
  - split; [reflexivity | simpl; lia].
  - repeat constructor.
  - by right.
Defined.

Definition failure_result : TestResult :=
  mkTestResult (mkEndpoint "POST" "/api/items") TestStatus.FAILURE (Some 400)
               (Some "Bad request").

Definition server_error_result : TestResult :=
  mkTestResult (mkEndpoint "GET" "/api/items") TestStatus.SERVER_ERROR (Some 500)
               None.

Lemma unfixable_failures_witness :
  fst (fst (attempt_fix nat tool_missing (new 2 true)
                        [timeout_result; failure_result] None O)) = false.
Proof.
  apply (unfixable_failures nat tool_missing (new 2 true)
           [timeout_result; failure_result] None O).
  - split; [reflexivity | simpl; lia].
  - left. exists failure_result. split; [|by left].
    apply list_elem_of_further, list_elem_of_here.
Defined.

Lemma template_fixes_disabled_no_tool_witness :
  snd (attempt_fixes nat tool_missing (new 3 false)
                     [([server_error_result], Some ["Bicep syntax error"%string]);
                      ([server_error_result], None)] O) = O.
Proof.
  apply (template_fixes_disabled_no_tool nat tool_missing
           [([server_error_result], Some ["Bicep syntax error"%string]);
            ([server_error_result], None)] (new 3 false) O).
  reflexivity.
Defined.

Lemma fix_summary_accounts_witness :
  total_attempts
    (snd (fst (attempt_fix nat tool_missing (new 2 true)
                           [timeout_result; failure_result] None O)))
  = successful_fixes
      (snd (fst (attempt_fix nat tool_missing (new 2 true)
                             [timeout_result; failure_result] None O)))
    + failed_fixes
        (snd (fst (attempt_fix nat tool_missing (new 2 true)
                               [timeout_result; failure_result] None O))) ∧
  total_attempts
    (snd (fst (attempt_fix nat tool_missing (new 2 true)
                           [timeout_result; failure_result] None O)))
  = total_attempts (new 2 true)
    + Z.of_nat (length (_classify_errors [timeout_result; failure_result] None)) ∧
  (fst (fst (attempt_fix nat tool_missing (new 2 true)
                         [timeout_result; failure_result] None O)) = true
   ↔ failed_fixes
       (snd (fst (attempt_fix nat tool_missing (new 2 true)
                              [timeout_result; failure_result] None O)))
     = failed_fixes (new 2 true)).
Proof.
  apply (fix_summary_accounts nat tool_missing (new 2 true)
           [timeout_result; failure_result] None O).
  split; [reflexivity | simpl; lia].
Defined.

Lemma breaker_opens_in_the_end_witness :
  circuit_breaker_open
    (snd (fst (attempt_fixes nat tool_missing (new 1 true)
                             [([timeout_result], None); ([timeout_result], None)]
                             O))) = true.
Proof.
  apply (breaker_opens_in_the_end nat tool_missing
           [([timeout_result], None); ([timeout_result], None)] (new 1 true) O).
  - repeat constructor; intros H; vm_compute in H; discriminate H.
  - simpl. lia.
  - discriminate.
Defined.

Lemma template_keywords_take_precedence_witness :
  _classify_deployment_error
    ("Connection timeout: " +:+ ("Bicep" +:+ " build did not finish"))
  = ErrorCategory.TEMPLATE_ISSUE.
Proof.
  apply (template_keywords_take_precedence
           "Connection timeout: " "Bicep" " build did not finish").
  apply list_elem_of_further, list_elem_of_here.
Defined.

End FixProofs.

(** ** resource_deployer_simple.py *)

Module DeployerProofs.
Import DepGraph Deployer.

Section Facts.

Variable World : Type.
Variable get_resource : string → World → (option string + exn) * World.
Variable validate_template :
  ResourceDeployment → World → (validation_reply + exn) * World.
Variable deploy_template :
  ResourceDeployment → World → (option (list (string * string)) + exn) * World.
Variable delete_resource : string → World → (unit + exn) * World.
Variable set_iter : gset string → list string.
Variable cfg : Config.

Local Abbreviation State := (State World).
Local Abbreviation _deploy_single :=
  (_deploy_single World get_resource validate_template deploy_template cfg).
Local Abbreviation deploy_all :=
  (deploy_all World get_resource validate_template deploy_template cfg).
Local Abbreviation _rollback_deployments :=
  (_rollback_deployments World delete_resource).
Local Abbreviation deploy_resources :=
  (deploy_resources World get_resource validate_template deploy_template
                    delete_resource set_iter cfg).

(** [st'] extends the call trace of [st] by [calls]. *)
Definition extends (st st' : State) (calls : list cli_call) : Prop :=
  trace st' = trace st ++ calls.

Lemma extends_refl st : extends st st [].
Proof. unfold extends. by rewrite app_nil_r. Qed.

Lemma extends_trans st1 st2 st3 c1 c2 :
  extends st1 st2 c1 → extends st2 st3 c2 → extends st1 st3 (c1 ++ c2).
Proof. unfold extends. intros H1 H2. by rewrite H2, H1, app_assoc. Qed.

Lemma cli_extends {R} call (op : World → (R + exn) * World) (st : State) :
  extends st (snd (cli World call op st)) [call].
Proof. unfold cli, extends. by destruct (op (world st)). Qed.

Lemma validate_loop_trace n d : ∀ st,
  ∃ calls,
    extends st (snd (validate_loop World validate_template n d st)) calls ∧
    Forall (λ c, c = ValidateTemplate (resource_id d)) calls.
Proof.
  induction n as [|n IH]; intros st; simpl.
  { exists []. split; [apply extends_refl | constructor]. }
  pose proof (cli_extends (ValidateTemplate (resource_id d))
                (validate_template d) st) as Hc.
  destruct (cli World _ (validate_template d) st) as [r st1]. simpl in Hc.
  assert (Hone : ∃ calls, extends st st1 calls ∧
            Forall (λ c, c = ValidateTemplate (resource_id d)) calls)
    by (exists [ValidateTemplate (resource_id d)]; split; [done | by constructor]).
  destruct (match r with inl reply => _ | inr e => _ end) as [e|]; [|done].
  destruct n as [|n]; [done|].
  destruct (IH st1) as (calls & Hext & Hall).
  exists ([ValidateTemplate (resource_id d)] ++ calls). split.
  - by eapply extends_trans.
  - by constructor.
Qed.

Lemma deploy_loop_spec n d : ∀ st,
  ∃ calls,
    extends st (snd (deploy_loop World deploy_template n d st)) calls ∧
    Forall (λ c, c = DeployTemplate (resource_id d)) calls ∧
    (∀ d', fst (deploy_loop World deploy_template n d st) = Some (inl d') →
       resource_id d' = resource_id d).
Proof.
  induction n as [|n IH]; intros st; simpl.
  { exists []. split; [apply extends_refl|]. split; [constructor | done]. }
  pose proof (cli_extends (DeployTemplate (resource_id d))
                (deploy_template d) st) as Hc.
  destruct (cli World _ (deploy_template d) st) as [[reply|e] st1]; simpl in Hc.
  - exists [DeployTemplate (resource_id d)]. simpl. split; [done|].
    split; [by constructor|]. intros d' [= <-]. by destruct reply.
  - destruct n as [|n].
    + exists [DeployTemplate (resource_id d)]. simpl. split; [done|].
      split; [by constructor | done].
    + destruct (IH st1) as (calls & Hext & Hall & Hid).
      exists ([DeployTemplate (resource_id d)] ++ calls). split.
      * by eapply extends_trans.
      * split; [by constructor | done].
Qed.

(** What one [_deploy_single] does to the call trace: it only makes calls for
    its own resource, and it asks to deploy only after the existence check
    said no. *)
Lemma deploy_single_spec d st :
  ∃ calls,
    extends st (snd (_deploy_single d st)) calls ∧
    Forall (λ c, c ∈ [GetResource (resource_id d);
                      ValidateTemplate (resource_id d);
                      DeployTemplate (resource_id d)]) calls ∧
    resource_id (snd (fst (_deploy_single d st))) = resource_id d.
Proof.
  unfold Deployer._deploy_single.
  assert (Hex : ∃ calls,
            extends st (snd (if force_redeploy cfg then (false, st)
               else _check_resource_exists World get_resource d st)) calls ∧
            Forall (λ c, c ∈ [GetResource (resource_id d);
                              ValidateTemplate (resource_id d);
                              DeployTemplate (resource_id d)]) calls).
  { destruct (force_redeploy cfg).
    - exists []. split; [apply extends_refl | constructor].
    - unfold _check_resource_exists.
      pose proof (cli_extends (GetResource (resource_id d))
                    (get_resource (resource_id d)) st) as Hc.
      destruct (cli World _ (get_resource (resource_id d)) st) as [[r|e] st1];
        exists [GetResource (resource_id d)]; (split; [done|]);
        repeat constructor. }
  destruct (if force_redeploy cfg then _ else _) as [ex st1].
  destruct Hex as (c0 & Hext0 & Hall0). simpl in Hext0.
  destruct ex.
  { exists c0. simpl. done. }
  destruct (validate_loop_trace (max_attempts cfg) d st1) as (c1 & Hext1 & Hall1).
  destruct (validate_loop World validate_template (max_attempts cfg) d st1)
    as [[[]|e] st2]; simpl in Hext1.
  2: { exists (c0 ++ c1). simpl. split; [by eapply extends_trans|].
       split; [|done]. apply Forall_app. split; [done|].
       eapply Forall_impl; [exact Hall1|]. intros c ->. set_solver. }
  destruct (deploy_loop_spec (max_attempts cfg) d st2) as (c2 & Hext2 & Hall2 & Hid).
  assert (Hcalls : extends st (snd (deploy_loop World deploy_template
                                     (max_attempts cfg) d st2)) (c0 ++ c1 ++ c2) ∧
           Forall (λ c, c ∈ [GetResource (resource_id d);
                             ValidateTemplate (resource_id d);
                             DeployTemplate (resource_id d)]) (c0 ++ c1 ++ c2)).
  { split; [eapply extends_trans; [done|]; by eapply extends_trans|].
    apply Forall_app. split; [done|]. apply Forall_app. split.
    - eapply Forall_impl; [exact Hall1|]. intros c ->. set_solver.
    - eapply Forall_impl; [exact Hall2|]. intros c ->. set_solver. }
  destruct (deploy_loop World deploy_template (max_attempts cfg) d st2)
    as [[[d'|e]|] st3]; exists (c0 ++ c1 ++ c2); simpl in *;
    destruct Hcalls; repeat split; try done. by apply Hid.
Qed.

(** Idempotency of one deployment: a resource the backend reports makes
    [_deploy_single] return [True] after that one query. *)
Lemma deploy_single_existing d st r w' :
  force_redeploy cfg = false →
  get_resource (resource_id d) (world st) = (inl (Some r), w') →
  _deploy_single d st
  = (true, d,
     mkState w' (trace st ++ [GetResource (resource_id d)])
             (_deployed_resources st ++ [d])).
Proof.
  intros Hforce Hget. unfold Deployer._deploy_single, _check_resource_exists, cli.
  by rewrite Hforce, Hget.
Qed.

Lemma rollback_trace deployed : ∀ st,
  trace (_rollback_deployments deployed st)
  = trace st ++ map (λ d, DeleteResource (resource_id d)) (reverse deployed).
Proof.
  unfold Deployer._rollback_deployments.
  induction (reverse deployed) as [|d l IH]; intros st; simpl.
  { by rewrite app_nil_r. }
  rewrite IH.
  pose proof (cli_extends (DeleteResource (resource_id d))
                (delete_resource (resource_id d)) st) as Hc.
  unfold extends in Hc. rewrite Hc. by rewrite <- app_assoc.
Qed.

Lemma deploy_loop_retry n d st e w' :
  deploy_template d (world st) = (inr e, w') →
  deploy_loop World deploy_template (S (S n)) d st
  = deploy_loop World deploy_template (S n) d
      (mkState w' (trace st ++ [DeployTemplate (resource_id d)])
               (_deployed_resources st)).
Proof.
  intros Hfail.
  change (deploy_loop World deploy_template (S (S n)) d st)
    with (match cli World (DeployTemplate (resource_id d)) (deploy_template d) st with
          | (inl deploy_result, st') =>
              let deployment' :=
                match deploy_result with
                | Some outputs =>
                    set_output_values d (dict_update (output_values d) outputs)
                | None => d
                end in
              (Some (inl deployment'),
               mkState (world st') (trace st')
                       (_deployed_resources st' ++ [deployment']))
          | (inr e, st') => deploy_loop World deploy_template (S n) d st'
          end).
  unfold cli. by rewrite Hfail.
Qed.

(** Retry exhaustion: a backend that refuses every deployment request makes
    the deployment loop ask [max_attempts] times and then raise. *)
Lemma deploy_loop_exhausted n d :
  (∀ w, ∃ e w', deploy_template d w = (inr e, w')) →
  ∀ st, ∃ e st',
    deploy_loop World deploy_template (S n) d st = (Some (inr e), st') ∧
    trace st' = trace st ++ replicate (S n) (DeployTemplate (resource_id d)).
Proof.
  intros Hfail. induction n as [|n IH]; intros st.
  - cbn [deploy_loop]. unfold cli. destruct (Hfail (world st)) as (e & w' & ->).
    by exists e, (mkState w' (trace st ++ [DeployTemplate (resource_id d)])
                         (_deployed_resources st)).
  - destruct (Hfail (world st)) as (e & w' & Hf).
    rewrite (deploy_loop_retry n d st e w' Hf).
    destruct (IH (mkState w' (trace st ++ [DeployTemplate (resource_id d)])
                          (_deployed_resources st))) as (e' & st' & -> & Htr).
    exists e', st'. split; [done|]. rewrite Htr. cbn [trace].
    rewrite <- app_assoc. done.
Qed.

Lemma insert_by_perm {A} (key : A → nat) x l : insert_by key x l ≡ₚ x :: l.
Proof.
  induction l as [|y l IH]; simpl; [done|].
  destruct (key x <=? key y)%nat; [done|]. rewrite IH. apply Permutation_swap.
Qed.

Lemma sorted_perm {A} (key : A → nat) l : sorted key l ≡ₚ l.
Proof.
  induction l as [|x l IH]; simpl; [done|].
  rewrite insert_by_perm. by rewrite IH.
Qed.

Lemma order_deployments_perm deployments og ordered :
  order_deployments set_iter deployments og = Returns ordered →
  ordered ≡ₚ deployments.
Proof.
  unfold order_deployments. destruct og as [g|]; [|by intros [= <-]].
  destruct (has_cycle set_iter g) as [[]|e|]; try done.
  destruct (get_ordered_resources set_iter g) as [ids|e|]; try done;
    intros [= <-]; [apply sorted_perm | done].
Qed.

(** The backend reports the resource of [d] whenever it is asked. *)
Definition already_exists (d : ResourceDeployment) : Prop :=
  ∀ w, ∃ r w', get_resource (resource_id d) w = (inl (Some r), w').

Lemma deploy_all_existing d (Hforce : force_redeploy cfg = false)
    (Hex : already_exists d) deployments :
  ∀ deployed outputs errors st,
  let '(deployed', _, _, st') := deploy_all deployments deployed outputs errors st in
  (∃ calls, extends st st' calls ∧ DeployTemplate (resource_id d) ∉ calls) ∧
  (∀ x, x ∈ deployed → x ∈ deployed') ∧
  (d ∈ deployments → d ∈ deployed').
Proof.
  induction deployments as [|x rest IH]; intros deployed outputs errors st.
  { simpl. split; [exists []; split; [apply extends_refl | apply not_elem_of_nil]|].
    split; [done | by intros ?%elem_of_nil]. }
  cbn [Deployer.deploy_all].
  destruct (deploy_single_spec x st) as (c1 & Hext1 & Hall1 & Hid).
  assert (Hsame : resource_id x = resource_id d →
            _deploy_single x st
            = (true, x, mkState (snd (get_resource (resource_id x) (world st)))
                          (trace st ++ [GetResource (resource_id x)])
                          (_deployed_resources st ++ [x]))).
  { intros Heq. destruct (Hex (world st)) as (r & w' & Hget).
    rewrite <- Heq in Hget. rewrite (deploy_single_existing x st r w' Hforce Hget).
    by rewrite Hget. }
  assert (Hnot : DeployTemplate (resource_id d) ∉ c1).
  { destruct (decide (resource_id x = resource_id d)) as [Heq|Hne].
    - rewrite (Hsame Heq) in Hext1. unfold extends in Hext1. simpl in Hext1.
      apply app_inv_head in Hext1 as <-.
      intros [=]%list_elem_of_singleton.
    - intros Hin. rewrite Forall_forall in Hall1. apply Hall1 in Hin.
      set_solver. }
  assert (Hres : x = d → _deploy_single x st
                         = (true, snd (fst (_deploy_single x st)),
                            snd (_deploy_single x st)) ∧
                         snd (fst (_deploy_single x st)) = d).
  { intros ->. by rewrite (Hsame eq_refl). }
  destruct (_deploy_single x st) as [[result x'] st1]. simpl in *.
  destruct result.
  - match goal with |- context [deploy_all rest ?dl ?o ?e st1] =>
      specialize (IH dl o e st1); destruct (deploy_all rest dl o e st1)
        as [[[deployed' outputs'] errors'] st'] end.
    destruct IH as ((c2 & Hext2 & Hnot2) & Hkeep & Hin).
    split; [exists (c1 ++ c2); split; [by eapply extends_trans | set_solver]|].
    split; [intros y Hy; apply Hkeep; set_solver|].
    intros [->|Hd]%elem_of_cons; [|by apply Hin].
    destruct (Hres eq_refl) as [_ ->]. apply Hkeep. set_solver.
  - match goal with |- context [deploy_all rest ?dl ?o ?e st1] =>
      specialize (IH dl o e st1); destruct (deploy_all rest dl o e st1)
        as [[[deployed' outputs'] errors'] st'] end.
    destruct IH as ((c2 & Hext2 & Hnot2) & Hkeep & Hin).
    split; [exists (c1 ++ c2); split; [by eapply extends_trans | set_solver]|].
    split; [done|].
    intros [->|Hd]%elem_of_cons; [|by apply Hin].
    by destruct (Hres eq_refl) as [[=] _].
Qed.

(** C6.  Three deployments come out of the ordering step as [d1; d2; d3];
    the first two deploy and the third does not.  With rollback enabled,
    [deploy_resources] then deletes the second and after it the first,
    whatever the delete calls answer, and returns a result whose [success]
    is [false]. *)
Theorem rollback_in_reverse_order deployments og st d1 d2 d3 d1' d2' d3' st1 st2 st3 :
  enable_rollback cfg = true →
  order_deployments set_iter deployments og = Returns [d1; d2; d3] →
  _deploy_single d1 st = (true, d1', st1) →
  _deploy_single d2 st1 = (true, d2', st2) →
  _deploy_single d3 st2 = (false, d3', st3) →
  ∃ result st',
    deploy_resources deployments og st = (Returns result, st') ∧
    success result = false ∧
    deployed_resources result = [d1'; d2'] ∧
    resource_id d1' = resource_id d1 ∧ resource_id d2' = resource_id d2 ∧
    trace st' = trace st3 ++ [DeleteResource (resource_id d2);
                              DeleteResource (resource_id d1)].
Proof.
  intros Hroll Horder H1 H2 H3. unfold Deployer.deploy_resources.
  rewrite Horder. cbn [Deployer.deploy_all]. rewrite H1, H2, H3. simpl.
  rewrite Hroll. simpl. eexists _, _. split; [done|].
  pose proof (deploy_single_spec d1 st) as (_ & _ & _ & Hid1).
  pose proof (deploy_single_spec d2 st1) as (_ & _ & _ & Hid2).
  rewrite H1 in Hid1. rewrite H2 in Hid2. simpl in Hid1, Hid2.
  split; [done|]. split; [done|]. split; [done|]. split; [done|].
  rewrite rollback_trace. simpl. by rewrite Hid1, Hid2.
Qed.

(** *** The ordering step *)

Lemma order_deployments_cases deployments g :
  (∀ s, set_iter s ≡ₚ elements s) → wf g →
  ((∃ n, tc (depends_on g) n n) ∧
   order_deployments set_iter deployments (Some g)
   = Raises (ValidationError "Circular dependency detected in resource graph"))
  ∨
  (acyclic g ∧
   ∃ ordered_ids,
     NoDup ordered_ids ∧ (∀ n, n ∈ ordered_ids ↔ n ∈ nodes g) ∧
     topological g ordered_ids ∧
     order_deployments set_iter deployments (Some g)
     = Returns (sorted (order_key ordered_ids) deployments)).
Proof.
  intros Hperm Hwf. unfold order_deployments, has_cycle.
  destruct (DepGraphProofs.get_ordered_resources_cases set_iter Hperm g Hwf)
    as [(ordered & Hret & Hnd & Hall & Htop) | (c & Hret & Hc & Hreach)].
  - right. split.
    { eapply DepGraphProofs.topological_acyclic; [done | exact Htop |].
      intros n. apply Hall. }
    exists ordered. by rewrite Hret.
  - left. split; [|by rewrite Hret].
    destruct c as [|x c]; [done|]. exists x. apply Hreach; left.
Qed.


(** [deploy_resources] raises for a cyclic dependency graph and for nothing
    else: on a graph with a cycle it raises [ValidationError] before any call
    to the backend; on an acyclic graph it returns a result, whatever the
    backend answers. *)
Theorem deploy_resources_raises_only_on_cycle deployments g st :
  (∀ s, set_iter s ≡ₚ elements s) → wf g →
  ((∃ n, tc (depends_on g) n n) →
     deploy_resources deployments (Some g) st
     = (Raises (ValidationError "Circular dependency detected in resource graph"),
        st)) ∧
  (acyclic g →
     ∃ result st',
       deploy_resources deployments (Some g) st = (Returns result, st')).
Proof.
  intros Hperm Hwf. unfold Deployer.deploy_resources.
  destruct (order_deployments_cases deployments g Hperm Hwf)
    as [[[n Hn] ->] | [Hacyc (ids & _ & _ & _ & ->)]].
  - split; [done|]. intros Hacyc. by destruct (Hacyc n).
  - split; [intros [n Hn]; by destruct (Hacyc n)|]. intros _.
    destruct (deploy_all _ [] [] [] st) as [[[deployed outputs] errors] st1].
    by eexists _, _.
Qed.

Lemma insert_by_sorted {A} (key : A → nat) x l :
  StronglySorted (λ a b, (key a ≤ key b)%nat) l →
  StronglySorted (λ a b, (key a ≤ key b)%nat) (insert_by key x l).
Proof.
  induction 1 as [|y l Hl IH Hy]; simpl; [by repeat constructor|].
  destruct (key x <=? key y)%nat eqn:E.
  - apply Nat.leb_le in E. constructor; [by constructor|].
    constructor; [done|]. eapply Forall_impl; [exact Hy|]. simpl. lia.
  - apply Nat.leb_gt in E. constructor; [done|].
    rewrite insert_by_perm. constructor; [lia | done].
Qed.

Lemma sorted_sorted {A} (key : A → nat) l :
  StronglySorted (λ a b, (key a ≤ key b)%nat) (sorted key l).
Proof.
  induction l as [|x l IH]; simpl; [constructor | by apply insert_by_sorted].
Qed.

Lemma strongly_sorted_lookup {A} (R : A → A → Prop) l :
  StronglySorted R l →
  ∀ i j x y, (i < j)%nat → l !! i = Some x → l !! j = Some y → R x y.
Proof.
  induction 1 as [|a l Hl IH Ha]; intros i j x y Hij Hi Hj.
  { by rewrite lookup_nil in Hi. }
  destruct j as [|j]; [lia|]. simpl in Hj.
  destruct i as [|i]; simpl in Hi.
  - injection Hi as ->. rewrite Forall_forall in Ha. apply Ha.
    by eapply list_elem_of_lookup_2.
  - apply (IH i j); [lia | done | done].
Qed.

(** The ordering step does what it is there for: when the deployments are
    sorted with an acyclic dependency graph, a deployment always comes after
    every deployment whose resource it depends on. *)
Theorem deployment_order_respects_dependencies deployments g ordered i j d1 d2 :
  (∀ s, set_iter s ≡ₚ elements s) → wf g →
  order_deployments set_iter deployments (Some g) = Returns ordered →
  ordered !! i = Some d1 → ordered !! j = Some d2 →
  depends_on g (resource_id d1) (resource_id d2) →
  (j < i)%nat.
Proof.
  intros Hperm Hwf Hord Hi Hj Hdep.
  destruct (order_deployments_cases deployments g Hperm Hwf)
    as [[_ Hr] | [_ (ids & Hnd & Hall & Htop & Hr)]];
    rewrite Hr in Hord; [done|]. injection Hord as <-.
  destruct (DepGraphProofs.depends_on_nodes g Hwf _ _ Hdep) as [Hn1 Hn2].
  apply Hall, DepGraphProofs.list_index_elem in Hn1 as (k1 & Hk1 & Hl1).
  apply Hall, DepGraphProofs.list_index_elem in Hn2 as (k2 & Hk2 & Hl2).
  destruct (Htop k1 _ _ Hl1 Hdep) as (k & Hk & Hl).
  assert (k = k2) as -> by (by eapply NoDup_lookup).
  assert (Hkey : (order_key ids d2 < order_key ids d1)%nat).
  { unfold order_key. by rewrite Hk1, Hk2. }
  pose proof (sorted_sorted (order_key ids) deployments) as Hs.
  destruct (Nat.lt_trichotomy i j) as [Hlt|[->|Hgt]]; [| |done].
  - pose proof (strongly_sorted_lookup _ _ Hs i j d1 d2 Hlt Hi Hj). simpl in *. lia.
  - rewrite Hi in Hj. injection Hj as ->. lia.
Qed.

(** *** Accounting *)

Lemma deploy_all_account deployments : ∀ deployed outputs errors st,
  let '(deployed', _, errors', _) :=
    deploy_all deployments deployed outputs errors st in
  (length deployed' + length errors'
   = length deployed + length errors + length deployments)%nat.
Proof.
  induction deployments as [|d rest IH]; intros deployed outputs errors st.
  { simpl. lia. }
  cbn [Deployer.deploy_all].
  destruct (_deploy_single d st) as [[[] d'] st1].
  - match goal with |- context [deploy_all rest ?dl ?o ?e st1] =>
      specialize (IH dl o e st1); destruct (deploy_all rest dl o e st1)
        as [[[deployed' outputs'] errors'] st'] end.
    rewrite length_app in IH. simpl in *. lia.
  - match goal with |- context [deploy_all rest ?dl ?o ?e st1] =>
      specialize (IH dl o e st1); destruct (deploy_all rest dl o e st1)
        as [[[deployed' outputs'] errors'] st'] end.
    rewrite length_app in IH. simpl in *. lia.
Qed.

(** Every deployment is accounted for: in the result of [deploy_resources]
    the deployed resources and the error messages together number as many as
    the deployments passed in; [success] says that there is no error message
    and that there was something to deploy, so an empty request fails, without
    a call to the backend. *)
Theorem every_deployment_is_accounted_for deployments og st result st' :
  deploy_resources deployments og st = (Returns result, st') →
  (length (deployed_resources result) + length (error_messages result)
   = length deployments)%nat ∧
  (success result = true ↔ error_messages result = [] ∧ deployments ≠ []) ∧
  (deployments = [] → success result = false ∧ st' = st).
Proof.
  unfold Deployer.deploy_resources.
  destruct (order_deployments set_iter deployments og) as [ordered|e|] eqn:Ho;
    [|done..].
  apply order_deployments_perm in Ho.
  pose proof (deploy_all_account ordered [] [] [] st) as Hacc.
  destruct (deploy_all ordered [] [] [] st) as [[[deployed outputs] errors] st1]
    eqn:Hall.
  intros [= <- <-]. cbn [deployed_resources error_messages Deployer.success].
  rewrite Ho in Hacc. simpl in Hacc. split; [done|]. split; [|intros ->].
  - rewrite andb_true_iff, !bool_decide_eq_true. split.
    + intros [He Hd]. apply nil_length_inv in He. split; [done|].
      intros ->. simpl in Hacc. lia.
    + intros [-> Hne]. split; [done|]. simpl in Hacc.
      destruct deployments; [done | simpl in Hacc; lia].
  - apply Permutation_nil_r in Ho as ->. simpl in Hall.
    injection Hall as <- <- <- <-. simpl length.
    rewrite (bool_decide_eq_false_2 (0 < 0)%nat) by lia.
    rewrite andb_false_r. split; [done|]. simpl.
    by rewrite andb_false_r.
Qed.

(** *** Rollback *)

Definition is_delete (c : cli_call) : bool :=
  match c with DeleteResource _ => true | _ => false end.

Lemma deploy_all_trace deployments : ∀ deployed outputs errors st,
  ∃ calls,
    extends st (snd (deploy_all deployments deployed outputs errors st)) calls ∧
    List.filter is_delete calls = [].
Proof.
  induction deployments as [|d rest IH]; intros deployed outputs errors st.
  { exists []. split; [apply extends_refl | done]. }
  cbn [Deployer.deploy_all].
  destruct (deploy_single_spec d st) as (c1 & Hext1 & Hall1 & _).
  assert (Hc1 : List.filter is_delete c1 = []).
  { clear Hext1. induction Hall1 as [|c l Hc _ IHl]; [done|]. simpl.
    rewrite IHl.
    apply elem_of_cons in Hc as [->|Hc]; [done|].
    apply elem_of_cons in Hc as [->|Hc]; [done|].
    by apply list_elem_of_singleton in Hc as ->. }
  destruct (_deploy_single d st) as [[[] d'] st1]; simpl in Hext1.
  - match goal with |- context [deploy_all rest ?dl ?o ?e st1] =>
      destruct (IH dl o e st1) as (c2 & Hext2 & Hc2) end.
    exists (c1 ++ c2). split; [by eapply extends_trans|].
    by rewrite List.filter_app, Hc1, Hc2.
  - match goal with |- context [deploy_all rest ?dl ?o ?e st1] =>
      destruct (IH dl o e st1) as (c2 & Hext2 & Hc2) end.
    exists (c1 ++ c2). split; [by eapply extends_trans|].
    by rewrite List.filter_app, Hc1, Hc2.
Qed.

Lemma filter_deletes (l : list ResourceDeployment) :
  List.filter is_delete (map (λ d, DeleteResource (resource_id d)) l)
  = map (λ d, DeleteResource (resource_id d)) l.
Proof. induction l as [|d l IH]; [done|]. simpl. by rewrite IH. Qed.

(** Rollback for any number of deployments: the calls of a run are its
    other calls followed by its delete calls.  A run that ends without success
    and with rollback enabled deletes exactly the resources it deployed, in
    reverse order of deployment; a run that succeeds, or one with rollback
    disabled, deletes nothing. *)
Theorem rollback_deletes_what_was_deployed deployments og st result st' :
  deploy_resources deployments og st = (Returns result, st') →
  ∃ others,
    extends st st'
      (others ++
       (if success result || negb (enable_rollback cfg) then []
        else map (λ d, DeleteResource (resource_id d))
                 (reverse (deployed_resources result)))) ∧
    List.filter is_delete others = [].
Proof.
  unfold Deployer.deploy_resources.
  destruct (order_deployments set_iter deployments og) as [ordered|e|]; [|done..].
  destruct (deploy_all_trace ordered [] [] [] st) as (c1 & Hext1 & Hc1).
  destruct (deploy_all ordered [] [] [] st) as [[[deployed outputs] errors] st1].
  simpl in Hext1. intros [= <- <-].
  cbn [deployed_resources Deployer.success]. exists c1. split; [|done].
  set (ok := bool_decide (length errors = 0%nat)
             && bool_decide (0 < length deployed)%nat).
  destruct ok eqn:Hok; simpl; [by rewrite app_nil_r|].
  destruct (enable_rollback cfg); simpl; [|by rewrite app_nil_r].
  case_bool_decide as Hd; simpl.
  - eapply extends_trans; [done|]. unfold extends. apply rollback_trace.
  - subst deployed. by rewrite app_nil_r.
Qed.

(** *** The calls one deployment makes *)

Lemma validate_loop_step remaining d st :
  validate_loop World validate_template (S remaining) d st
  = let '(r, st') := cli World (ValidateTemplate (resource_id d))
                         (validate_template d) st in
    let failure :=
      match r with
      | inl reply =>
          if valid reply then None
          else Some (ValidationError "Template validation failed")
      | inr e => Some e
      end in
    match failure with
    | None => (inl tt, st')
    | Some e =>
        match remaining with
        | O => (inr e, st')
        | S _ => validate_loop World validate_template remaining d st'
        end
    end.
Proof. reflexivity. Qed.

Lemma validate_loop_count n d : ∀ st,
  ∃ v, (v ≤ n)%nat ∧ (0 < n → 0 < v)%nat ∧
       trace (snd (validate_loop World validate_template n d st))
       = trace st ++ replicate v (ValidateTemplate (resource_id d)).
Proof.
  induction n as [|n IH]; intros st.
  { exists 0%nat. simpl. by rewrite app_nil_r. }
  rewrite validate_loop_step.
  pose proof (cli_extends (ValidateTemplate (resource_id d))
                (validate_template d) st) as Hc.
  destruct (cli World _ (validate_template d) st) as [r st1].
  unfold extends in Hc. simpl in Hc. cbv zeta.
  destruct (match r with inl reply => _ | inr e => _ end) as [e|].
  2: { exists 1%nat. simpl. split; [lia|]. split; [lia | done]. }
  destruct n as [|n].
  { exists 1%nat. simpl. split; [lia|]. split; [lia | done]. }
  destruct (IH st1) as (v & Hv & _ & Htr). exists (S v).
  split; [lia|]. split; [lia|]. rewrite Htr, Hc. simpl.
  by rewrite <- app_assoc.
Qed.

Lemma deploy_loop_count n d : ∀ st,
  ∃ k, (k ≤ n)%nat ∧ (0 < n → 0 < k)%nat ∧
       trace (snd (deploy_loop World deploy_template n d st))
       = trace st ++ replicate k (DeployTemplate (resource_id d)).
Proof.
  induction n as [|n IH]; intros st.
  { exists 0%nat. simpl. by rewrite app_nil_r. }
  destruct (deploy_template d (world st)) as [[reply|e] w'] eqn:Hd.
  - exists 1%nat. cbn [deploy_loop]. unfold cli. rewrite Hd. simpl.
    split; [lia|]. split; [lia | done].
  - destruct n as [|n].
    + exists 1%nat. cbn [deploy_loop]. unfold cli. rewrite Hd. simpl.
      split; [lia|]. split; [lia | done].
    + rewrite (deploy_loop_retry n d st e w' Hd).
      match goal with |- context [deploy_loop _ _ _ d ?st1] =>
        destruct (IH st1) as (k & Hk & _ & Htr) end.
      exists (S k). split; [lia|]. split; [lia|]. rewrite Htr. simpl.
      by rewrite <- app_assoc.
Qed.

(** The calls of one [_deploy_single], in order: the existence query (none
    with [force_redeploy]), then at most [max_attempts] template validations,
    then at most [max_attempts] deployment requests, all for its own
    resource; no deployment is requested before a validation has been. *)
Theorem deploy_single_protocol d st :
  ∃ v k,
    (v ≤ max_attempts cfg)%nat ∧ (k ≤ max_attempts cfg)%nat ∧
    (0 < k → 0 < v)%nat ∧
    trace (snd (_deploy_single d st))
    = trace st
      ++ (if force_redeploy cfg then [] else [GetResource (resource_id d)])
      ++ replicate v (ValidateTemplate (resource_id d))
      ++ replicate k (DeployTemplate (resource_id d)).
Proof.
  unfold Deployer._deploy_single.
  assert (Hex : trace (snd (if force_redeploy cfg then (false, st)
                 else _check_resource_exists World get_resource d st))
                = trace st ++ (if force_redeploy cfg then []
                               else [GetResource (resource_id d)])).
  { destruct (force_redeploy cfg); simpl; [by rewrite app_nil_r|].
    unfold _check_resource_exists.
    pose proof (cli_extends (GetResource (resource_id d))
                  (get_resource (resource_id d)) st) as Hc.
    by destruct (cli World _ (get_resource (resource_id d)) st) as [[r|e] st1]. }
  destruct (if force_redeploy cfg then _ else _) as [ex st1]. simpl in Hex.
  destruct ex.
  { exists 0%nat, 0%nat. simpl. rewrite app_nil_r.
    split; [lia|]. split; [lia|]. split; [lia | done]. }
  destruct (validate_loop_count (max_attempts cfg) d st1) as (v & Hv & Hv0 & Htr1).
  destruct (validate_loop World validate_template (max_attempts cfg) d st1)
    as [[[]|e] st2]; simpl in Htr1.
  2: { exists v, 0%nat. simpl. rewrite app_nil_r, Htr1, Hex, <- app_assoc.
       split; [lia|]. split; [lia|]. split; [lia | done]. }
  destruct (deploy_loop_count (max_attempts cfg) d st2) as (k & Hk & _ & Htr2).
  exists v, k. split; [done|]. split; [done|]. split; [lia|].
  destruct (deploy_loop World deploy_template (max_attempts cfg) d st2)
    as [[[d'|e]|] st3]; simpl in *;
    by rewrite Htr2, Htr1, Hex, <- !app_assoc.
Qed.

Lemma validate_loop_exhausted n d :
  (∀ w, match fst (validate_template d w) with
        | inl reply => valid reply = false
        | inr _ => True
        end) →
  ∀ st, ∃ e st',
    validate_loop World validate_template (S n) d st = (inr e, st') ∧
    trace st' = trace st ++ replicate (S n) (ValidateTemplate (resource_id d)) ∧
    _deployed_resources st' = _deployed_resources st.
Proof.
  intros Hbad. induction n as [|n IH]; intros st; rewrite validate_loop_step;
    unfold cli; specialize (Hbad (world st));
    destruct (validate_template d (world st)) as [[reply|e] w']; simpl in Hbad;
    rewrite ?Hbad; cbv zeta.
  - by eexists _, _.
  - by eexists _, _.
  - match goal with |- context [validate_loop _ _ _ d ?st1] =>
      destruct (IH st1) as (e' & st' & -> & Htr & Hdep) end.
    exists e', st'. split; [done|]. rewrite Htr, Hdep. simpl.
    by rewrite <- app_assoc.
  - match goal with |- context [validate_loop _ _ _ d ?st1] =>
      destruct (IH st1) as (e' & st' & -> & Htr & Hdep) end.
    exists e', st'. split; [done|]. rewrite Htr, Hdep. simpl.
    by rewrite <- app_assoc.
Qed.

(** A template that does not validate is never deployed: when the resource
    is not reported as existing and every validation of its template is
    refused (an invalid reply or an exception), [_deploy_single] validates
    [max_attempts] times, gives up with [False], requests no deployment and
    records nothing as deployed. *)
Theorem invalid_template_is_never_deployed n d st :
  max_attempts cfg = S n →
  force_redeploy cfg = true ∨
  (∀ w r, fst (get_resource (resource_id d) w) ≠ inl (Some r)) →
  (∀ w, match fst (validate_template d w) with
        | inl reply => valid reply = false
        | inr _ => True
        end) →
  ∃ st',
    _deploy_single d st = (false, d, st') ∧
    trace st'
    = trace st
      ++ (if force_redeploy cfg then [] else [GetResource (resource_id d)])
      ++ replicate (S n) (ValidateTemplate (resource_id d)) ∧
    _deployed_resources st' = _deployed_resources st.
Proof.
  intros Hmax Habsent Hbad. unfold Deployer._deploy_single. rewrite Hmax.
  assert (Hex : ∃ st1,
            (if force_redeploy cfg then (false, st)
             else _check_resource_exists World get_resource d st) = (false, st1) ∧
            trace st1 = trace st ++ (if force_redeploy cfg then []
                                     else [GetResource (resource_id d)]) ∧
            _deployed_resources st1 = _deployed_resources st).
  { destruct (force_redeploy cfg) eqn:Hforce.
    - exists st. by rewrite app_nil_r.
    - destruct Habsent as [?|Habsent]; [done|].
      unfold _check_resource_exists, cli. specialize (Habsent (world st)).
      destruct (get_resource (resource_id d) (world st)) as [[[r|]|e] w'];
        simpl in *; [by destruct (Habsent r) | by eexists | by eexists]. }
  destruct Hex as (st1 & -> & Htr1 & Hdep1).
  destruct (validate_loop_exhausted n d Hbad st1) as (e & st2 & -> & Htr2 & Hdep2).
  exists st2. split; [done|]. rewrite Htr2, Htr1, Hdep2, Hdep1.
  by rewrite <- app_assoc.
Qed.

End Facts.

(** *** A concrete backend *)

(** The world counts the backend calls.  Only resource [A] exists already,
    every template validates, the template of [C] never deploys, and [B]
    cannot be deleted. *)
Definition backend_get (rid : string) (w : nat) : (option string + exn) * nat :=
  if decide (rid = "A") then (inl (Some "{}"), S w)
  else (inr (OtherError "ResourceNotFound"), S w).

Definition backend_get_none (rid : string) (w : nat)
  : (option string + exn) * nat :=
  (inr (OtherError "ResourceNotFound"), S w).

Definition backend_validate (d : ResourceDeployment) (w : nat)
  : (validation_reply + exn) * nat :=
  (inl (mkValidation true None), S w).

Definition backend_deploy (d : ResourceDeployment) (w : nat)
  : (option (list (string * string)) + exn) * nat :=
  if decide (resource_id d = "C") then (inr (OtherError "QuotaExceeded"), S w)
  else (inl (Some [("url", "https://" +:+ resource_name d)]), S w).

Definition backend_delete (rid : string) (w : nat) : (unit + exn) * nat :=
  if decide (rid = "B") then (inr (OtherError "Locked"), S w)
  else (inl tt, S w).

Definition spec_of (rid : string) : ResourceDeployment :=
  mkDeployment rid "Microsoft.Web/sites" rid 0 PENDING (rid +:+ ".bicep") [].

Definition test_cfg : Config := mkConfig "test-rg" None false true 3.

Definition start : Deployer.State nat := mkState O [] [].

Definition single (d : ResourceDeployment) (st : Deployer.State nat) :=
  Deployer._deploy_single nat backend_get_none backend_validate backend_deploy
                          test_cfg d st.

Lemma rollback_in_reverse_order_witness :
  let r1 := single (spec_of "A") start in
  let r2 := single (spec_of "B") (snd r1) in
  let r3 := single (spec_of "C") (snd r2) in
  ∃ result st',
    Deployer.deploy_resources nat backend_get_none backend_validate
      backend_deploy backend_delete elements test_cfg
      [spec_of "C"; spec_of "A"; spec_of "B"]
      (Some DepGraphProofs.chain_graph) start
    = (Returns result, st') ∧
    success result = false ∧
    deployed_resources result = [snd (fst r1); snd (fst r2)] ∧
    resource_id (snd (fst r1)) = "A" ∧ resource_id (snd (fst r2)) = "B" ∧
    trace st' = trace (snd r3) ++ [DeleteResource "B"; DeleteResource "A"].
Proof.
  intros r1 r2 r3.
  apply (rollback_in_reverse_order nat backend_get_none backend_validate
           backend_deploy backend_delete elements test_cfg
           [spec_of "C"; spec_of "A"; spec_of "B"]
           (Some DepGraphProofs.chain_graph) start
           (spec_of "A") (spec_of "B") (spec_of "C")
           (snd (fst r1)) (snd (fst r2)) (snd (fst r3))
           (snd r1) (snd r2) (snd r3)).
  - reflexivity.
  - vm_compute. reflexivity.
  - vm_compute. reflexivity.
  - vm_compute. reflexivity.
  - vm_compute. reflexivity.
Defined.



(** The run of the rollback scenario above, and what it returns. *)
Definition rolled_back_run : outcome DeploymentResult * Deployer.State nat :=
  Deployer.deploy_resources nat backend_get_none backend_validate
    backend_deploy backend_delete elements test_cfg
    [spec_of "C"; spec_of "A"; spec_of "B"]
    (Some DepGraphProofs.chain_graph) start.

Definition returned (r : outcome DeploymentResult) : DeploymentResult :=
  match r with
  | Returns result => result
  | _ => mkResult false [] "" "" [] []
  end.

Lemma deploy_resources_raises_only_on_cycle_witness :
  Deployer.deploy_resources nat backend_get_none backend_validate
    backend_deploy backend_delete elements test_cfg
    [spec_of "C"; spec_of "A"; spec_of "B"]
    (Some DepGraphProofs.looped_graph) start
  = (Raises (ValidationError "Circular dependency detected in resource graph"),
     start).
Proof.
  apply (proj1 (deploy_resources_raises_only_on_cycle nat backend_get_none
                  backend_validate backend_deploy backend_delete elements
                  test_cfg [spec_of "C"; spec_of "A"; spec_of "B"]
                  DepGraphProofs.looped_graph start
                  DepGraphProofs.elements_perm DepGraphProofs.wf_looped_graph)).
  apply DepGraphProofs.looped_graph_has_cycle.
Defined.

Lemma deployment_order_respects_dependencies_witness :
  order_deployments elements [spec_of "C"; spec_of "A"; spec_of "B"]
                    (Some DepGraphProofs.chain_graph)
  = Returns [spec_of "A"; spec_of "B"; spec_of "C"] ∧
  (1 < 2)%nat.
Proof.
  split; [vm_compute; reflexivity|].
  apply (deployment_order_respects_dependencies elements
           [spec_of "C"; spec_of "A"; spec_of "B"] DepGraphProofs.chain_graph
           [spec_of "A"; spec_of "B"; spec_of "C"] 2 1
           (spec_of "C") (spec_of "B")
           DepGraphProofs.elements_perm DepGraphProofs.wf_chain_graph).
  - vm_compute. reflexivity.
  - reflexivity.
  - reflexivity.
  - vm_compute. left.
Defined.

Lemma every_deployment_is_accounted_for_witness :
  (length (deployed_resources (returned (fst rolled_back_run)))
   + length (error_messages (returned (fst rolled_back_run)))
   = length [spec_of "C"; spec_of "A"; spec_of "B"])%nat ∧
  (success (returned (fst rolled_back_run)) = true
   ↔ error_messages (returned (fst rolled_back_run)) = []
     ∧ [spec_of "C"; spec_of "A"; spec_of "B"] ≠ []) ∧
  ([spec_of "C"; spec_of "A"; spec_of "B"] = [] →
   success (returned (fst rolled_back_run)) = false ∧ snd rolled_back_run = start).
Proof.
  apply (every_deployment_is_accounted_for nat backend_get_none backend_validate
           backend_deploy backend_delete elements test_cfg
           [spec_of "C"; spec_of "A"; spec_of "B"]
           (Some DepGraphProofs.chain_graph) start
           (returned (fst rolled_back_run)) (snd rolled_back_run)).
  vm_compute. reflexivity.
Defined.

Lemma rollback_deletes_what_was_deployed_witness :
  ∃ others,
    extends nat start (snd rolled_back_run)
      (others ++
       (if success (returned (fst rolled_back_run))
           || negb (enable_rollback test_cfg)
        then []
        else map (λ d, DeleteResource (resource_id d))
                 (reverse (deployed_resources (returned (fst rolled_back_run)))))) ∧
    List.filter is_delete others = [].
Proof.
  apply (rollback_deletes_what_was_deployed nat backend_get_none backend_validate
           backend_deploy backend_delete elements test_cfg
           [spec_of "C"; spec_of "A"; spec_of "B"]
           (Some DepGraphProofs.chain_graph) start
           (returned (fst rolled_back_run)) (snd rolled_back_run)).
  vm_compute. reflexivity.
Defined.

(** A backend whose compiler refuses every template. *)
Definition backend_validate_refuses (d : ResourceDeployment) (w : nat)
  : (validation_reply + exn) * nat :=
  (inl (mkValidation false (Some "BCP018: expected the = character")), S w).

Lemma invalid_template_is_never_deployed_witness :
  ∃ st',
    Deployer._deploy_single nat backend_get_none backend_validate_refuses
      backend_deploy test_cfg (spec_of "A") start
    = (false, spec_of "A", st') ∧
    trace st'
    = trace start
      ++ (if force_redeploy test_cfg then []
          else [GetResource (resource_id (spec_of "A"))])
      ++ replicate 3 (ValidateTemplate (resource_id (spec_of "A"))) ∧
    _deployed_resources st' = _deployed_resources start.
Proof.
  apply (invalid_template_is_never_deployed nat backend_get_none
           backend_validate_refuses backend_deploy test_cfg 2 (spec_of "A") start).
  - reflexivity.
  - right. intros w r. discriminate.
  - intros w. reflexivity.
Defined.

End DeployerProofs.

(** ** validation_session.py *)

Module SessionProofs.
Import Fix Session.

Section Facts.

Variable World : Type.
Variable Project : Type.
Variable discover_projects : World → (list Project + exn) * World.
Variable analyze_project : Project → World → (list string + exn) * World.
Variable create_deployer : World → (unit + exn) * World.
Variable store_app_settings : list string → World → (Z + exn) * World.
Variable discover_endpoints : World → (list Endpoint + exn) * World.
Variable test_multiple_endpoints :
  list Endpoint → World → (list TestResult + exn) * World.
Variable subprocess_run : string → World → subprocess_result * World.
Variable keyvault_url : option string.
Variable enable_fixes : bool.
Variable max_fix_attempts : Z.

Local Abbreviation Session := (Session World Project).
Local Abbreviation testing := (_run_testing_stage World Project
  discover_endpoints test_multiple_endpoints).
Local Abbreviation fixing := (_run_fixing_stage World Project subprocess_run).
Local Abbreviation fix_loop := (fix_loop World Project discover_endpoints
  test_multiple_endpoints subprocess_run max_fix_attempts).
Local Abbreviation run := (run World Project discover_projects analyze_project
  create_deployer store_app_settings discover_endpoints test_multiple_endpoints
  subprocess_run keyvault_url enable_fixes max_fix_attempts).
Local Abbreviation stages_before_testing := (stages_before_testing World Project
  discover_projects analyze_project create_deployer store_app_settings
  keyvault_url).

(** Endpoints are always found, and every test run has a failing result. *)
Hypothesis endpoints_found :
  ∀ w, ∃ endpoints w', discover_endpoints w = (inl endpoints, w') ∧ endpoints ≠ [].
Hypothesis tests_keep_failing :
  ∀ endpoints w, ∃ results w',
    test_multiple_endpoints endpoints w = (inl results, w') ∧
    ∃ r, r ∈ results ∧ failing r = true.

Lemma then_returns {A B} (m : M World Project A) (k : A → M World Project B) s a s' :
  m s = (inl a, s') → then_ World Project m k s = k a s'.
Proof. unfold then_. by intros ->. Qed.

Lemma then_get {B} (k : Session → M World Project B) s :
  then_ World Project (get World Project) k s = k s s.
Proof. done. Qed.

Lemma testing_stage_spec (s : Session) :
  ∃ s', testing s = (inl tt, s') ∧
        fix_orchestrator World Project s' = fix_orchestrator World Project s ∧
        stages_completed (summary World Project s')
        = stages_completed (summary World Project s) ++ [ValidationStage.TESTING] ∧
        filter (λ r, failing r = true) (test_results World Project s') ≠ [] ∧
        1 ≤ tests_failed (summary World Project s').
Proof.
  unfold Session._run_testing_stage, then_, _transition_to_stage, _complete_stage,
    set_summary, external. simpl.
  destruct (endpoints_found (world World Project s)) as (eps & w1 & -> & Heps).
  destruct eps as [|ep eps]; [done|]. simpl.
  destruct (tests_keep_failing (ep :: eps) w1) as (rs & w2 & -> & r & Hr & Hfail).
  simpl. eexists. split; [done|]. simpl.
  assert (Hin : r ∈ filter (λ r, failing r = true) rs)
    by (by apply list_elem_of_filter).
  split; [done|]. split; [done|]. split.
  - intros Hnil. rewrite Hnil in Hin. by apply elem_of_nil in Hin.
  - destruct (filter (λ r, failing r = true) rs); [by apply elem_of_nil in Hin|].
    simpl. lia.
Qed.

Lemma fixing_stage_spec failed (s : Session) :
  ∃ s', fixing failed s = (inl tt, s') ∧
        fix_orchestrator World Project s'
        = snd (fst (attempt_fix World subprocess_run
                      (fix_orchestrator World Project s) failed None
                      (world World Project s))) ∧
        stages_completed (summary World Project s')
        = stages_completed (summary World Project s) ++ [ValidationStage.FIXING] ∧
        tests_failed (summary World Project s')
        = tests_failed (summary World Project s).
Proof.
  unfold Session._run_fixing_stage, then_, _transition_to_stage, _complete_stage,
    set_summary. simpl.
  destruct (attempt_fix World subprocess_run _ failed None _) as [[r o'] w'].
  simpl. eexists. done.
Qed.

(** The test/fix loop with two fix attempts allowed: testing and fixing
    alternate twice, and a third test run follows unless the second fix call
    opened the breaker. *)
Lemma fix_loop_two (s : Session) :
  max_fix_attempts = 2 →
  breaker_closed (fix_orchestrator World Project s) →
  Fix.max_fix_attempts (fix_orchestrator World Project s) = 2 →
  ∃ s' tail,
    fix_loop 3 0 s = (inl tt, s') ∧
    (tail = [] ∨ tail = [ValidationStage.TESTING]) ∧
    stages_completed (summary World Project s')
    = stages_completed (summary World Project s)
      ++ [ValidationStage.TESTING; ValidationStage.FIXING;
          ValidationStage.TESTING; ValidationStage.FIXING] ++ tail ∧
    1 ≤ tests_failed (summary World Project s').
Proof.
  intros Hmax Hclosed Hmax_o.
  (* first round *)
  destruct (testing_stage_spec s) as (s1 & Ht1 & Ho1 & Hst1 & Hf1 & _).
  cbn [Session.fix_loop]. rewrite (then_returns _ _ _ _ _ Ht1).
  rewrite then_get.
  destruct (filter (λ r, failing r = true) (test_results World Project s1))
    as [|f1 fs1] eqn:E1; [done|].
  rewrite decide_True by lia.
  destruct (fixing_stage_spec (f1 :: fs1) s1) as (s2 & Hx2 & Ho2 & Hst2 & _).
  rewrite (then_returns _ _ _ _ _ Hx2).
  rewrite then_get.
  assert (Hflag2 : circuit_breaker_open (fix_orchestrator World Project s2) = false).
  { rewrite Ho2, Ho1. by apply FixProofs.attempt_fix_closed. }
  rewrite Hflag2.
  (* second round *)
  destruct (testing_stage_spec s2) as (s3 & Ht3 & Ho3 & Hst3 & Hf3 & Hn3).
  rewrite (then_returns _ _ _ _ _ Ht3).
  rewrite then_get.
  destruct (filter (λ r, failing r = true) (test_results World Project s3))
    as [|f3 fs3] eqn:E3; [done|].
  rewrite decide_True by lia.
  destruct (fixing_stage_spec (f3 :: fs3) s3) as (s4 & Hx4 & Ho4 & Hst4 & Hn4).
  rewrite (then_returns _ _ _ _ _ Hx4).
  rewrite then_get.
  assert (Hstages : stages_completed (summary World Project s4)
            = stages_completed (summary World Project s)
              ++ [ValidationStage.TESTING; ValidationStage.FIXING;
                  ValidationStage.TESTING; ValidationStage.FIXING]).
  { rewrite Hst4, Hst3, Hst2, Hst1. by rewrite <- !app_assoc. }
  destruct (circuit_breaker_open (fix_orchestrator World Project s4)).
  { exists s4, []. split; [done|]. split; [by left|].
    rewrite app_nil_r. split; [done | lia]. }
  (* third round: testing only *)
  destruct (testing_stage_spec s4) as (s5 & Ht5 & Ho5 & Hst5 & Hf5 & Hn5).
  rewrite (then_returns _ _ _ _ _ Ht5).
  rewrite then_get.
  destruct (filter (λ r, failing r = true) (test_results World Project s5))
    as [|f5 fs5] eqn:E5; [done|].
  rewrite decide_False by lia.
  exists s5, [ValidationStage.TESTING]. split; [done|]. split; [by right|].
  split; [|done]. rewrite Hst5, Hstages. by rewrite <- !app_assoc.
Qed.

(** C5 (amended).  With [max_fix_attempts = 2], endpoints that are always
    found and test runs that always contain a failing result, a run whose
    earlier stages completed terminates after exactly two fixing stages (each
    one call of [attempt_fix]), tested two or three times, still counts failed
    tests, and ends Completed with [success = true]. *)
Theorem persistent_failures_two_fixing_stages (s0 s1 : Session) :
  max_fix_attempts = 2 →
  stages_before_testing s0 = (inl tt, s1) →
  ∃ tail,
    (tail = [] ∨ tail = [ValidationStage.TESTING]) ∧
    stages_completed (fst (run s0))
    = stages_completed (summary World Project s1)
      ++ [ValidationStage.TESTING; ValidationStage.FIXING;
          ValidationStage.TESTING; ValidationStage.FIXING] ++ tail ∧
    current_stage (fst (run s0)) = ValidationStage.COMPLETED ∧
    success (fst (run s0)) = true ∧
    1 ≤ tests_failed (fst (run s0)).
Proof.
  intros Hmax Hpre.
  assert (Hbody : ∃ s' tail,
    then_ World Project stages_before_testing
      (λ _, _run_testing_and_fixing_stages World Project discover_endpoints
              test_multiple_endpoints subprocess_run enable_fixes
              max_fix_attempts) s0 = (inl tt, s') ∧
    (tail = [] ∨ tail = [ValidationStage.TESTING]) ∧
    stages_completed (summary World Project s')
    = stages_completed (summary World Project s1)
      ++ [ValidationStage.TESTING; ValidationStage.FIXING;
          ValidationStage.TESTING; ValidationStage.FIXING] ++ tail ∧
    1 ≤ tests_failed (summary World Project s')).
  { rewrite (then_returns _ _ _ _ _ Hpre).
    unfold _run_testing_and_fixing_stages, then_ at 1. lazy beta iota.
    rewrite Hmax. change (Z.to_nat (2 + 1)) with 3%nat.
    match goal with |- context [Session.fix_loop _ _ _ _ _ _ 3 0 ?s] =>
      destruct (fix_loop_two s) as (s' & tail & Hloop & Htail & Hstages & Hfailed)
    end; [done | split; simpl; [done | lia] | done |].
    rewrite Hmax in Hloop. exists s', tail. done. }
  destruct Hbody as (s' & tail & Hbody & Htail & Hstages & Hfailed).
  unfold Session.run. rewrite Hbody. simpl. exists tail. done.
Qed.

End Facts.

(** *** What holds of every session *)

Section General.

Variable World : Type.
Variable Project : Type.
Variable discover_projects : World → (list Project + exn) * World.
Variable analyze_project : Project → World → (list string + exn) * World.
Variable create_deployer : World → (unit + exn) * World.
Variable store_app_settings : list string → World → (Z + exn) * World.
Variable discover_endpoints : World → (list Endpoint + exn) * World.
Variable test_multiple_endpoints :
  list Endpoint → World → (list TestResult + exn) * World.
Variable subprocess_run : string → World → subprocess_result * World.
Variable keyvault_url : option string.
Variable enable_fixes : bool.
Variable max_fix_attempts : Z.

Local Abbreviation Session := (Session World Project).
Local Abbreviation M := (M World Project).
Local Abbreviation then_ := (then_ World Project).
Local Abbreviation summary := (summary World Project).
Local Abbreviation testing := (_run_testing_stage World Project
  discover_endpoints test_multiple_endpoints).
Local Abbreviation fixing := (_run_fixing_stage World Project subprocess_run).
Local Abbreviation fix_loop := (fix_loop World Project discover_endpoints
  test_multiple_endpoints subprocess_run max_fix_attempts).
Local Abbreviation testing_and_fixing :=
  (_run_testing_and_fixing_stages World Project discover_endpoints
     test_multiple_endpoints subprocess_run enable_fixes max_fix_attempts).
Local Abbreviation run := (run World Project discover_projects analyze_project
  create_deployer store_app_settings discover_endpoints test_multiple_endpoints
  subprocess_run keyvault_url enable_fixes max_fix_attempts).
Local Abbreviation stages_before_testing := (stages_before_testing World Project
  discover_projects analyze_project create_deployer store_app_settings
  keyvault_url).

(** The completed stages, and the counters of the test and fix rounds. *)
Definition log (s : Session) : list ValidationStage.t :=
  stages_completed (summary s).

Definition counts (s : Session) : Z * Z * Z * Z * Z * Z :=
  (endpoints_tested (summary s), tests_passed (summary s),
   tests_failed (summary s), tests_skipped (summary s),
   Session.fix_attempts (summary s), fixes_successful (summary s)).

(** The counters add up. *)
Definition consistent (sm : ValidationSummary) : Prop :=
  endpoints_tested sm = tests_passed sm + tests_failed sm + tests_skipped sm ∧
  0 ≤ fixes_successful sm ≤ Session.fix_attempts sm.

Definition occurrences (stage : ValidationStage.t) (l : list ValidationStage.t)
  : nat :=
  length (filter (λ st, st = stage) l).

(** [m] completes no stage and leaves the counters alone. *)
Definition quiet {A} (m : M A) : Prop :=
  ∀ s, log (snd (m s)) = log s ∧ counts (snd (m s)) = counts s.

(** [m] completes [stage] when it returns, nothing when it raises. *)
Definition logs {A} (stage : ValidationStage.t) (m : M A) : Prop :=
  ∀ s, counts (snd (m s)) = counts s ∧
       log (snd (m s))
       = log s ++ match fst (m s) with inl _ => [stage] | inr _ => [] end.

Lemma quiet_then {A B} (m : M A) (k : A → M B) :
  quiet m → (∀ a, quiet (k a)) → quiet (then_ m k).
Proof.
  intros Hm Hk s. unfold Session.then_. destruct (Hm s) as [H1 H2].
  destruct (m s) as [[a|e] s1]; simpl in *; [|done].
  destruct (Hk a s1) as [H3 H4]. by rewrite H3, H4.
Qed.

Lemma logs_then {A B} stage (m : M A) (k : A → M B) :
  quiet m → (∀ a, logs stage (k a)) → logs stage (then_ m k).
Proof.
  intros Hm Hk s. unfold Session.then_. destruct (Hm s) as [H1 H2].
  destruct (m s) as [[a|e] s1]; simpl in *.
  - destruct (Hk a s1) as [H3 H4]. by rewrite H3, H4, H1, H2.
  - by rewrite app_nil_r.
Qed.

Lemma quiet_external {A} (op : World → (A + exn) * World) :
  quiet (external World Project op).
Proof. intros s. unfold external. by destruct (op (world World Project s)). Qed.

Lemma quiet_transition stage : quiet (_transition_to_stage World Project stage).
Proof. done. Qed.

Lemma logs_complete stage : logs stage (_complete_stage World Project stage).
Proof. done. Qed.

Lemma quiet_analyze_all projects :
  quiet (analyze_all World Project analyze_project projects).
Proof.
  induction projects as [|project rest IH]; [done|]. cbn [analyze_all].
  apply quiet_then; [done|]. intros _.
  apply quiet_then; [apply quiet_external|]. intros _.
  apply quiet_then; [done|]. intros _. apply IH.
Qed.

Lemma quiet_store_secrets projects :
  quiet (_store_secrets World Project analyze_project store_app_settings projects).
Proof.
  induction projects as [|project rest IH]; [done|]. cbn [_store_secrets].
  apply quiet_then; [apply quiet_external|]. intros settings.
  apply quiet_then; [|intros _; apply IH].
  destruct settings; [done|].
  apply quiet_then; [apply quiet_external|]. done.
Qed.

Lemma logs_discovery :
  logs ValidationStage.DISCOVERING
       (_run_discovery_stage World Project discover_projects).
Proof.
  unfold _run_discovery_stage.
  apply logs_then; [apply quiet_transition|]. intros _.
  apply logs_then; [apply quiet_external|]. intros projects.
  apply logs_then; [done|]. intros _.
  destruct projects; [by intros s; rewrite app_nil_r | apply logs_complete].
Qed.

Lemma logs_analysis :
  logs ValidationStage.ANALYZING
       (_run_analysis_stage World Project analyze_project).
Proof.
  unfold _run_analysis_stage.
  apply logs_then; [apply quiet_transition|]. intros _.
  apply logs_then; [done|]. intros s'.
  apply logs_then; [apply quiet_analyze_all|]. intros _. apply logs_complete.
Qed.

Lemma logs_deployment :
  logs ValidationStage.DEPLOYING
       (_run_deployment_stage World Project analyze_project create_deployer
          store_app_settings keyvault_url).
Proof.
  unfold _run_deployment_stage.
  apply logs_then; [apply quiet_transition|]. intros _.
  apply logs_then; [apply quiet_external|]. intros _.
  apply logs_then; [done|]. intros s'.
  apply logs_then; [|intros _; apply logs_complete].
  destruct (_ && _); [apply quiet_store_secrets | done].
Qed.

(** The stages before testing complete in order and stop at the first that
    raises. *)
Lemma stages_before_testing_spec s :
  counts (snd (stages_before_testing s)) = counts s ∧
  ∃ pre,
    log (snd (stages_before_testing s)) = log s ++ pre ∧
    pre `prefix_of` [ValidationStage.DISCOVERING; ValidationStage.ANALYZING;
                     ValidationStage.DEPLOYING] ∧
    (∀ u, fst (stages_before_testing s) = inl u →
       pre = [ValidationStage.DISCOVERING; ValidationStage.ANALYZING;
              ValidationStage.DEPLOYING]).
Proof.
  unfold Session.stages_before_testing, Session.then_.
  destruct (logs_discovery s) as [Hc1 Hl1].
  destruct (_run_discovery_stage World Project discover_projects s)
    as [[[]|e] s1]; simpl in Hc1, Hl1.
  2: { simpl. split; [done|]. exists []. rewrite Hl1.
       split; [done|]. split; [apply prefix_nil | done]. }
  destruct (logs_analysis s1) as [Hc2 Hl2].
  destruct (_run_analysis_stage World Project analyze_project s1)
    as [[[]|e] s2]; simpl in Hc2, Hl2.
  2: { simpl. split; [congruence|]. exists [ValidationStage.DISCOVERING].
       rewrite Hl2, Hl1, app_nil_r. split; [done|].
       split; [by eexists | done]. }
  destruct (logs_deployment s2) as [Hc3 Hl3].
  destruct (_run_deployment_stage World Project analyze_project create_deployer
              store_app_settings keyvault_url s2) as [[[]|e] s3];
    simpl in Hc3, Hl3; simpl; (split; [congruence|]).
  - eexists. rewrite Hl3, Hl2, Hl1, <- !app_assoc. split; [done|]. done.
  - exists [ValidationStage.DISCOVERING; ValidationStage.ANALYZING].
    rewrite Hl3, Hl2, Hl1, app_nil_r, <- app_assoc. split; [done|].
    split; [by eexists | done].
Qed.

Lemma results_partition (results : list TestResult) :
  Z.of_nat (length results)
  = count_status TestStatus.SUCCESS results
    + Z.of_nat (length (filter (λ r, failing r = true) results))
    + count_status TestStatus.SKIPPED results.
Proof.
  unfold count_status. induction results as [|r rs IH]; [done|].
  rewrite !filter_cons.
  pose proof (eq_refl (failing r)) as Hf. unfold failing at 2 in Hf.
  repeat case_decide; destruct (status r); simpl in Hf;
    first [congruence | simpl length; lia].
Qed.

Lemma testing_spec s :
  log (snd (testing s))
  = log s ++ match fst (testing s) with
             | inl _ => [ValidationStage.TESTING]
             | inr _ => []
             end ∧
  fix_orchestrator World Project (snd (testing s))
  = fix_orchestrator World Project s ∧
  (consistent (summary s) → consistent (summary (snd (testing s)))).
Proof.
  unfold Session._run_testing_stage, Session.then_, _transition_to_stage,
    _complete_stage, set_summary, external, log, consistent. simpl.
  destruct (discover_endpoints (world World Project s)) as [[[|ep eps]|e] w1];
    simpl; [done | | by rewrite app_nil_r].
  destruct (test_multiple_endpoints (ep :: eps) w1) as [[results|e] w2]; simpl;
    [|by rewrite app_nil_r].
  split; [done|]. split; [done|]. intros [_ Hfix]. split; [|done].
  apply results_partition.
Qed.

Lemma successful_fixes_bound o :
  0 ≤ successful_fixes o ≤ total_attempts o.
Proof.
  unfold successful_fixes, total_attempts.
  pose proof (length_filter (λ a, Fix.success a = true) (Fix.fix_attempts o)).
  lia.
Qed.

Lemma fixing_spec failed s :
  fst (fixing failed s) = inl tt ∧
  log (snd (fixing failed s)) = log s ++ [ValidationStage.FIXING] ∧
  fix_orchestrator World Project (snd (fixing failed s))
  = snd (fst (attempt_fix World subprocess_run
                (fix_orchestrator World Project s) failed None
                (world World Project s))) ∧
  (consistent (summary s) → consistent (summary (snd (fixing failed s)))).
Proof.
  unfold Session._run_fixing_stage, Session.then_, _transition_to_stage,
    _complete_stage, set_summary, log, consistent. simpl.
  destruct (attempt_fix World subprocess_run _ failed None _) as [[r o'] w'].
  simpl. split; [done|]. split; [done|]. split; [done|].
  intros [Htests _]. split; [done|]. apply successful_fixes_bound.
Qed.

Lemma occurrences_app stage l k :
  occurrences stage (l ++ k) = (occurrences stage l + occurrences stage k)%nat.
Proof. unfold occurrences. by rewrite filter_app, length_app. Qed.

(** The rounds of the test/fix loop. *)
Definition rounds_ok (n : nat) (budget : Z) (l : list ValidationStage.t) : Prop :=
  Forall (λ st, st = ValidationStage.TESTING ∨ st = ValidationStage.FIXING) l ∧
  (occurrences ValidationStage.TESTING l ≤ n)%nat ∧
  Z.of_nat (occurrences ValidationStage.FIXING l) ≤ Z.max 0 budget.

Lemma fix_loop_unfold n attempt s :
  fix_loop (S n) attempt s
  = match testing s with
    | (inl _, s1) =>
        match filter (λ r, failing r = true) (test_results World Project s1) with
        | [] => (inl tt, s1)
        | f :: fs =>
            if decide (attempt < max_fix_attempts) then
              match fixing (f :: fs) s1 with
              | (inl _, s2) =>
                  if circuit_breaker_open (fix_orchestrator World Project s2)
                  then (inl tt, s2)
                  else fix_loop n (attempt + 1) s2
              | (inr e, s2) => (inr e, s2)
              end
            else fix_loop n (attempt + 1) s1
        end
    | (inr e, s1) => (inr e, s1)
    end.
Proof.
  cbn [Session.fix_loop]. unfold Session.then_, get, ret.
  destruct (testing s) as [[[]|e] s1]; [|done].
  destruct (filter _ _) as [|f fs]; [done|]. case_decide; [|done].
  destruct (fixing (f :: fs) s1) as [[[]|e] s2]; [|done].
  by destruct (circuit_breaker_open _).
Qed.

Lemma fix_loop_spec n : ∀ attempt s,
  (consistent (summary s) →
   consistent (summary (snd (fix_loop n attempt s)))) ∧
  ∃ l, log (snd (fix_loop n attempt s)) = log s ++ l ∧
       rounds_ok n (max_fix_attempts - attempt) l.
Proof.
  induction n as [|n IH]; intros attempt s.
  { simpl. split; [by eauto|]. exists []. rewrite app_nil_r. split; [done|].
    split; [constructor|]. unfold occurrences. simpl. lia. }
  rewrite fix_loop_unfold.
  destruct (testing_spec s) as (Hl1 & _ & Hc1).
  destruct (testing s) as [[[]|e] s1]; simpl in Hl1, Hc1.
  2: { simpl. split; [by eauto|]. exists []. rewrite Hl1. split; [done|].
       split; [constructor|]. unfold occurrences. simpl. lia. }
  destruct (filter (λ r, failing r = true) (test_results World Project s1))
    as [|f fs].
  { simpl. split; [by eauto|]. exists [ValidationStage.TESTING].
    split; [done|]. split; [by repeat constructor|].
    unfold occurrences. rewrite !filter_cons, filter_nil.
    rewrite decide_True, decide_False by done. simpl. lia. }
  case_decide as Ha.
  - destruct (fixing_spec (f :: fs) s1) as (Hr2 & Hl2 & _ & Hc2).
    destruct (fixing (f :: fs) s1) as [[[]|e] s2]; simpl in Hr2, Hl2, Hc2;
      [|done].
    destruct (circuit_breaker_open (fix_orchestrator World Project s2)).
    + simpl. split; [by eauto|].
      exists [ValidationStage.TESTING; ValidationStage.FIXING].
      rewrite Hl2, Hl1, <- app_assoc. split; [done|].
      split; [by repeat constructor|].
      unfold occurrences. rewrite !filter_cons, !filter_nil.
      rewrite !decide_True, !decide_False by done. simpl. lia.
    + destruct (IH (attempt + 1) s2) as (Hc & l & Hl & Hall & Ht & Hf).
      split; [by eauto|].
      exists ([ValidationStage.TESTING; ValidationStage.FIXING] ++ l).
      rewrite Hl, Hl2, Hl1, <- !app_assoc. split; [done|].
      split; [by repeat constructor|].
      rewrite !occurrences_app. unfold occurrences at 1 3.
      rewrite !filter_cons, !filter_nil.
      rewrite !decide_True, !decide_False by done. simpl length. lia.
  - destruct (IH (attempt + 1) s1) as (Hc & l & Hl & Hall & Ht & Hf).
    split; [by eauto|]. exists ([ValidationStage.TESTING] ++ l).
    rewrite Hl, Hl1, <- !app_assoc. split; [done|].
    split; [by repeat constructor|].
    rewrite !occurrences_app. unfold occurrences at 1 3.
    rewrite !filter_cons, !filter_nil.
    rewrite !decide_True, !decide_False by done. simpl length. lia.
Qed.

(** What [run] does to the stage log and the counters, whatever the
    collaborators answer. *)
Lemma run_spec s :
  (consistent (summary s) → consistent (fst (run s))) ∧
  ∃ pre rounds,
    stages_completed (fst (run s)) = log s ++ pre ++ rounds ∧
    pre `prefix_of` [ValidationStage.DISCOVERING; ValidationStage.ANALYZING;
                     ValidationStage.DEPLOYING] ∧
    (rounds ≠ [] ∨ success (fst (run s)) = true →
       pre = [ValidationStage.DISCOVERING; ValidationStage.ANALYZING;
              ValidationStage.DEPLOYING]) ∧
    rounds_ok (Z.to_nat (max_fix_attempts + 1)) max_fix_attempts rounds.
Proof.
  unfold Session.run, Session.then_.
  destruct (stages_before_testing_spec s) as (Hc0 & pre & Hl0 & Hpre & Hfull).
  destruct (stages_before_testing s) as [[[]|e] s1]; simpl in Hc0, Hl0, Hfull.
  2: { simpl. split.
       { unfold consistent, counts in *. simpl. injection Hc0 as -> -> -> -> -> ->.
         done. }
       exists pre, []. rewrite app_nil_r. split; [done|]. split; [done|].
       split; [by intros [?|?]|]. split; [constructor|].
       unfold occurrences. simpl. lia. }
  unfold Session._run_testing_and_fixing_stages, Session.then_. lazy beta iota.
  match goal with |- context [Session.fix_loop _ _ _ _ _ _ _ _ ?s2] =>
    destruct (fix_loop_spec (Z.to_nat (max_fix_attempts + 1)) 0 s2)
      as (Hc & l & Hl & Hok) end.
  assert (Hc' : consistent (summary s) →
    consistent (summary (snd (fix_loop (Z.to_nat (max_fix_attempts + 1)) 0
      (mkSession World Project (summary s1)
         (discovered_projects World Project s1) (analyzer World Project s1)
         (test_results World Project s1) (Fix.new max_fix_attempts enable_fixes)
         (world World Project s1)))))).
  { intros Hs. apply Hc. unfold consistent, counts in *. simpl.
    injection Hc0 as -> -> -> -> -> ->. done. }
  clear Hc. rewrite Z.sub_0_r in Hok.
  match goal with |- context [Session.fix_loop _ _ _ _ _ _ ?n ?a ?s2] =>
    destruct (Session.fix_loop World Project discover_endpoints
                test_multiple_endpoints subprocess_run max_fix_attempts n a s2)
      as [[[]|e] s3] end;
    simpl in Hc', Hl; simpl; (split; [done|]); exists pre, l;
    unfold log in *; simpl in Hl; rewrite Hl, Hl0, <- app_assoc;
    (split; [done|]); (split; [done|]); (split; [|done]); intros _;
    by apply (Hfull tt).
Qed.

(** The counters of the summary always add up: in the summary returned by a
    fresh session, the endpoints tested are the tests passed, failed and
    skipped together, and the successful fixes are between zero and the fix
    attempts, whatever the collaborators answer or raise. *)
Theorem summary_counts_add_up w :
  consistent (fst (run (new_session World Project enable_fixes max_fix_attempts w))).
Proof. apply run_spec. unfold consistent. simpl. lia. Qed.

(** Stages complete in order, and the test/fix loop is bounded: the stages a
    run completes are a prefix of discovery, analysis, deployment, followed,
    only when all three completed, by testing and fixing stages, of which
    there are at most [max_fix_attempts + 1] and [max_fix_attempts]; a run
    that reports success completed the first three. *)
Theorem stages_complete_in_order s :
  ∃ pre rounds,
    stages_completed (fst (run s)) = log s ++ pre ++ rounds ∧
    pre `prefix_of` [ValidationStage.DISCOVERING; ValidationStage.ANALYZING;
                     ValidationStage.DEPLOYING] ∧
    (rounds ≠ [] ∨ success (fst (run s)) = true →
       pre = [ValidationStage.DISCOVERING; ValidationStage.ANALYZING;
              ValidationStage.DEPLOYING]) ∧
    Forall (λ st, st = ValidationStage.TESTING ∨ st = ValidationStage.FIXING)
           rounds ∧
    (occurrences ValidationStage.TESTING rounds
     ≤ Z.to_nat (max_fix_attempts + 1))%nat ∧
    Z.of_nat (occurrences ValidationStage.FIXING rounds)
    ≤ Z.max 0 max_fix_attempts.
Proof.
  destruct (run_spec s) as (_ & pre & rounds & Hlog & Hpre & Hfull & Hok).
  exists pre, rounds. unfold rounds_ok in Hok. tauto.
Qed.

(** A directory without projects fails the run at once: discovery raises,
    the summary ends Failed with that message and not one stage completed,
    and no other collaborator is called. *)
Theorem no_projects_fails_the_run s w' :
  discover_projects (world World Project s) = (inl [], w') →
  current_stage (fst (run s)) = ValidationStage.FAILED ∧
  success (fst (run s)) = false ∧
  error_message (fst (run s)) = Some "No projects discovered in the directory"%string ∧
  projects_discovered (fst (run s)) = 0 ∧
  stages_completed (fst (run s)) = log s ∧
  world World Project (snd (run s)) = w'.
Proof.
  intros Hnone.
  unfold Session.run, Session.stages_before_testing, _run_discovery_stage,
    Session.then_, _transition_to_stage, set_summary, external. simpl.
  rewrite Hnone. done.
Qed.

Lemma no_failing_results (results : list TestResult) :
  Forall (λ r, failing r = false) results →
  filter (λ r, failing r = true) results = [].
Proof.
  induction 1 as [|r rs Hr _ IH]; [done|].
  rewrite filter_cons, decide_False by congruence. done.
Qed.

(** When every endpoint test passes or is skipped, the run tests once and
    never enters the fixing stage: it completes with success, no failed
    test and an untouched fix orchestrator, and the world is the one the
    test run left, so the fix tool was not run. *)
Theorem passing_tests_need_no_fix s0 s1 endpoints w1 results w2 :
  0 ≤ max_fix_attempts →
  stages_before_testing s0 = (inl tt, s1) →
  discover_endpoints (world World Project s1) = (inl endpoints, w1) →
  endpoints ≠ [] →
  test_multiple_endpoints endpoints w1 = (inl results, w2) →
  Forall (λ r, failing r = false) results →
  stages_completed (fst (run s0)) = log s1 ++ [ValidationStage.TESTING] ∧
  current_stage (fst (run s0)) = ValidationStage.COMPLETED ∧
  success (fst (run s0)) = true ∧
  tests_failed (fst (run s0)) = 0 ∧
  endpoints_tested (fst (run s0)) = Z.of_nat (length results) ∧
  fix_orchestrator World Project (snd (run s0))
  = Fix.new max_fix_attempts enable_fixes ∧
  world World Project (snd (run s0)) = w2.
Proof.
  intros Hmax Hpre Hdisc Hne Htest Hpass.
  assert (Hbody : ∃ s',
    then_ stages_before_testing (λ _, testing_and_fixing) s0 = (inl tt, s') ∧
    log s' = log s1 ++ [ValidationStage.TESTING] ∧
    tests_failed (summary s') = 0 ∧
    endpoints_tested (summary s') = Z.of_nat (length results) ∧
    fix_orchestrator World Project s' = Fix.new max_fix_attempts enable_fixes ∧
    world World Project s' = w2).
  { rewrite (then_returns _ _ _ _ _ _ _ Hpre).
    unfold Session._run_testing_and_fixing_stages, Session.then_ at 1.
    lazy beta iota.
    replace (Z.to_nat (max_fix_attempts + 1))
      with (S (Z.to_nat max_fix_attempts)) by lia.
    rewrite fix_loop_unfold.
    unfold Session._run_testing_stage, Session.then_, _transition_to_stage,
      _complete_stage, set_summary, external. simpl.
    rewrite Hdisc. destruct endpoints as [|ep eps]; [done|]. simpl.
    rewrite Htest. simpl. rewrite (no_failing_results results Hpass). simpl.
    eexists. split; [reflexivity|]. done. }
  destruct Hbody as (s' & Hbody & Hlog & Hfailed & Htested & Horch & Hworld).
  unfold Session.run. rewrite Hbody. simpl. done.
Qed.

(** A negative [max_fix_attempts] leaves the test/fix loop without a single
    round: once the earlier stages have completed, the run reports success
    although no endpoint was discovered or tested. *)
Theorem negative_maximum_skips_testing s0 s1 :
  max_fix_attempts < 0 →
  stages_before_testing s0 = (inl tt, s1) →
  success (fst (run s0)) = true ∧
  current_stage (fst (run s0)) = ValidationStage.COMPLETED ∧
  stages_completed (fst (run s0)) = log s1 ∧
  endpoints_tested (fst (run s0)) = endpoints_tested (summary s1) ∧
  world World Project (snd (run s0)) = world World Project s1.
Proof.
  intros Hmax Hpre.
  assert (Hbody : ∃ s',
    then_ stages_before_testing (λ _, testing_and_fixing) s0 = (inl tt, s') ∧
    summary s' = summary s1 ∧
    world World Project s' = world World Project s1).
  { rewrite (then_returns _ _ _ _ _ _ _ Hpre).
    unfold Session._run_testing_and_fixing_stages, Session.then_.
    replace (Z.to_nat (max_fix_attempts + 1)) with 0%nat by lia.
    eexists. split; [reflexivity|]. done. }
  destruct Hbody as (s' & Hbody & Hsum & Hworld).
  unfold Session.run. rewrite Hbody. simpl. by rewrite Hsum.
Qed.

End General.

(** *** A concrete session *)

(** One project, one endpoint that always times out, and no template-fix
    tool installed; the world counts the collaborator calls. *)
Definition one_project (w : nat) : (list unit + exn) * nat := (inl [tt], S w).

Definition no_settings (p : unit) (w : nat) : (list string + exn) * nat :=
  (inl [], S w).

Definition deployer_ready (w : nat) : (unit + exn) * nat := (inl tt, S w).

Definition store_all (settings : list string) (w : nat) : (Z + exn) * nat :=
  (inl (Z.of_nat (length settings)), S w).

Definition one_endpoint (w : nat) : (list Endpoint + exn) * nat :=
  (inl [mkEndpoint "GET" "/api/timeout"], S w).

Definition always_timeout (endpoints : list Endpoint) (w : nat)
  : (list TestResult + exn) * nat :=
  (inl [FixProofs.timeout_result], S w).

Definition failing_run : ValidationSummary :=
  fst (Session.run nat unit one_project no_settings deployer_ready store_all
         one_endpoint always_timeout FixProofs.tool_missing None true 2
         (new_session nat unit true 2 O)).

(** C5 as stated fails: with two fix attempts allowed and a test that fails
    in every run, the session makes its two fixing stages and then reports
    [success = true], not [false]. *)
Lemma persistent_failures_report_success :
  stages_completed failing_run
  = [ValidationStage.DISCOVERING; ValidationStage.ANALYZING;
     ValidationStage.DEPLOYING;
     ValidationStage.TESTING; ValidationStage.FIXING;
     ValidationStage.TESTING; ValidationStage.FIXING;
     ValidationStage.TESTING] ∧
  tests_failed failing_run = 1 ∧
  Session.fix_attempts failing_run = 2 ∧
  success failing_run ≠ false.
Proof. vm_compute. repeat split; discriminate. Qed.

Lemma persistent_failures_two_fixing_stages_witness :
  let s0 := new_session nat unit true 2 O in
  let run := Session.run nat unit one_project no_settings deployer_ready
               store_all one_endpoint always_timeout FixProofs.tool_missing
               None true 2 in
  let s1 := snd (Session.stages_before_testing nat unit one_project no_settings
                   deployer_ready store_all None s0) in
  ∃ tail,
    (tail = [] ∨ tail = [ValidationStage.TESTING]) ∧
    stages_completed (fst (run s0))
    = stages_completed (summary nat unit s1)
      ++ [ValidationStage.TESTING; ValidationStage.FIXING;
          ValidationStage.TESTING; ValidationStage.FIXING] ++ tail ∧
    current_stage (fst (run s0)) = ValidationStage.COMPLETED ∧
    success (fst (run s0)) = true ∧
    1 ≤ tests_failed (fst (run s0)).
Proof.
  intros s0 run s1.
  apply (persistent_failures_two_fixing_stages nat unit one_project no_settings
           deployer_ready store_all one_endpoint always_timeout
           FixProofs.tool_missing None true 2).
  - intros w. exists [mkEndpoint "GET" "/api/timeout"], (S w). done.
  - intros endpoints w. exists [FixProofs.timeout_result], (S w).
    split; [done|]. exists FixProofs.timeout_result. split; [left | done].
  - reflexivity.
  - vm_compute. reflexivity.
Defined.

(** A directory without projects, and an endpoint that answers. *)
Definition no_project (w : nat) : (list unit + exn) * nat := (inl [], S w).

Definition always_healthy (endpoints : list Endpoint) (w : nat)
  : (list TestResult + exn) * nat :=
  (inl [FixProofs.health_result], S w).

Definition empty_run : ValidationSummary * Session.Session nat unit :=
  Session.run nat unit no_project no_settings deployer_ready store_all
    one_endpoint always_timeout FixProofs.tool_missing None true 2
    (new_session nat unit true 2 O).

Definition healthy_run : ValidationSummary * Session.Session nat unit :=
  Session.run nat unit one_project no_settings deployer_ready store_all
    one_endpoint always_healthy FixProofs.tool_missing None true 2
    (new_session nat unit true 2 O).

Definition untested_run : ValidationSummary * Session.Session nat unit :=
  Session.run nat unit one_project no_settings deployer_ready store_all
    one_endpoint always_timeout FixProofs.tool_missing None true (-1)
    (new_session nat unit true (-1) O).

Lemma no_projects_fails_the_run_witness :
  current_stage (fst empty_run) = ValidationStage.FAILED ∧
  success (fst empty_run) = false ∧
  error_message (fst empty_run)
  = Some "No projects discovered in the directory"%string ∧
  projects_discovered (fst empty_run) = 0 ∧
  stages_completed (fst empty_run)
  = log nat unit (new_session nat unit true 2 O) ∧
  world nat unit (snd empty_run) = 1%nat.
Proof.
  apply (no_projects_fails_the_run nat unit no_project no_settings
           deployer_ready store_all one_endpoint always_timeout
           FixProofs.tool_missing None true 2
           (new_session nat unit true 2 O) 1%nat).
  reflexivity.
Defined.

Lemma passing_tests_need_no_fix_witness :
  let s1 := snd (Session.stages_before_testing nat unit one_project no_settings
                   deployer_ready store_all None
                   (new_session nat unit true 2 O)) in
  stages_completed (fst healthy_run)
  = log nat unit s1 ++ [ValidationStage.TESTING] ∧
  current_stage (fst healthy_run) = ValidationStage.COMPLETED ∧
  success (fst healthy_run) = true ∧
  tests_failed (fst healthy_run) = 0 ∧
  endpoints_tested (fst healthy_run)
  = Z.of_nat (length [FixProofs.health_result]) ∧
  fix_orchestrator nat unit (snd healthy_run) = Fix.new 2 true ∧
  world nat unit (snd healthy_run) = S (S (world nat unit s1)).
Proof.
  intros s1.
  apply (passing_tests_need_no_fix nat unit one_project no_settings
           deployer_ready store_all one_endpoint always_healthy
           FixProofs.tool_missing None true 2
           (new_session nat unit true 2 O) s1
           [mkEndpoint "GET" "/api/timeout"] (S (world nat unit s1))
           [FixProofs.health_result] (S (S (world nat unit s1)))).
  - lia.
  - vm_compute. reflexivity.
  - reflexivity.
  - discriminate.
  - reflexivity.
  - repeat constructor.
Defined.

Lemma negative_maximum_skips_testing_witness :
  let s1 := snd (Session.stages_before_testing nat unit one_project no_settings
                   deployer_ready store_all None
                   (new_session nat unit true (-1) O)) in
  success (fst untested_run) = true ∧
  current_stage (fst untested_run) = ValidationStage.COMPLETED ∧
  stages_completed (fst untested_run) = log nat unit s1 ∧
  endpoints_tested (fst untested_run)
  = endpoints_tested (summary nat unit s1) ∧
  world nat unit (snd untested_run) = world nat unit s1.
Proof.
  intros s1.
  apply (negative_maximum_skips_testing nat unit one_project no_settings
           deployer_ready store_all one_endpoint always_timeout
           FixProofs.tool_missing None true (-1)
           (new_session nat unit true (-1) O) s1).
  - lia.
  - vm_compute. reflexivity.
Defined.

End SessionProofs.
